(** * AI Product Photo Editor: request orchestration and result history

    A shallow embedding of [services/geminiService.ts] (prompt
    construction, request fan-out, response normalisation) and of the
    state handlers of [App.tsx] (per-result undo/redo history and the
    session list of generation batches), with the properties of the
    specification stated over them.

    Conventions of the embedding:
    - JavaScript strings are [string], holding their text in UTF-8;
      numbers that index arrays are [Z];
    - a value that the code only tests for presence is an [option]; where
      the code reads through it or prints it, [undefined], [null] and a
      present value are told apart ([Nullable]);
    - the remote generation API, [process.env] and [Date.now] form an
      explicit environment [Env]; the module-level client singleton, the
      log of issued requests and the number of clock readings form the
      [World] threaded through the monad [M];
    - React state is a record; a [setX (prev => f prev)] update is the
      function [f] applied to the state;
    - a handler runs to completion before the next user action: the
      interface disables its controls while a call is outstanding;
    - module [Heap] replays the state updates over a store of arrays and
      objects, where sharing between the current results and the history
      is visible, and is proved to compute the same values. *)

From stdpp Require Import base list strings pretty sorting.
From Stdlib Require Import Ascii ZArith Lia.

Set Default Proof Using "Type".

(** ** JavaScript string primitives used by the source *)

Module Js.

(** [if (s)] on a string: the empty string is the only falsy one. *)
Definition truthy (s : string) : bool :=
  match s with
  | EmptyString => false
  | String _ _ => true
  end.

(** [o ? ... : ...] on an object reference or [undefined]. *)
Definition defined {A} (o : option A) : bool :=
  match o with
  | Some _ => true
  | None => false
  end.

(** A property that an object received from outside may lack, or hold as
    [null]. *)
Inductive Nullable (A : Type) :=
  | Undefined
  | Null
  | Present (a : A).
Arguments Undefined {A}.
Arguments Null {A}.
Arguments Present {A} a.

(** [a[i]] read into a property: [undefined] when the index is outside. *)
Definition element {A} (o : option A) : Nullable A :=
  match o with
  | Some a => Present a
  | None => Undefined
  end.

(** A value interpolated in a template literal. *)
Definition render (o : Nullable string) : string :=
  match o with
  | Undefined => "undefined"
  | Null => "null"
  | Present s => s
  end.

Fixpoint indexOf_from (c : ascii) (s : string) (i : Z) : Z :=
  match s with
  | EmptyString => (-1)%Z
  | String a s' => if Ascii.eqb a c then i else indexOf_from c s' (i + 1)%Z
  end.

(** [s.indexOf(c)] for a one-character needle. *)
Definition indexOf (c : ascii) (s : string) : Z := indexOf_from c s 0.

Definition clamp (len i : Z) : Z := Z.min (Z.max i 0) len.

(** [s.substring(a, b)]: both indices are clamped to [0, length] and
    swapped when out of order. *)
Definition substring (s : string) (a b : Z) : string :=
  let len := Z.of_nat (String.length s) in
  let a' := clamp len a in
  let b' := clamp len b in
  let lo := Z.min a' b' in
  let hi := Z.max a' b' in
  String.substring (Z.to_nat lo) (Z.to_nat (hi - lo)) s.

(** [s.split(c)] for a one-character separator. *)
Fixpoint split (c : ascii) (s : string) : list string :=
  match s with
  | EmptyString => [EmptyString]
  | String a s' =>
      if Ascii.eqb a c then EmptyString :: split c s'
      else match split c s' with
           | h :: t => String a h :: t
           | [] => [String a EmptyString]
           end
  end.

Definition code (a : ascii) : N := N_of_ascii a.

(** The number of bytes of the character that starts with byte [a]. *)
Definition width (a : ascii) : nat :=
  let n := code a in
  if (n <? 192)%N then 1
  else if (n <? 224)%N then 2
  else if (n <? 240)%N then 3
  else 4.

(** The characters of a string, each as its bytes; a truncated character
    is left as single bytes. *)
Fixpoint chars (s : string) : list string :=
  match s with
  | EmptyString => []
  | String a r =>
      match width a, r with
      | 2, String b r' => String a (String b EmptyString) :: chars r'
      | 3, String b (String c r') =>
          String a (String b (String c EmptyString)) :: chars r'
      | 4, String b (String c (String d r')) =>
          String a (String b (String c (String d EmptyString))) :: chars r'
      | _, _ => String a EmptyString :: chars r
      end
  end.

Definition unchars (l : list string) : string := foldr String.append EmptyString l.

(** U+0009 to U+000D and U+0020. *)
Definition isSpace1 (a : ascii) : bool :=
  let n := code a in
  ((9 <=? n)%N && (n <=? 13)%N) || (n =? 32)%N.

(** U+00A0. *)
Definition isSpace2 (a b : ascii) : bool :=
  (code a =? 194)%N && (code b =? 160)%N.

(** U+1680, U+2000 to U+200A, U+2028, U+2029, U+202F, U+205F, U+3000 and
    U+FEFF. *)
Definition isSpace3 (a b c : ascii) : bool :=
  let x := code a in
  let y := code b in
  let z := code c in
  ((x =? 225)%N && (y =? 154)%N && (z =? 128)%N)
  || ((x =? 226)%N && (y =? 128)%N &&
      (((128 <=? z)%N && (z <=? 138)%N) || (z =? 168)%N || (z =? 169)%N || (z =? 175)%N))
  || ((x =? 226)%N && (y =? 129)%N && (z =? 159)%N)
  || ((x =? 227)%N && (y =? 128)%N && (z =? 128)%N)
  || ((x =? 239)%N && (y =? 187)%N && (z =? 191)%N).

(** The white space and line terminators of ECMAScript, which
    [String.prototype.trim] strips. *)
Definition isWhiteSpace (ch : string) : bool :=
  match ch with
  | String a EmptyString => isSpace1 a
  | String a (String b EmptyString) => isSpace2 a b
  | String a (String b (String c EmptyString)) => isSpace3 a b c
  | _ => false
  end.

Fixpoint dropWhile {A} (f : A -> bool) (l : list A) : list A :=
  match l with
  | [] => []
  | x :: l' => if f x then dropWhile f l' else l
  end.

(** [s.trim()]: the white space at both ends goes. *)
Definition trim (s : string) : string :=
  unchars (rev (dropWhile isWhiteSpace (rev (dropWhile isWhiteSpace (chars s))))).

(** [a.slice(0, e)]: a negative [e] counts from the end. *)
Definition slice0 {A} (a : list A) (e : Z) : list A :=
  let len := Z.of_nat (length a) in
  let k := if (e <? 0)%Z then Z.max (len + e) 0 else Z.min e len in
  take (Z.to_nat k) a.

(** [a[i]] for a numeric index: [undefined] outside the array. *)
Definition at_index {A} (a : list A) (i : Z) : option A :=
  if (i <? 0)%Z then None else a !! Z.to_nat i.

End Js.

(** ** The generation API at its boundary *)

Record Blob := { data : Js.Nullable string; mimeType : Js.Nullable string }.
Record Part := { inlineData : option Blob; text : option string }.
Record Content := { parts : Js.Nullable (list Part) }.
Record Candidate := { content : option Content }.
Record GenerateContentResponse := { candidates : option (list Candidate) }.

Inductive Modality := IMAGE | TEXT.

(** The argument of [models.generateContent]. *)
Record Request := {
  model : string;
  contents : list Part;
  responseModalities : list Modality
}.

(** What a [throw] or a rejected promise carries: an [Error] object (a
    [TypeError] is one) or some other value. *)
Inductive Exn :=
  | JsError (message : string)
  | JsValue (shown : string).

Inductive Settled :=
  | Fulfilled (r : GenerateContentResponse)
  | RejectedWith (e : Exn).

(** A promise returned by the API client: how it settles, and when. *)
Record Promise := { outcome : Settled; settledAt : nat }.

Record GoogleGenAI := { apiKey : string }.

Record Env := {
  API_KEY : option string;
  (** the answer to the [n]-th request issued *)
  respond : nat -> Request -> Promise;
  (** the [n]-th reading of [Date.now()] *)
  clock : nat -> Z
}.

Record World := {
  ai : option GoogleGenAI;
  calls : list Request;
  ticks : nat
}.

Definition initialWorld : World := {| ai := None; calls := []; ticks := 0 |}.

Definition keepClient (inst : GoogleGenAI) (w : World) : World :=
  {| ai := Some inst; calls := calls w; ticks := ticks w |}.

Definition logCalls (reqs : list Request) (w : World) : World :=
  {| ai := ai w; calls := calls w ++ reqs; ticks := ticks w |}.

Definition tick (w : World) : World :=
  {| ai := ai w; calls := calls w; ticks := S (ticks w) |}.

(** ** The monad of service code: environment, world, exceptions *)

Inductive Completion (A : Type) :=
  | Normal (a : A)
  | Throw (e : Exn).
Arguments Normal {A} a.
Arguments Throw {A} e.

Definition M (A : Type) : Type := Env -> World -> Completion A * World.

Definition ret {A} (a : A) : M A := fun _ w => (Normal a, w).
Definition throw {A} (e : Exn) : M A := fun _ w => (Throw e, w).

Definition bind {A B} (c : M A) (k : A -> M B) : M B :=
  fun env w =>
    match c env w with
    | (Normal a, w') => k a env w'
    | (Throw e, w') => (Throw e, w')
    end.

Notation "'do' x <- c ; k" := (bind c (fun x => k))
  (at level 10, x name, c at level 100, k at level 200).

(** A step that touches neither the environment nor the world. *)
Definition lift {A} (c : Completion A) : M A := fun _ w => (c, w).

(** [try { c } catch (e) { h e }] *)
Definition tryCatch {A} (c : M A) (h : Exn -> M A) : M A :=
  fun env w =>
    match c env w with
    | (Normal a, w') => (Normal a, w')
    | (Throw e, w') => h e env w'
    end.

Definition dateNow : M Z :=
  fun env w =>
    (Normal (clock env (ticks w)), tick w).

(** [getAi]: the client is built on first use and kept. *)
Definition getAi : M GoogleGenAI :=
  fun env w =>
    match ai w with
    | Some inst => (Normal inst, w)
    | None =>
        match API_KEY env with
        | Some key =>
            if Js.truthy key then
              let inst := {| apiKey := key |} in
              (Normal inst, keepClient inst w)
            else (Throw (JsError "API_KEY environment variable is not set."), w)
        | None => (Throw (JsError "API_KEY environment variable is not set."), w)
        end
    end.

(** [aiInstance.models.generateContent(req)]: the request goes out and a
    promise comes back at once. *)
Definition generateContent (aiInstance : GoogleGenAI) (req : Request) : M Promise :=
  fun env w =>
    (Normal (respond env (length (calls w)) req), logCalls [req] w).

Definition await (p : Promise) : M GenerateContentResponse :=
  match outcome p with
  | Fulfilled r => ret r
  | RejectedWith e => throw e
  end.

(** The rejection that settles first among [ps], the earlier promise
    winning a tie. *)
Fixpoint firstRejection (ps : list Promise) : option (nat * Exn) :=
  match ps with
  | [] => None
  | p :: ps' =>
      match outcome p, firstRejection ps' with
      | Fulfilled _, rest => rest
      | RejectedWith e, None => Some (settledAt p, e)
      | RejectedWith e, Some (t, e') =>
          if (t <? settledAt p)%nat then Some (t, e') else Some (settledAt p, e)
      end
  end.

Definition fulfilledValue (p : Promise) : option GenerateContentResponse :=
  match outcome p with
  | Fulfilled r => Some r
  | RejectedWith _ => None
  end.

(** [await Promise.all(ps)]: the values in the order of [ps], or the
    first rejection. *)
Definition promiseAll (ps : list Promise) : M (list GenerateContentResponse) :=
  match firstRejection ps with
  | Some (_, e) => throw e
  | None => ret (omap fulfilledValue ps)
  end.

(** ** services/geminiService.ts *)

(** A [File] as the service reads it: its media type and the data URL
    that [FileReader.readAsDataURL] produces for it. *)
Record File := { type : string; readAsDataURL : string }.

Definition flashImage : string := "gemini-2.5-flash-image".

Definition request (ps : list Part) : Request :=
  {| model := flashImage; contents := ps; responseModalities := [IMAGE; TEXT] |}.

Definition textPart (t : string) : Part :=
  {| inlineData := None; text := Some t |}.

Definition fileToGenerativePart (file : File) : Part :=
  {| inlineData :=
       Some {| data := Js.element (Js.split "," (readAsDataURL file) !! 1%nat);
               mimeType := Js.Present (type file) |};
     text := None |}.

(** The [TypeError] of a method call on [undefined] or [null]. *)
Definition cannotRead (what method : string) : Exn :=
  JsError ("Cannot read properties of " +:+ what +:+ " (reading '" +:+ method +:+ "')").

(** [response.candidates?.[0]?.content?.parts.find(p => p.inlineData)]:
    the chain stops with [undefined] at a missing [candidates], first
    candidate or [content]; [parts] is read without [?.], and [find] is
    called on whatever it holds. *)
Definition findImagePart (response : GenerateContentResponse) : Completion (option Part) :=
  match candidates response with
  | None => Normal None
  | Some cs =>
      match cs !! 0%nat with
      | None => Normal None
      | Some c =>
          match content c with
          | None => Normal None
          | Some ct =>
              match parts ct with
              | Js.Undefined => Throw (cannotRead "undefined" "find")
              | Js.Null => Throw (cannotRead "null" "find")
              | Js.Present ps =>
                  Normal (List.find (fun p => Js.defined (inlineData p)) ps)
              end
          end
      end
  end.

Definition dataUrl (b : Blob) : string :=
  "data:" +:+ Js.render (mimeType b) +:+ ";base64," +:+ Js.render (data b).

(** The image of a response as a data URL, [None] when it has none:
    the test [imagePart?.inlineData] after the search for the image
    part. *)
Definition imageUrl (response : GenerateContentResponse) : Completion (option string) :=
  match findImagePart response with
  | Normal imagePart => Normal (imagePart ≫= fun p => dataUrl <$> inlineData p)
  | Throw e => Throw e
  end.

(** [xs.map(f)] where [f] may throw: the elements are visited in order
    and the first exception ends the visit. *)
Fixpoint mapThrowing {A B} (f : A -> Completion B) (xs : list A) : Completion (list B) :=
  match xs with
  | [] => Normal []
  | x :: xs' =>
      match f x with
      | Throw e => Throw e
      | Normal y =>
          match mapThrowing f xs' with
          | Throw e => Throw e
          | Normal ys => Normal (y :: ys)
          end
      end
  end.

Definition finalThemeOf (theme customTheme : string) : string :=
  if String.eqb theme "None" then customTheme else theme.

Definition referencePrompt : string :=
  "Generate 1 product photo that matches the style of the reference photo. The logo, text, shape, and product color must not be altered.".

Definition modelPrompt : string :=
  "Generate a professional photo of the provided model holding or wearing the product. Add supporting props to make the photo more appealing. It is absolutely crucial that the model's face remains consistent and unchanged from the source photo. Do not alter the facial features. Create a unique variation with a different body pose, facial expression, lighting, composition, or camera angle.".

Definition productPrompt : string :=
  "Generate a professional variation of the product in the image with different lighting, composition, and camera angles. Add supporting props to make the product photo more appealing.".

Definition themeClause (finalTheme : string) : string :=
  " The theme should be: " +:+ finalTheme +:+ ".".

Definition extraClause (additionalCommands : string) : string :=
  " Additional instructions: " +:+ additionalCommands +:+ ".".

(** The two conditional [prompt += ...] statements that follow every base
    prompt. *)
Definition withClauses (basePrompt finalTheme additionalCommands : string) : string :=
  let prompt := basePrompt in
  let prompt := if Js.truthy finalTheme then prompt +:+ themeClause finalTheme else prompt in
  let prompt := if Js.truthy additionalCommands then prompt +:+ extraClause additionalCommands else prompt in
  prompt.

Definition numberOfImages : nat := 4.

(** The [for] loop pushing one promise per request. *)
Fixpoint issueAll (aiInstance : GoogleGenAI) (n : nat) (req : Request) : M (list Promise) :=
  match n with
  | O => ret []
  | S n' =>
      do p <- generateContent aiInstance req;
      do ps <- issueAll aiInstance n' req;
      ret (p :: ps)
  end.

Definition generatePhotos (productPhoto : File) (modelPhoto referencePhoto : option File)
    (theme customTheme additionalCommands : string) : M (list string) :=
  do aiInstance <- getAi;
  let finalTheme := finalThemeOf theme customTheme in
  let productPart := fileToGenerativePart productPhoto in
  match referencePhoto with
  | Some referencePhoto =>
      let prompt := withClauses referencePrompt finalTheme additionalCommands in
      let referencePart := fileToGenerativePart referencePhoto in
      do p <- generateContent aiInstance (request [productPart; referencePart; textPart prompt]);
      do response <- await p;
      do url <- lift (imageUrl response);
      match url with
      | Some url => ret [url]
      | None => ret []
      end
  | None =>
      let '(basePrompt, parts) :=
        match modelPhoto with
        | Some modelPhoto => (modelPrompt, [productPart; fileToGenerativePart modelPhoto])
        | None => (productPrompt, [productPart])
        end in
      let fullPrompt := withClauses basePrompt finalTheme additionalCommands in
      do generationPromises <- issueAll aiInstance numberOfImages (request (parts ++ [textPart fullPrompt]));
      do responses <- promiseAll generationPromises;
      do urls <- lift (mapThrowing imageUrl responses);
      ret (omap Datatypes.id urls)
  end.

Definition undefinedReadMessage : string :=
  "Cannot read properties of undefined (reading 'substring')".

(** [refineImage]; the argument is [None] when the caller read outside
    the version array, and the first method call on it then throws. *)
Definition refineImage (base64ImageData : option string) (command : string) : M string :=
  do aiInstance <- getAi;
  match base64ImageData with
  | None => throw (JsError undefinedReadMessage)
  | Some base64ImageData =>
      let mimeType :=
        Js.substring base64ImageData
          (Js.indexOf ":" base64ImageData + 1) (Js.indexOf ";" base64ImageData) in
      let data := Js.element (Js.split "," base64ImageData !! 1%nat) in
      let imagePart :=
        {| inlineData := Some {| data := data; mimeType := Js.Present mimeType |};
           text := None |} in
      do p <- generateContent aiInstance (request [imagePart; textPart command]);
      do response <- await p;
      do url <- lift (imageUrl response);
      match url with
      | Some url => ret url
      | None => throw (JsError "Failed to refine image.")
      end
  end.

(** ** types.ts *)

Record ImageFile := { file : File; previewUrl : string }.

Record ResultState := {
  id : string;
  imageHistory : list string;
  currentIndex : Z;
  refinementPrompt : string
}.

Record HistoryItem := { itemId : string; itemResults : list ResultState }.

(** ** App.tsx: the state of the [App] component and its handlers *)

Record App := {
  productPhoto : option ImageFile;
  modelPhoto : option ImageFile;
  referencePhoto : option ImageFile;
  activeTheme : string;
  customTheme : string;
  additionalCommands : string;
  isLoading : bool;
  results : list ResultState;
  history : list HistoryItem;
  error : option string
}.

Definition initialApp : App :=
  {| productPhoto := None; modelPhoto := None; referencePhoto := None;
     activeTheme := "Studio"; customTheme := ""; additionalCommands := "";
     isLoading := false; results := []; history := []; error := None |}.

Definition setProductPhoto (v : option ImageFile) (st : App) : App :=
  {| productPhoto := v; modelPhoto := modelPhoto st; referencePhoto := referencePhoto st;
     activeTheme := activeTheme st; customTheme := customTheme st;
     additionalCommands := additionalCommands st; isLoading := isLoading st;
     results := results st; history := history st; error := error st |}.

Definition setModelPhoto (v : option ImageFile) (st : App) : App :=
  {| productPhoto := productPhoto st; modelPhoto := v; referencePhoto := referencePhoto st;
     activeTheme := activeTheme st; customTheme := customTheme st;
     additionalCommands := additionalCommands st; isLoading := isLoading st;
     results := results st; history := history st; error := error st |}.

Definition setReferencePhoto (v : option ImageFile) (st : App) : App :=
  {| productPhoto := productPhoto st; modelPhoto := modelPhoto st; referencePhoto := v;
     activeTheme := activeTheme st; customTheme := customTheme st;
     additionalCommands := additionalCommands st; isLoading := isLoading st;
     results := results st; history := history st; error := error st |}.

Definition setActiveTheme (v : string) (st : App) : App :=
  {| productPhoto := productPhoto st; modelPhoto := modelPhoto st;
     referencePhoto := referencePhoto st;
     activeTheme := v; customTheme := customTheme st;
     additionalCommands := additionalCommands st; isLoading := isLoading st;
     results := results st; history := history st; error := error st |}.

Definition setCustomTheme (v : string) (st : App) : App :=
  {| productPhoto := productPhoto st; modelPhoto := modelPhoto st;
     referencePhoto := referencePhoto st;
     activeTheme := activeTheme st; customTheme := v;
     additionalCommands := additionalCommands st; isLoading := isLoading st;
     results := results st; history := history st; error := error st |}.

Definition setAdditionalCommands (v : string) (st : App) : App :=
  {| productPhoto := productPhoto st; modelPhoto := modelPhoto st;
     referencePhoto := referencePhoto st;
     activeTheme := activeTheme st; customTheme := customTheme st;
     additionalCommands := v; isLoading := isLoading st;
     results := results st; history := history st; error := error st |}.

Definition setIsLoading (v : bool) (st : App) : App :=
  {| productPhoto := productPhoto st; modelPhoto := modelPhoto st;
     referencePhoto := referencePhoto st;
     activeTheme := activeTheme st; customTheme := customTheme st;
     additionalCommands := additionalCommands st; isLoading := v;
     results := results st; history := history st; error := error st |}.

(** [setResults(prev => f prev)]; [setResults(v)] is [setResults (fun _ => v)]. *)
Definition setResults (f : list ResultState -> list ResultState) (st : App) : App :=
  {| productPhoto := productPhoto st; modelPhoto := modelPhoto st;
     referencePhoto := referencePhoto st;
     activeTheme := activeTheme st; customTheme := customTheme st;
     additionalCommands := additionalCommands st; isLoading := isLoading st;
     results := f (results st); history := history st; error := error st |}.

Definition setHistory (f : list HistoryItem -> list HistoryItem) (st : App) : App :=
  {| productPhoto := productPhoto st; modelPhoto := modelPhoto st;
     referencePhoto := referencePhoto st;
     activeTheme := activeTheme st; customTheme := customTheme st;
     additionalCommands := additionalCommands st; isLoading := isLoading st;
     results := results st; history := f (history st); error := error st |}.

Definition setError (v : option string) (st : App) : App :=
  {| productPhoto := productPhoto st; modelPhoto := modelPhoto st;
     referencePhoto := referencePhoto st;
     activeTheme := activeTheme st; customTheme := customTheme st;
     additionalCommands := additionalCommands st; isLoading := isLoading st;
     results := results st; history := history st; error := v |}.

Definition handleModelPhotoChange (f : option ImageFile) (st : App) : App :=
  let st := setModelPhoto f st in
  if Js.defined f then setReferencePhoto None st else st.

Definition handleReferencePhotoChange (f : option ImageFile) (st : App) : App :=
  let st := setReferencePhoto f st in
  if Js.defined f then setModelPhoto None st else st.

Definition handleThemeClick (theme : string) (st : App) : App :=
  setCustomTheme "" (setActiveTheme theme st).

(** The [onChange] of the custom theme input. *)
Definition handleCustomThemeChange (v : string) (st : App) : App :=
  setActiveTheme "None" (setCustomTheme v st).

(** One element of [generatedImages.map((url, index) => ...)]. *)
Definition newResult (now : Z) (index : nat) (url : string) : ResultState :=
  {| id := "result-" +:+ pretty now +:+ "-" +:+ pretty index;
     imageHistory := [url];
     currentIndex := 0;
     refinementPrompt := "" |}.

Fixpoint newResultsFrom (index : nat) (generatedImages : list string) : M (list ResultState) :=
  match generatedImages with
  | [] => ret []
  | url :: rest =>
      do now <- dateNow;
      do tl <- newResultsFrom (S index) rest;
      ret (newResult now index url :: tl)
  end.

Definition newHistoryItem (now : Z) (newResults : list ResultState) : HistoryItem :=
  {| itemId := "history-" +:+ pretty now; itemResults := newResults |}.

(** [e instanceof Error ? e.message : 'An unknown error occurred.'] *)
Definition errorMessage (e : Exn) : string :=
  match e with
  | JsError message => message
  | JsValue _ => "An unknown error occurred."
  end.

Definition handleGenerateClick (st : App) : M App :=
  match productPhoto st with
  | None => ret (setError (Some "Product photo is required.") st)
  | Some product =>
      let st := setResults (fun _ => []) (setError None (setIsLoading true st)) in
      do st <- tryCatch
        (do generatedImages <-
           generatePhotos (file product) (file <$> modelPhoto st) (file <$> referencePhoto st)
             (activeTheme st) (customTheme st) (additionalCommands st);
         do newResults <- newResultsFrom 0 generatedImages;
         let st := setResults (fun _ => newResults) st in
         if (0 <? length newResults)%nat then
           do now <- dateNow;
           ret (setHistory (fun prev => newHistoryItem now newResults :: prev) st)
         else ret st)
        (fun e => ret (setError (Some (errorMessage e)) st));
      ret (setIsLoading false st)
  end.

(** The callback of [prevResults.map] in [handleRefinement], on the entry
    it selects. *)
Definition refineEntry (newImageUrl : string) (res : ResultState) : ResultState :=
  let newHistory := Js.slice0 (imageHistory res) (currentIndex res + 1) in
  let newHistory := newHistory ++ [newImageUrl] in
  {| id := id res;
     imageHistory := newHistory;
     currentIndex := Z.of_nat (length newHistory) - 1;
     refinementPrompt := "" |}.

Definition refineResults (resultIndex : nat) (newImageUrl : string)
    (prevResults : list ResultState) : list ResultState :=
  imap (fun index res =>
          if bool_decide (index ≠ resultIndex) then res
          else refineEntry newImageUrl res) prevResults.

Definition handleRefinement (resultId command : string) (st : App) : M App :=
  match list_find (fun r => id r = resultId) (results st) with
  | None => ret st
  | Some (resultIndex, currentResult) =>
      if negb (Js.truthy (Js.trim command)) then ret st
      else
        let currentImageUrl :=
          Js.at_index (imageHistory currentResult) (currentIndex currentResult) in
        let st := setIsLoading true st in
        do st <- tryCatch
          (do newImageUrl <- refineImage currentImageUrl command;
           ret (setResults (refineResults resultIndex newImageUrl) st))
          (fun e => ret (setError (Some "Failed to refine the image.") st));
        ret (setIsLoading false st)
  end.

Definition undoEntry (res : ResultState) : ResultState :=
  {| id := id res; imageHistory := imageHistory res;
     currentIndex := Z.max 0 (currentIndex res - 1);
     refinementPrompt := refinementPrompt res |}.

Definition redoEntry (res : ResultState) : ResultState :=
  {| id := id res; imageHistory := imageHistory res;
     currentIndex := Z.min (Z.of_nat (length (imageHistory res)) - 1) (currentIndex res + 1);
     refinementPrompt := refinementPrompt res |}.

Definition promptEntry (prompt : string) (res : ResultState) : ResultState :=
  {| id := id res; imageHistory := imageHistory res;
     currentIndex := currentIndex res;
     refinementPrompt := prompt |}.

(** [prev.map(res => res.id === resultId ? f res : res)] *)
Definition onEntry (resultId : string) (f : ResultState -> ResultState)
    (prev : list ResultState) : list ResultState :=
  (fun res => if String.eqb (id res) resultId then f res else res) <$> prev.

Definition handleUndo (resultId : string) : App -> App :=
  setResults (onEntry resultId undoEntry).

Definition handleRedo (resultId : string) : App -> App :=
  setResults (onEntry resultId redoEntry).

Definition handleRefinementPromptChange (resultId prompt : string) : App -> App :=
  setResults (onEntry resultId (promptEntry prompt)).

(** The [onClick] of a card of the history column. *)
Definition handleHistoryClick (item : HistoryItem) : App -> App :=
  setResults (fun _ => itemResults item).

(** ** One user action at a time *)

Inductive Action :=
  | SelectProductPhoto (f : option ImageFile)
  | SelectModelPhoto (f : option ImageFile)
  | SelectReferencePhoto (f : option ImageFile)
  | ClickTheme (theme : string)
  | TypeCustomTheme (v : string)
  | TypeAdditionalCommands (v : string)
  | ClickGenerate
  | ClickRefine (resultId command : string)
  | ClickUndo (resultId : string)
  | ClickRedo (resultId : string)
  | TypeRefinementPrompt (resultId prompt : string)
  | ClickHistory (n : nat).

(** The handler of an action, run to completion. A history card that is
    not on screen cannot be clicked. *)
Definition handle (a : Action) (st : App) : M App :=
  match a with
  | SelectProductPhoto f => ret (setProductPhoto f st)
  | SelectModelPhoto f => ret (handleModelPhotoChange f st)
  | SelectReferencePhoto f => ret (handleReferencePhotoChange f st)
  | ClickTheme theme => ret (handleThemeClick theme st)
  | TypeCustomTheme v => ret (handleCustomThemeChange v st)
  | TypeAdditionalCommands v => ret (setAdditionalCommands v st)
  | ClickGenerate => handleGenerateClick st
  | ClickRefine resultId command => handleRefinement resultId command st
  | ClickUndo resultId => ret (handleUndo resultId st)
  | ClickRedo resultId => ret (handleRedo resultId st)
  | TypeRefinementPrompt resultId prompt =>
      ret (handleRefinementPromptChange resultId prompt st)
  | ClickHistory n =>
      match history st !! n with
      | Some item => ret (handleHistoryClick item st)
      | None => ret st
      end
  end.

(** A handler never lets an exception escape: the state it leaves. *)
Definition after {A} (fallback : A) (r : Completion A * World) : A * World :=
  match r with
  | (Normal a, w) => (a, w)
  | (Throw _, w) => (fallback, w)
  end.

Definition step (env : Env) (a : Action) (sw : App * World) : App * World :=
  after sw.1 (handle a sw.1 env sw.2).

Definition session (env : Env) (acts : list Action) : App * World :=
  foldl (fun sw a => step env a sw) (initialApp, initialWorld) acts.

(** ** The same handlers over object references

    React keeps references: the array handed to [setResults] after a
    generation is the very array stored in the new history item, and
    [{...res}] copies the reference to [imageHistory], not the array.
    This module replays the handlers' effect on [results] and [history]
    over a store of arrays and objects, allocation by allocation, so that
    what a stored history item shows can be followed across later
    operations. *)

Module Heap.

Abbreviation loc := nat.

Inductive Cell :=
  | StringArray (a : list string)
  | ResultObject (rid : string) (rhistory : loc) (rindex : Z) (rprompt : string)
  | ResultArray (a : list loc)
  | HistoryObject (hid : string) (hresults : loc)
  | HistoryArray (a : list loc).

Abbreviation Store := (list Cell).

(** The two pieces of React state that hold references. *)
Record Refs := { resultsRef : loc; historyRef : loc }.

(** [useState([])] twice. *)
Definition initialStore : Store := [ResultArray []; HistoryArray []].
Definition initialRefs : Refs := {| resultsRef := 0; historyRef := 1 |}.

(** Store passing; [None] is a read through a reference of the wrong
    kind, which well-formed states never do. *)
Definition H (A : Type) : Type := Store -> option (A * Store).

Definition hret {A} (a : A) : H A := fun s => Some (a, s).

Definition hbind {A B} (c : H A) (k : A -> H B) : H B :=
  fun s =>
    match c s with
    | Some (a, s') => k a s'
    | None => None
    end.

Notation "'get' x <- c ; k" := (hbind c (fun x => k))
  (at level 10, x name, c at level 100, k at level 200).
Notation "'get' ' x <- c ; k" := (hbind c (fun x : _ => k))
  (at level 10, x strict pattern, c at level 100, k at level 200).

Definition alloc (c : Cell) : H loc := fun s => Some (length s, s ++ [c]).

Definition loadStrings (l : loc) : H (list string) :=
  fun s => match s !! l with Some (StringArray a) => Some (a, s) | _ => None end.

Definition loadResult (l : loc) : H (string * loc * Z * string) :=
  fun s =>
    match s !! l with
    | Some (ResultObject i h c p) => Some ((i, h, c, p), s)
    | _ => None
    end.

Definition loadResults (l : loc) : H (list loc) :=
  fun s => match s !! l with Some (ResultArray a) => Some (a, s) | _ => None end.

Definition loadItem (l : loc) : H (string * loc) :=
  fun s => match s !! l with Some (HistoryObject i r) => Some ((i, r), s) | _ => None end.

Definition loadItems (l : loc) : H (list loc) :=
  fun s => match s !! l with Some (HistoryArray a) => Some (a, s) | _ => None end.

(** [a.push(x)]: the one update in place. *)
Definition push (l : loc) (x : string) : H Z :=
  fun s =>
    match s !! l with
    | Some (StringArray a) =>
        Some (Z.of_nat (length (a ++ [x])), <[l := StringArray (a ++ [x])]> s)
    | _ => None
    end.

(** [a.map((x, index) => f index x)] with the store threaded through. *)
Fixpoint mapFrom {A B} (f : nat -> A -> H B) (index : nat) (a : list A) : H (list B) :=
  match a with
  | [] => hret []
  | x :: rest =>
      get y <- f index x;
      get ys <- mapFrom f (S index) rest;
      hret (y :: ys)
  end.

(** [prev.map(res => res.id === resultId ? {...res, ...} : res)] and
    [setResults] of the new array. *)
Definition updateEntries (f : nat -> loc -> H loc) (r : Refs) : H Refs :=
  get prev <- loadResults (resultsRef r);
  get a <- mapFrom f 0 prev;
  get new <- alloc (ResultArray a);
  hret {| resultsRef := new; historyRef := historyRef r |}.

Definition undoRef (resultId : string) (res : loc) : H loc :=
  get '(i, h, c, p) <- loadResult res;
  if String.eqb i resultId then alloc (ResultObject i h (Z.max 0 (c - 1)) p)
  else hret res.

Definition redoRef (resultId : string) (res : loc) : H loc :=
  get '(i, h, c, p) <- loadResult res;
  if String.eqb i resultId then
    get a <- loadStrings h;
    alloc (ResultObject i h (Z.min (Z.of_nat (length a) - 1) (c + 1)) p)
  else hret res.

Definition promptRef (resultId prompt : string) (res : loc) : H loc :=
  get '(i, h, c, p) <- loadResult res;
  if String.eqb i resultId then alloc (ResultObject i h c prompt)
  else hret res.

Definition refineRef (resultIndex : nat) (newImageUrl : string)
    (index : nat) (res : loc) : H loc :=
  if bool_decide (index ≠ resultIndex) then hret res
  else
    get '(i, h, c, p) <- loadResult res;
    get a <- loadStrings h;
    get newHistory <- alloc (StringArray (Js.slice0 a (c + 1)));
    get len <- push newHistory newImageUrl;
    alloc (ResultObject i newHistory (len - 1) "").

Definition handleUndo (resultId : string) : Refs -> H Refs :=
  updateEntries (fun _ => undoRef resultId).

Definition handleRedo (resultId : string) : Refs -> H Refs :=
  updateEntries (fun _ => redoRef resultId).

Definition handleRefinementPromptChange (resultId prompt : string) : Refs -> H Refs :=
  updateEntries (fun _ => promptRef resultId prompt).

(** The [setResults] of a successful [handleRefinement]. *)
Definition refined (resultIndex : nat) (newImageUrl : string) : Refs -> H Refs :=
  updateEntries (refineRef resultIndex newImageUrl).

(** An object literal of [generatedImages.map]: its array, then itself. *)
Definition allocResult (e : ResultState) : H loc :=
  get h <- alloc (StringArray (imageHistory e));
  alloc (ResultObject (id e) h (currentIndex e) (refinementPrompt e)).

(** [setResults([])] at the start of [handleGenerateClick]. *)
Definition cleared (r : Refs) : H Refs :=
  get empty <- alloc (ResultArray []);
  hret {| resultsRef := empty; historyRef := historyRef r |}.

(** The state updates of a generation that returned: one array
    [newResults], given to [setResults] and to the new history item. *)
Definition generated (entries : list ResultState) (historyId : string) (r : Refs) : H Refs :=
  get r <- cleared r;
  get objs <- mapFrom (fun _ => allocResult) 0 entries;
  get newResults <- alloc (ResultArray objs);
  if (0 <? length objs)%nat then
    get item <- alloc (HistoryObject historyId newResults);
    get prev <- loadItems (historyRef r);
    get h <- alloc (HistoryArray (item :: prev));
    hret {| resultsRef := newResults; historyRef := h |}
  else hret {| resultsRef := newResults; historyRef := historyRef r |}.

(** [setResults(item.results)] for the [n]-th card. *)
Definition selected (n : nat) (r : Refs) : H Refs :=
  get items <- loadItems (historyRef r);
  match items !! n with
  | Some item =>
      get '(_, rs) <- loadItem item;
      hret {| resultsRef := rs; historyRef := historyRef r |}
  | None => hret r
  end.

Inductive Op :=
  | Undo (resultId : string)
  | Redo (resultId : string)
  | Prompt (resultId prompt : string)
  | Refined (resultIndex : nat) (newImageUrl : string)
  | Generated (entries : list ResultState) (historyId : string)
  | GenerationFailed
  | Selected (n : nat).

Definition exec (o : Op) : Refs -> H Refs :=
  match o with
  | Undo resultId => handleUndo resultId
  | Redo resultId => handleRedo resultId
  | Prompt resultId prompt => handleRefinementPromptChange resultId prompt
  | Refined resultIndex newImageUrl => refined resultIndex newImageUrl
  | Generated entries historyId => generated entries historyId
  | GenerationFailed => cleared
  | Selected n => selected n
  end.

Fixpoint execAll (os : list Op) (r : Refs) : H Refs :=
  match os with
  | [] => hret r
  | o :: rest => get r' <- exec o r; execAll rest r'
  end.

(** *** Reading a store back as values *)

Definition viewEntry (s : Store) (l : loc) : option ResultState :=
  match s !! l with
  | Some (ResultObject i h c p) =>
      match s !! h with
      | Some (StringArray a) =>
          Some {| id := i; imageHistory := a; currentIndex := c; refinementPrompt := p |}
      | _ => None
      end
  | _ => None
  end.

Definition viewResults (s : Store) (l : loc) : option (list ResultState) :=
  match s !! l with
  | Some (ResultArray a) => mapM (viewEntry s) a
  | _ => None
  end.

Definition viewItem (s : Store) (l : loc) : option HistoryItem :=
  match s !! l with
  | Some (HistoryObject i r) =>
      rs ← viewResults s r; Some {| itemId := i; itemResults := rs |}
  | _ => None
  end.

Definition viewHistory (s : Store) (l : loc) : option (list HistoryItem) :=
  match s !! l with
  | Some (HistoryArray a) => mapM (viewItem s) a
  | _ => None
  end.

(** What the screen shows of a state: current results and history. *)
Definition view (s : Store) (r : Refs) : option (list ResultState * list HistoryItem) :=
  rs ← viewResults s (resultsRef r);
  hs ← viewHistory s (historyRef r);
  Some (rs, hs).

End Heap.

(** ** Vocabulary of the statements *)

(** The client [getAi] hands out in a world: the one it holds, or one
    built from a non-empty [API_KEY]. *)
Definition clientOf (env : Env) (w : World) : option GoogleGenAI :=
  match ai w with
  | Some inst => Some inst
  | None =>
      match API_KEY env with
      | Some key => if Js.truthy key then Some {| apiKey := key |} else None
      | None => None
      end
  end.

(** The promises the API returns for [n] copies of [req] issued in a row
    from world [w]. *)
Definition promisesOf (env : Env) (w : World) (n : nat) (req : Request) : list Promise :=
  (fun i => respond env (length (calls w) + i) req) <$> seq 0 n.

(** The instruction text of a submission, as the specification words it:
    the base instruction of the mode followed by the optional clauses. *)
Definition instructionText (modelPhoto referencePhoto : option File)
    (theme customTheme additionalCommands : string) : string :=
  withClauses
    (match referencePhoto, modelPhoto with
     | Some _, _ => referencePrompt
     | None, Some _ => modelPrompt
     | None, None => productPrompt
     end)
    (finalThemeOf theme customTheme) additionalCommands.

(** The request of a submission and how many times it goes out. *)
Definition requestOf (productPhoto : File) (modelPhoto referencePhoto : option File)
    (theme customTheme additionalCommands : string) : Request :=
  let t := textPart (instructionText modelPhoto referencePhoto theme customTheme additionalCommands) in
  request
    (match referencePhoto, modelPhoto with
     | Some r, _ => [fileToGenerativePart productPhoto; fileToGenerativePart r; t]
     | None, Some m => [fileToGenerativePart productPhoto; fileToGenerativePart m; t]
     | None, None => [fileToGenerativePart productPhoto; t]
     end).

Definition callCount (referencePhoto : option File) : nat :=
  if Js.defined referencePhoto then 1 else numberOfImages.

(** What the first candidate of an answer holds as its parts, where the
    answer has a first candidate with a content. *)
Definition answerParts (response : GenerateContentResponse) : option (Js.Nullable (list Part)) :=
  cs ← candidates response;
  c ← cs !! 0%nat;
  ct ← content c;
  Some (parts ct).

(** An answer whose content came without its parts. *)
Definition partless (response : GenerateContentResponse) : bool :=
  match answerParts response with
  | Some Js.Undefined | Some Js.Null => true
  | _ => false
  end.

(** The image an answer carries: the first inline payload among the
    parts of its first candidate. *)
Definition payloadOf (response : GenerateContentResponse) : option Blob :=
  match answerParts response with
  | Some (Js.Present ps) => head (omap inlineData ps)
  | _ => None
  end.

(** The image of an answer as the result lists it. *)
Definition imageOf (response : GenerateContentResponse) : option string :=
  dataUrl <$> payloadOf response.

(** [responses.map(...).filter(url => url !== null)] *)
Definition collect (responses : list GenerateContentResponse) : Completion (list string) :=
  match mapThrowing imageUrl responses with
  | Normal urls => Normal (omap Datatypes.id urls)
  | Throw e => Throw e
  end.

(** The calls, by position, whose response carries an image. *)
Definition imageCalls (responses : list GenerateContentResponse) : list nat :=
  filter (fun i => is_Some (responses !! i ≫= payloadOf)) (seq 0 (length responses)).

(** An image part as it goes out: a payload with its media type. *)
Definition inlineImage (mime payload : string) : Part :=
  {| inlineData := Some {| data := Js.Present payload; mimeType := Js.Present mime |};
     text := None |}.

(** Bounds of a version pointer, and of every pointer on screen or in
    the history. *)
Definition entryOk (res : ResultState) : Prop :=
  (0 <= currentIndex res <= Z.of_nat (length (imageHistory res)) - 1)%Z.

Definition appOk (st : App) : Prop :=
  Forall entryOk (results st) /\
  Forall (fun item => Forall entryOk (itemResults item)) (history st).

(** The image part [refineImage] builds from a data URL. *)
Definition parsedImagePart (url : string) : Part :=
  {| inlineData :=
       Some {| data := Js.element (Js.split "," url !! 1%nat);
               mimeType :=
                 Js.Present (Js.substring url (Js.indexOf ":" url + 1) (Js.indexOf ";" url)) |};
     text := None |}.

(** [n] readings of the clock. *)
Definition advance (n : nat) (w : World) : World :=
  {| ai := ai w; calls := calls w; ticks := ticks w + n |}.

(** The entries [handleGenerateClick] creates for [urls] from world [w]. *)
Definition entriesAt (env : Env) (w : World) (urls : list string) : list ResultState :=
  imap (fun k url => newResult (clock env (ticks w + k)) k url) urls.

(** The inputs of [generatePhotos] as [handleGenerateClick] reads them
    from the state. *)
Definition submission (product : ImageFile) (st : App) : M (list string) :=
  generatePhotos (file product) (file <$> modelPhoto st) (file <$> referencePhoto st)
    (activeTheme st) (customTheme st) (additionalCommands st).

(** A refinement that failed: nothing of the results or the history has
    changed and the failure is reported. *)
Definition refinementFailed (st : App) (r : Completion App) : Prop :=
  exists st', r = Normal st' /\ results st' = results st /\ history st' = history st /\
              error st' = Some "Failed to refine the image.".

(** Walking a version stack. *)
Inductive Move := Back | Forward.

Definition move (m : Move) : ResultState -> ResultState :=
  match m with
  | Back => undoEntry
  | Forward => redoEntry
  end.

Definition walk (ms : list Move) (res : ResultState) : ResultState :=
  foldl (fun e m => move m e) res ms.

(** "Every generation that returns records a batch", as the
    specification words it: the batch list gains at its front an item
    holding the entries made for the returned images. *)
Definition recordsBatch (env : Env) (st : App) (w : World) : Prop :=
  forall product urls w1,
    productPhoto st = Some product ->
    submission product st env w = (Normal urls, w1) ->
    exists item,
      history (step env ClickGenerate (st, w)).1 = item :: history st /\
      itemResults item = results (step env ClickGenerate (st, w)).1 /\
      imageHistory <$> itemResults item = (fun url => [url]) <$> urls.

(** What the screen shows: the current results and the history. *)
Definition Screen : Type := list ResultState * list HistoryItem.

Definition screen (st : App) : Screen := (results st, history st).

(** The effect of a store operation on what the screen shows, written
    with the updaters of the handlers. *)
Definition replay (o : Heap.Op) (v : Screen) : Screen :=
  match o with
  | Heap.Undo resultId => (onEntry resultId undoEntry v.1, v.2)
  | Heap.Redo resultId => (onEntry resultId redoEntry v.1, v.2)
  | Heap.Prompt resultId prompt => (onEntry resultId (promptEntry prompt) v.1, v.2)
  | Heap.Refined resultIndex newImageUrl => (refineResults resultIndex newImageUrl v.1, v.2)
  | Heap.Generated entries historyId =>
      (entries,
       if (0 <? length entries)%nat
       then {| itemId := historyId; itemResults := entries |} :: v.2
       else v.2)
  | Heap.GenerationFailed => ([], v.2)
  | Heap.Selected n =>
      (match v.2 !! n with Some item => itemResults item | None => v.1 end, v.2)
  end.

Definition replayAll (os : list Heap.Op) (v : Screen) : Screen :=
  foldl (fun v o => replay o v) v os.

(** The store operations a user action amounts to. *)
Definition opsOf (env : Env) (a : Action) (st : App) (w : World) : list Heap.Op :=
  match a with
  | ClickGenerate =>
      match productPhoto st with
      | None => []
      | Some product =>
          match submission product st env w with
          | (Normal urls, w1) =>
              [Heap.Generated (entriesAt env w1 urls)
                 ("history-" +:+ pretty (clock env (ticks w1 + length urls)))]
          | (Throw _, _) => [Heap.GenerationFailed]
          end
      end
  | ClickRefine resultId command =>
      match list_find (fun r => id r = resultId) (results st) with
      | Some (resultIndex, currentResult) =>
          if Js.truthy (Js.trim command) then
            match (refineImage
                     (Js.at_index (imageHistory currentResult) (currentIndex currentResult))
                     command env w).1 with
            | Normal newImageUrl => [Heap.Refined resultIndex newImageUrl]
            | Throw _ => []
            end
          else []
      | None => []
      end
  | ClickUndo resultId => [Heap.Undo resultId]
  | ClickRedo resultId => [Heap.Redo resultId]
  | TypeRefinementPrompt resultId prompt => [Heap.Prompt resultId prompt]
  | ClickHistory n => [Heap.Selected n]
  | _ => []
  end.

(** The store operations of a run of actions from a state, action after
    action, and those of a whole session. *)
Fixpoint opsFrom (env : Env) (acts : list Action) (sw : App * World) : list Heap.Op :=
  match acts with
  | [] => []
  | a :: acts' => opsOf env a sw.1 sw.2 ++ opsFrom env acts' (step env a sw)
  end.

Definition sessionOps (env : Env) (acts : list Action) : list Heap.Op :=
  opsFrom env acts (initialApp, initialWorld).

(** The operations that edit the current results. *)
Definition editsResults (o : Heap.Op) : bool :=
  match o with
  | Heap.Undo _ | Heap.Redo _ | Heap.Prompt _ _ | Heap.Refined _ _ => true
  | _ => false
  end.

(** A per-entry store action [f] computes the per-entry update [g]: on a
    reference that reads back as [e] it succeeds, leaves the cells in
    place and returns a reference that reads back as [g i e]. *)
Definition tracks (f : nat -> Heap.loc -> Heap.H Heap.loc)
    (g : nat -> ResultState -> ResultState) : Prop :=
  forall i l s e,
    Heap.viewEntry s l = Some e ->
    exists l' s',
      f i l s = Some (l', s') /\ s `prefix_of` s' /\ Heap.viewEntry s' l' = Some (g i e).

(** [c] does not occur in [s]. *)
Fixpoint lacks (c : ascii) (s : string) : bool :=
  match s with
  | EmptyString => true
  | String a s' => negb (Ascii.eqb a c) && lacks c s'
  end.

(** A payload that survives the trip through a data URL: a media type
    without [:], [;] or [,] and content without [,], as base64 is. *)
Definition plainBlob (b : Blob) : Prop :=
  exists m d,
    b = {| data := Js.Present d; mimeType := Js.Present m |} /\
    lacks ":" m = true /\ lacks ";" m = true /\ lacks "," m = true /\ lacks "," d = true.

(** A file whose data URL is a header without comma, a comma and the
    base64 payload, as [FileReader.readAsDataURL] produces it. *)
Definition reads (f : File) (payload : string) : Prop :=
  exists header,
    readAsDataURL f = header +:+ "," +:+ payload /\
    lacks "," header = true /\ lacks "," payload = true.

(** At most one of the two optional photos is set. *)
Definition exclusive (st : App) : Prop :=
  modelPhoto st = None \/ referencePhoto st = None.


(** The white space of an instruction, by the bytes of each character:
    tab, line feed, vertical tab, form feed, carriage return and space;
    the no-break space; the Ogham space mark, the spaces U+2000 to
    U+200A, the line and paragraph separators, the narrow no-break
    space, the medium mathematical space, the ideographic space and the
    byte order mark. *)
Definition space1 : list ascii :=
  ["009"; "010"; "011"; "012"; "013"; "032"]%char.

Definition space2 : list (ascii * ascii) :=
  [("194", "160")]%char.

Definition space3 : list (ascii * ascii * ascii) :=
  [("225", "154", "128");
   ("226", "128", "128"); ("226", "128", "129"); ("226", "128", "130");
   ("226", "128", "131"); ("226", "128", "132"); ("226", "128", "133");
   ("226", "128", "134"); ("226", "128", "135"); ("226", "128", "136");
   ("226", "128", "137"); ("226", "128", "138");
   ("226", "128", "168"); ("226", "128", "169"); ("226", "128", "175");
   ("226", "129", "159");
   ("227", "128", "128");
   ("239", "187", "191")]%char.

(** Only white space, or nothing at all. *)
Fixpoint blank (s : string) : bool :=
  match s with
  | EmptyString => true
  | String a r =>
      if bool_decide (a ∈ space1) then blank r
      else
        match r with
        | EmptyString => false
        | String b r' =>
            if bool_decide ((a, b) ∈ space2) then blank r'
            else
              match r' with
              | EmptyString => false
              | String c r'' => bool_decide ((a, b, c) ∈ space3) && blank r''
              end
        end
  end.

(** [res.imageHistory[res.currentIndex]], the image a card displays. *)
Definition shown (res : ResultState) : option string :=
  Js.at_index (imageHistory res) (currentIndex res).

(** An entry as a generation creates it. *)
Definition pristine (res : ResultState) : Prop :=
  currentIndex res = 0%Z /\ refinementPrompt res = "" /\ length (imageHistory res) = 1.

(** The cards of a list can be told apart by their [id]. *)
Definition distinctIds (rs : list ResultState) : Prop := NoDup (id <$> rs).

Definition idsUnique (st : App) : Prop :=
  distinctIds (results st) /\
  Forall (fun item => distinctIds (itemResults item)) (history st).

(** The history holds batches of one to four untouched entries. *)
Definition historyOk (st : App) : Prop :=
  Forall (fun item =>
            Forall pristine (itemResults item) /\
            1 <= length (itemResults item) <= numberOfImages)
    (history st).

(** The shape of a request: the image model, both response modalities,
    one or two inline images and then one text. *)
Definition imageOnly (p : Part) : Prop :=
  exists b m,
    p = {| inlineData := Some b; text := None |} /\
    mimeType b = Js.Present m /\ data b <> Js.Null.

Definition requestOk (req : Request) : Prop :=
  model req = "gemini-2.5-flash-image" /\
  responseModalities req = [IMAGE; TEXT] /\
  exists images t,
    contents req = images ++ [{| inlineData := None; text := Some t |}] /\
    1 <= length images <= 2 /\
    Forall imageOnly images.

(** The actions that may reach the network. *)
Definition callsService (a : Action) : bool :=
  match a with
  | ClickGenerate | ClickRefine _ _ => true
  | _ => false
  end.

(** The [disabled] attributes of the buttons, as the component renders
    them. *)
Module Ui.

Definition generateDisabled (st : App) : bool :=
  negb (Js.defined (productPhoto st)) || isLoading st.

Definition refineDisabled (res : ResultState) (st : App) : bool :=
  negb (Js.truthy (Js.trim (refinementPrompt res))) || isLoading st.

Definition undoDisabled (res : ResultState) (st : App) : bool :=
  (currentIndex res =? 0)%Z || isLoading st.

Definition redoDisabled (res : ResultState) (st : App) : bool :=
  (currentIndex res =? Z.of_nat (length (imageHistory res)) - 1)%Z || isLoading st.

Definition themeDisabled (st : App) : bool :=
  (0 <? String.length (customTheme st))%nat.

Definition modelUploaderDisabled (st : App) : bool := Js.defined (referencePhoto st).

Definition styleUploaderDisabled (st : App) : bool := Js.defined (modelPhoto st).

(** The action a click on an enabled button of a card triggers. *)
Definition refineClick (res : ResultState) : Action :=
  ClickRefine (id res) (refinementPrompt res).

End Ui.

(** Concrete files, responses and environments. *)
Module Sample.

Definition product : File :=
  {| type := "image/png"; readAsDataURL := "data:image/png;base64,UFJPRA==" |}.
Definition person : File :=
  {| type := "image/jpeg"; readAsDataURL := "data:image/jpeg;base64,TU9ERUw=" |}.
Definition style : File :=
  {| type := "image/webp"; readAsDataURL := "data:image/webp;base64,U1RZTEU=" |}.

Definition picture (payload : string) : GenerateContentResponse :=
  {| candidates :=
       Some [ {| content :=
                   Some {| parts :=
                             Js.Present
                               [ textPart "Here is your image.";
                                 {| inlineData :=
                                      Some {| data := Js.Present payload;
                                              mimeType := Js.Present "image/png" |};
                                    text := None |} ] |} |} ] |}.

Definition wordsOnly : GenerateContentResponse :=
  {| candidates :=
       Some [ {| content := Some {| parts := Js.Present [ textPart "Sorry." ] |} |} ] |}.

(** An answer whose content holds no [parts] at all, as the service
    sends it for a blocked candidate. *)
Definition noParts : GenerateContentResponse :=
  {| candidates := Some [ {| content := Some {| parts := Js.Undefined |} |} ] |}.

(** Every request is answered with a picture named after its rank,
    except the third, which gets words only; later requests settle
    first. *)
Definition env : Env :=
  {| API_KEY := Some "key";
     respond := fun n _ =>
       {| outcome := Fulfilled (if (n =? 2)%nat then wordsOnly else picture (pretty n));
          settledAt := 10 - n |};
     clock := fun n => (1700000000000 + Z.of_nat n)%Z |}.

(** Every request is answered with a picture named after its rank,
    except request [k], whose answer has no parts. *)
Definition partlessAt (k : nat) : Env :=
  {| API_KEY := Some "key";
     respond := fun n _ =>
       {| outcome := Fulfilled (if (n =? k)%nat then noParts else picture (pretty n));
          settledAt := 10 - n |};
     clock := fun n => (1700000000000 + Z.of_nat n)%Z |}.

(** No request ever yields a picture. *)
Definition barren : Env :=
  {| API_KEY := Some "key";
     respond := fun _ _ => {| outcome := Fulfilled wordsOnly; settledAt := 0 |};
     clock := fun n => (1700000000000 + Z.of_nat n)%Z |}.

(** The network is down. *)
Definition offline : Env :=
  {| API_KEY := Some "key";
     respond := fun _ _ => {| outcome := RejectedWith (JsError "fetch failed"); settledAt := 0 |};
     clock := fun n => (1700000000000 + Z.of_nat n)%Z |}.

Definition client : GoogleGenAI := {| apiKey := "key" |}.

(** U+00A0 and U+3000 in UTF-8, and an instruction made of a space, a
    no-break space, a tab and an ideographic space. *)
Definition noBreakSpace : string := String "194" (String "160" EmptyString).
Definition ideographicSpace : string :=
  String "227" (String "128" (String "128" EmptyString)).
Definition spaces : string :=
  " " +:+ noBreakSpace +:+ String "009" EmptyString +:+ ideographicSpace.

Definition upload (f : File) : option ImageFile :=
  Some {| file := f; previewUrl := "blob:preview" |}.

Definition entry (versions : list string) (index : Z) (prompt : string) : ResultState :=
  {| id := "result-1700000000000-0"; imageHistory := versions;
     currentIndex := index; refinementPrompt := prompt |}.

Definition withResults (rs : list ResultState) : App := setResults (fun _ => rs) initialApp.

End Sample.

(** ** Running the service code *)

Section Service.

Context (env : Env).

Lemma getAi_run w inst :
  clientOf env w = Some inst ->
  getAi env w = (Normal inst, keepClient inst w).
Proof.
  unfold clientOf, getAi, keepClient. destruct w as [a c t]; simpl.
  destruct a as [i|].
  - intros [= ->]. reflexivity.
  - destruct (API_KEY env) as [key|]; [|discriminate].
    destruct (Js.truthy key); [|discriminate].
    intros [= <-]. reflexivity.
Qed.

Lemma getAi_unavailable w :
  clientOf env w = None ->
  getAi env w = (Throw (JsError "API_KEY environment variable is not set."), w).
Proof.
  unfold clientOf, getAi. destruct (ai w); [discriminate|].
  destruct (API_KEY env) as [key|]; [|reflexivity].
  destruct (Js.truthy key); [discriminate|reflexivity].
Qed.

Lemma promisesOf_S w n req :
  promisesOf env w (S n) req =
  respond env (length (calls w)) req :: promisesOf env (logCalls [req] w) n req.
Proof.
  unfold promisesOf. cbn [seq fmap list_fmap]. rewrite Nat.add_0_r. f_equal.
  rewrite <- fmap_S_seq, <- list_fmap_compose.
  apply list_fmap_ext. intros _ i _. cbn. rewrite length_app. cbn.
  f_equal. lia.
Qed.

Lemma logCalls_logCalls a b w : logCalls b (logCalls a w) = logCalls (a ++ b) w.
Proof. unfold logCalls; cbn. by rewrite app_assoc. Qed.

Lemma issueAll_run inst n req w :
  issueAll inst n req env w =
  (Normal (promisesOf env w n req), logCalls (replicate n req) w).
Proof.
  revert w. induction n as [|n IH]; intros w.
  - cbn. unfold ret, logCalls. cbn. rewrite app_nil_r. by destruct w.
  - cbn [issueAll]. unfold bind at 1. unfold generateContent at 1.
    unfold bind at 1. rewrite IH. unfold ret.
    by rewrite promisesOf_S, logCalls_logCalls.
Qed.

Lemma promisesOf_keepClient inst w n req :
  promisesOf env (keepClient inst w) n req = promisesOf env w n req.
Proof. reflexivity. Qed.

Lemma length_promisesOf w n req : length (promisesOf env w n req) = n.
Proof. unfold promisesOf. by rewrite length_fmap, length_seq. Qed.

(** The whole of [generatePhotos] in one equation: the client is
    fetched, [callCount] copies of one request go out, and the outcome
    is the first rejection or the images in the order of the calls. *)
Lemma generatePhotos_run productPhoto modelPhoto referencePhoto
    theme customTheme additionalCommands w inst :
  clientOf env w = Some inst ->
  let req := requestOf productPhoto modelPhoto referencePhoto theme customTheme additionalCommands in
  let ps := promisesOf env w (callCount referencePhoto) req in
  generatePhotos productPhoto modelPhoto referencePhoto theme customTheme additionalCommands env w =
  (match firstRejection ps with
   | Some (_, e) => Throw e
   | None => collect (omap fulfilledValue ps)
   end,
   logCalls (replicate (callCount referencePhoto) req) (keepClient inst w)).
Proof.
  intros Hc req ps. unfold generatePhotos.
  unfold bind at 1. rewrite (getAi_run _ _ Hc).
  destruct referencePhoto as [r|].
  - unfold bind at 1. unfold generateContent at 1.
    subst ps req. unfold callCount, requestOf, instructionText, promisesOf.
    cbn [Js.defined seq fmap list_fmap replicate firstRejection]. rewrite Nat.add_0_r.
    cbn [calls keepClient].
    set (p := respond env _ _).
    unfold bind, await, ret, throw, lift, collect. cbn [omap list_omap]. unfold fulfilledValue.
    destruct (outcome p) as [resp|e]; [|reflexivity].
    cbn [omap list_omap mapThrowing]. by destruct (imageUrl resp) as [[url|]|e].
  - subst ps req. unfold callCount, requestOf, instructionText.
    cbn [Js.defined].
    destruct modelPhoto as [m|]; cbn [app];
      unfold bind at 1; rewrite issueAll_run; rewrite promisesOf_keepClient;
      unfold bind, promiseAll, lift, collect;
      match goal with |- context [firstRejection ?l] => destruct (firstRejection l) as [[t e]|] end;
      try reflexivity;
      unfold ret;
      match goal with |- context [mapThrowing ?f ?l] => by destruct (mapThrowing f l) end.
Qed.

Lemma generatePhotos_unavailable productPhoto modelPhoto referencePhoto
    theme customTheme additionalCommands w :
  clientOf env w = None ->
  generatePhotos productPhoto modelPhoto referencePhoto theme customTheme additionalCommands env w =
  (Throw (JsError "API_KEY environment variable is not set."), w).
Proof.
  intros Hc. unfold generatePhotos, bind. by rewrite getAi_unavailable.
Qed.

End Service.

(** ** Promises and the order of results *)

Section Aggregation.

Lemma firstRejection_all_fulfilled ps rs :
  Forall2 (fun p r => outcome p = Fulfilled r) ps rs ->
  firstRejection ps = None /\ omap fulfilledValue ps = rs.
Proof.
  induction 1 as [|p r ps rs Hp _ [IH1 IH2]]; [done|].
  cbn [firstRejection omap list_omap]. rewrite IH2. unfold fulfilledValue.
  by rewrite Hp, IH1.
Qed.

Lemma firstRejection_some_rejected ps p e :
  p ∈ ps -> outcome p = RejectedWith e ->
  exists t e', firstRejection ps = Some (t, e').
Proof.
  induction 1 as [p ps|p q ps _ IH]; intros Hp; cbn [firstRejection].
  - rewrite Hp. destruct (firstRejection ps) as [[t e']|]; [|by eexists _, _].
    destruct (t <? settledAt p)%nat; by eexists _, _.
  - destruct (IH Hp) as (t & e' & ->).
    destruct (outcome q); [by eexists _, _|].
    destruct (t <? settledAt q)%nat; by eexists _, _.
Qed.

(** The reason [Promise.all] rejects with is the reason of one of its
    promises, and none of them was rejected earlier. *)
Lemma firstRejection_earliest ps t e :
  firstRejection ps = Some (t, e) ->
  (exists p, p ∈ ps /\ outcome p = RejectedWith e /\ settledAt p = t) /\
  (forall q e', q ∈ ps -> outcome q = RejectedWith e' -> t <= settledAt q).
Proof.
  revert t e. induction ps as [|p ps IH]; intros t e; cbn [firstRejection]; [done|].
  destruct (outcome p) as [r|ep] eqn:Hp.
  - intros Hf. destruct (IH _ _ Hf) as [(q & Hq & Ho & Ht) Hmin]. split.
    + exists q. split; [by right|done].
    + intros q' e' [->|Hin]%elem_of_cons Ho'; [congruence|eauto].
  - destruct (firstRejection ps) as [[t' e']|] eqn:Hf.
    + destruct (IH _ _ eq_refl) as [(q & Hq & Ho & Ht) Hmin].
      destruct (Nat.ltb_spec t' (settledAt p)); intros [= <- <-]; split.
      * exists q. split; [by right|done].
      * intros q' e'' [->|Hin]%elem_of_cons Ho'; [lia|eauto].
      * exists p. split; [by left|done].
      * intros q' e'' [->|Hin]%elem_of_cons Ho'; [lia|].
        specialize (Hmin _ _ Hin Ho'). lia.
    + intros [= <- <-]. split.
      * exists p. split; [by left|done].
      * intros q' e'' [->|Hin]%elem_of_cons Ho'; [lia|].
        destruct (firstRejection_some_rejected _ _ _ Hin Ho') as (? & ? & ?).
        congruence.
Qed.


Context {A B : Type} (f : A -> option B).


Lemma omap_length_le (l : list A) : length (omap f l) <= length l.
Proof.
  induction l as [|x l IH]; [done|].
  cbn [omap list_omap]. destruct (f x); cbn [length]; lia.
Qed.



End Aggregation.

(** ** Reading the image of an answer *)

Section Answers.

Lemma find_payload ps :
  (List.find (fun p => Js.defined (inlineData p)) ps ≫= fun p => dataUrl <$> inlineData p)
  = dataUrl <$> head (omap inlineData ps).
Proof.
  induction ps as [|p ps IH]; [done|]. cbn [List.find omap list_omap].
  destruct (inlineData p) as [b|] eqn:Hp; cbn [Js.defined]; [|exact IH].
  cbn. by rewrite Hp.
Qed.

(** An answer that has its parts, or no content to hold them, is read
    without exception, and its image is its first inline payload. *)
Lemma imageUrl_imageOf r : partless r = false -> imageUrl r = Normal (imageOf r).
Proof.
  unfold partless, imageUrl, findImagePart, imageOf, payloadOf, answerParts.
  destruct (candidates r) as [cs|]; [|done]. cbn.
  destruct (cs !! 0%nat) as [c|]; [|done]. cbn.
  destruct (content c) as [ct|]; [|done]. cbn.
  destruct (parts ct) as [| |ps]; [done|done|]. intros _.
  by rewrite find_payload.
Qed.

(** Reading the image of an answer whose content has no parts throws. *)
Lemma imageUrl_partless r :
  partless r = true ->
  imageUrl r = Throw (cannotRead "undefined" "find") \/
  imageUrl r = Throw (cannotRead "null" "find").
Proof.
  unfold partless, imageUrl, findImagePart, answerParts.
  destruct (candidates r) as [cs|]; [|done]. cbn.
  destruct (cs !! 0%nat) as [c|]; [|done]. cbn.
  destruct (content c) as [ct|]; [|done]. cbn.
  destruct (parts ct) as [| |ps]; [by left|by right|done].
Qed.

Lemma partless_parts r :
  partless r = true <->
  exists cs c ct,
    candidates r = Some cs /\ cs !! 0%nat = Some c /\ content c = Some ct /\
    (parts ct = Js.Undefined \/ parts ct = Js.Null).
Proof.
  unfold partless, answerParts. split.
  - destruct (candidates r) as [cs|]; [|done]. cbn.
    destruct (cs !! 0%nat) as [c|] eqn:Hc; [|done]. cbn.
    destruct (content c) as [ct|] eqn:Hct; [|done]. cbn.
    destruct (parts ct) as [| |ps] eqn:Hparts; [| |done]; intros _;
      exists cs, c, ct; auto.
  - intros (cs & c & ct & -> & Hc & Hct & Hparts). cbn. rewrite Hc. cbn. rewrite Hct. cbn.
    by destruct Hparts as [-> | ->].
Qed.

Lemma imageUrl_throws r e : imageUrl r = Throw e -> partless r = true.
Proof.
  intros He. destruct (partless r) eqn:Hp; [done|].
  by rewrite imageUrl_imageOf in He.
Qed.

(** When every answer has its parts the images come out in the order of
    the answers. *)
Lemma collect_images rs :
  Forall (fun r => partless r = false) rs -> collect rs = Normal (omap imageOf rs).
Proof.
  unfold collect. induction 1 as [|r rs Hr _ IH]; [done|].
  cbn [mapThrowing omap list_omap]. rewrite (imageUrl_imageOf _ Hr).
  destruct (mapThrowing imageUrl rs) as [urls|e]; [|done].
  injection IH as IH. cbn [omap list_omap]. unfold Datatypes.id at 1.
  destruct (imageOf r); by rewrite IH.
Qed.

(** The first answer without parts, in the order of the answers, makes
    the whole collection throw. *)
Lemma collect_partless pre r post :
  Forall (fun r => partless r = false) pre ->
  partless r = true ->
  exists e, imageUrl r = Throw e /\ collect (pre ++ r :: post) = Throw e.
Proof.
  intros Hpre Hr.
  assert (exists e, imageUrl r = Throw e) as [e He]
    by (destruct (imageUrl_partless _ Hr); eauto).
  exists e. split; [done|]. unfold collect.
  induction Hpre as [|x pre Hx _ IH]; cbn [app mapThrowing].
  - by rewrite He.
  - rewrite (imageUrl_imageOf _ Hx).
    by destruct (mapThrowing imageUrl (pre ++ r :: post)).
Qed.

Lemma collect_throws rs e :
  collect rs = Throw e -> exists r, r ∈ rs /\ partless r = true /\ imageUrl r = Throw e.
Proof.
  unfold collect. induction rs as [|r rs IH]; cbn [mapThrowing]; [done|].
  destruct (imageUrl r) as [u|e'] eqn:Hu.
  - destruct (mapThrowing imageUrl rs) as [urls|e'']; [done|].
    intros [= ->]. destruct (IH eq_refl) as (r' & Hin & Hp & He).
    exists r'. split; [by right|done].
  - intros [= ->]. exists r. split; [by left|]. eauto using imageUrl_throws.
Qed.

Lemma mapThrowing_length {A B} (f : A -> Completion B) xs ys :
  mapThrowing f xs = Normal ys -> length ys = length xs.
Proof.
  revert ys. induction xs as [|x xs IH]; intros ys; cbn [mapThrowing].
  - by intros [= <-].
  - destruct (f x) as [y|e]; [|done].
    destruct (mapThrowing f xs) as [ys'|e]; [|done].
    intros [= <-]. cbn [length]. by rewrite (IH ys').
Qed.

Lemma collect_length rs urls : collect rs = Normal urls -> length urls <= length rs.
Proof.
  unfold collect. destruct (mapThrowing imageUrl rs) as [us|e] eqn:Hm; [|done].
  intros [= <-]. apply mapThrowing_length in Hm. rewrite <- Hm.
  apply omap_length_le.
Qed.

Lemma collect_cases rs :
  (exists urls, collect rs = Normal urls /\ Forall (fun r => partless r = false) rs) \/
  (exists e, collect rs = Throw e).
Proof.
  destruct (collect rs) as [urls|e] eqn:Hc; [left|right; eauto].
  exists urls. split; [done|]. apply Forall_forall. intros r Hr.
  destruct (partless r) eqn:Hp; [|done].
  apply list_elem_of_split in Hr as (pre & post & ->).
  assert (exists pre' r' post', pre ++ r :: post = pre' ++ r' :: post' /\
            Forall (fun r => partless r = false) pre' /\ partless r' = true)
    as (pre' & r' & post' & Heq & Hpre' & Hr').
  { clear Hc. induction pre as [|x pre IH]; cbn [app].
    - exists [], r, post. by repeat split.
    - destruct (partless x) eqn:Hx.
      + exists [], x, (pre ++ r :: post). by repeat split.
      + destruct IH as (pre' & r' & post' & -> & Hpre' & Hr').
        exists (x :: pre'), r', post'. repeat split; [|done]. by constructor. }
  rewrite Heq in Hc.
  destruct (collect_partless _ _ post' Hpre' Hr') as (e & _ & He). congruence.
Qed.

End Answers.

(** X20. The image of an answer is read from its first candidate: the
    first part that holds inline data gives the data URL
    ["data:<type>;base64,<data>"], a missing type or data being written
    [undefined] and a null one [null], as a template literal does, and
    the parts before and after it do not matter. An answer whose parts
    hold no inline data, an answer without candidates, with an empty
    list of candidates or with a first candidate without content has no
    image, and reading it does not throw. *)
Theorem image_url_text cs pre t post b :
  Forall (fun p => inlineData p = None) pre ->
  let answer ps :=
    {| candidates := Some ({| content := Some {| parts := Js.Present ps |} |} :: cs) |} in
  let written (v : Js.Nullable string) :=
    match v with
    | Js.Undefined => "undefined"
    | Js.Null => "null"
    | Js.Present text => text
    end in
  let response := answer (pre ++ {| inlineData := Some b; text := t |} :: post) in
  imageUrl response =
    Normal (Some ("data:" +:+ written (mimeType b) +:+ ";base64," +:+ written (data b))) /\
  payloadOf response = Some b /\
  imageUrl (answer pre) = Normal None /\
  payloadOf (answer pre) = None /\
  imageUrl {| candidates := None |} = Normal None /\
  imageUrl {| candidates := Some [] |} = Normal None /\
  imageUrl {| candidates := Some ({| content := None |} :: cs) |} = Normal None.
Proof.
  intros Hpre answer written response.
  assert (Hnone : omap inlineData pre = []).
  { induction Hpre as [|p pre Hp _ IH]; [done|]. cbn [omap list_omap]. by rewrite Hp. }
  assert (Hpayload : payloadOf response = Some b).
  { unfold payloadOf. cbn. by rewrite omap_app, Hnone. }
  assert (Hempty : payloadOf (answer pre) = None).
  { unfold payloadOf. cbn. by rewrite Hnone. }
  split; [|split; [done|split; [|split; [done|by repeat split]]]].
  - rewrite imageUrl_imageOf by done. unfold imageOf. rewrite Hpayload.
    cbn. unfold dataUrl. by destruct (mimeType b), (data b).
  - rewrite imageUrl_imageOf by done. unfold imageOf. by rewrite Hempty.
Qed.

Lemma image_url_text_witness :
  let blob := {| data := Js.Present "QQ=="; mimeType := Js.Null |} in
  imageUrl
    {| candidates :=
         Some [ {| content :=
                     Some {| parts :=
                               Js.Present
                                 [ {| inlineData := None; text := Some "Here." |};
                                   {| inlineData := Some blob; text := None |};
                                   {| inlineData := Some {| data := Js.Present "Qg==";
                                                            mimeType := Js.Undefined |};
                                      text := None |} ] |} |} ] |}
  = Normal (Some "data:null;base64,QQ==").
Proof.
  intros blob.
  refine (proj1 (image_url_text [] [ {| inlineData := None; text := Some "Here." |} ] None
                   [ {| inlineData := Some {| data := Js.Present "Qg==";
                                              mimeType := Js.Undefined |};
                        text := None |} ]
                   blob _)).
  by repeat constructor.
Defined.

(** ** generate: an answer that carries no parts

    The three statements below come from one defect: [parts] is read
    without [?.] in [response.candidates?.[0]?.content?.parts.find]. *)

(** C3. Reference mode where the specification is not met: a reference
    photo is given, the single call is answered, and the answer has a
    content without parts, so no image. The specification has the
    generation return an empty result there; the code issues its one
    call and then throws the [TypeError] of [parts.find], returning
    nothing. *)
Theorem reference_mode_answer_without_parts :
  let env := Sample.partlessAt 0 in
  let req :=
    {| model := "gemini-2.5-flash-image";
       contents :=
         [inlineImage "image/png" "UFJPRA=="; inlineImage "image/webp" "U1RZTEU=";
          {| inlineData := None;
             text := Some "Generate 1 product photo that matches the style of the reference photo. The logo, text, shape, and product color must not be altered. The theme should be: Studio." |}];
       responseModalities := [IMAGE; TEXT] |} in
  let run :=
    generatePhotos Sample.product (Some Sample.person) (Some Sample.style)
      "Studio" "" "" env initialWorld in
  calls run.2 = [req] /\
  outcome (respond env 0 req) = Fulfilled Sample.noParts /\
  imageOf Sample.noParts = None /\
  run.1 = Throw (JsError "Cannot read properties of undefined (reading 'find')") /\
  run.1 <> Normal [].
Proof. repeat split; [vm_compute; reflexivity..|discriminate]. Qed.

(** C4. Fan-out where the specification is not met: no reference photo,
    the four identical calls are all answered, the second with a content
    without parts. The specification has the generation return the
    images of the other three calls; the code issues the four calls and
    then throws the [TypeError] of [parts.find], returning nothing. *)
Theorem fan_out_answer_without_parts :
  let env := Sample.partlessAt 1 in
  let req :=
    {| model := "gemini-2.5-flash-image";
       contents :=
         [inlineImage "image/png" "UFJPRA=="; inlineImage "image/jpeg" "TU9ERUw=";
          {| inlineData := None;
             text := Some "Generate a professional photo of the provided model holding or wearing the product. Add supporting props to make the photo more appealing. It is absolutely crucial that the model's face remains consistent and unchanged from the source photo. Do not alter the facial features. Create a unique variation with a different body pose, facial expression, lighting, composition, or camera angle. The theme should be: Studio." |}];
       responseModalities := [IMAGE; TEXT] |} in
  let run :=
    generatePhotos Sample.product (Some Sample.person) None "Studio" "" "" env initialWorld in
  calls run.2 = [req; req; req; req] /\
  (fun n => outcome (respond env n req)) <$> [0; 1; 2; 3] =
    Fulfilled <$> [Sample.picture "0"; Sample.noParts; Sample.picture "2"; Sample.picture "3"] /\
  omap imageOf [Sample.picture "0"; Sample.noParts; Sample.picture "2"; Sample.picture "3"] =
    ["data:image/png;base64,0"; "data:image/png;base64,2"; "data:image/png;base64,3"] /\
  run.1 = Throw (JsError "Cannot read properties of undefined (reading 'find')") /\
  (forall urls, run.1 <> Normal urls).
Proof. repeat split; [vm_compute; reflexivity..|discriminate]. Qed.

(** C6. Result order where the specification is not met: every call of
    a generation is answered, the first, second and fourth with an
    image, the third with a content without parts. The specification
    has that call dropped and the three images returned in call order;
    the code throws the [TypeError] of [parts.find] and the three images
    are lost. *)
Theorem answer_without_parts_loses_the_images :
  let env := Sample.partlessAt 2 in
  let answers :=
    [Sample.picture "0"; Sample.picture "1"; Sample.noParts; Sample.picture "3"] in
  let run :=
    generatePhotos Sample.product None None "None" "Neon" "" env initialWorld in
  length (calls run.2) = 4 /\
  omap fulfilledValue
    ((fun n => respond env n (default (request []) (calls run.2 !! n))) <$> [0; 1; 2; 3])
    = answers /\
  imageCalls answers = [0; 1; 3] /\
  run.1 = Throw (JsError "Cannot read properties of undefined (reading 'find')") /\
  run.1 <> Normal ["data:image/png;base64,0"; "data:image/png;base64,1";
                   "data:image/png;base64,3"].
Proof. repeat split; [vm_compute; reflexivity..|discriminate]. Qed.

(** ** The instruction text *)

Section Strings.

Lemma append_cons x a b : String x a +:+ b = String x (a +:+ b).
Proof. reflexivity. Qed.


Lemma append_assoc a b c : (a +:+ b) +:+ c = a +:+ (b +:+ c).
Proof. induction a as [|x a IH]; [done|]. by rewrite !append_cons, IH. Qed.

Lemma length_append a b :
  String.length (a +:+ b) = String.length a + String.length b.
Proof.
  induction a as [|x a IH]; [done|].
  rewrite append_cons. cbn [String.length]. by rewrite IH.
Qed.



Lemma truthy_empty s : Js.truthy s = false <-> s = "".
Proof. by destruct s. Qed.



(** The two clauses start differently, so neither can stand where the
    other is expected. *)
Lemma themeClause_not_extraClause finalTheme extra rest :
  extraClause extra <> themeClause finalTheme +:+ rest.
Proof. unfold extraClause, themeClause. cbv [String.append]. discriminate. Qed.

End Strings.


(** ** Data URLs *)

Section DataUrl.

Lemma lacks_app c a b : lacks c (a +:+ b) = lacks c a && lacks c b.
Proof.
  induction a as [|x a IH]; [done|].
  rewrite append_cons. cbn [lacks]. rewrite IH. by rewrite andb_assoc.
Qed.

Lemma indexOf_from_found c a rest i :
  lacks c a = true ->
  Js.indexOf_from c (a +:+ String c rest) i = (i + Z.of_nat (String.length a))%Z.
Proof.
  revert i. induction a as [|x a IH]; intros i Ha.
  - change ("" +:+ String c rest) with (String c rest).
    cbn [Js.indexOf_from String.length]. rewrite Ascii.eqb_refl. lia.
  - cbn [lacks] in Ha. apply andb_true_iff in Ha as [Hx Ha].
    rewrite append_cons. cbn [Js.indexOf_from String.length].
    apply negb_true_iff in Hx. rewrite Hx, IH by done. lia.
Qed.

Lemma split_lacks c d : lacks c d = true -> Js.split c d = [d].
Proof.
  induction d as [|x d IH]; [done|]. cbn [lacks Js.split].
  intros [Hx Hd]%andb_true_iff. apply negb_true_iff in Hx.
  by rewrite Hx, IH.
Qed.

Lemma split_found c a rest :
  lacks c a = true -> Js.split c (a +:+ String c rest) = a :: Js.split c rest.
Proof.
  induction a as [|x a IH]; intros Ha.
  - change ("" +:+ String c rest) with (String c rest).
    cbn [Js.split]. by rewrite Ascii.eqb_refl.
  - cbn [lacks] in Ha. apply andb_true_iff in Ha as [Hx Ha].
    apply negb_true_iff in Hx.
    rewrite append_cons. cbn [Js.split]. by rewrite Hx, IH.
Qed.

Lemma substring_prefix m rest :
  String.substring 0 (String.length m) (m +:+ rest) = m.
Proof.
  induction m as [|x m IH]; [by destruct rest|].
  rewrite append_cons. cbn [String.length String.substring]. by rewrite IH.
Qed.

Lemma substring_skip a k x :
  String.substring (String.length a) k (a +:+ x) = String.substring 0 k x.
Proof. induction a as [|y a IH]; [done|]. by rewrite append_cons. Qed.

(** Parsing the data URL of a plain payload gives the payload back. *)
Lemma parsedImagePart_dataUrl b :
  plainBlob b ->
  parsedImagePart (dataUrl b) = {| inlineData := Some b; text := None |}.
Proof.
  intros (m & d & -> & Hcolon & Hsemi & Hcomma & Hd).
  unfold parsedImagePart, dataUrl, Js.render. cbn [mimeType data from_option].
  unfold Datatypes.id. f_equal. f_equal. f_equal.
  - replace ("data:" +:+ m +:+ ";base64," +:+ d)
      with (("data:" +:+ m +:+ ";base64") +:+ String "," d)
      by (by rewrite !append_assoc).
    rewrite split_found, split_lacks by (rewrite ?lacks_app, ?Hcomma; done).
    reflexivity.
  - f_equal. unfold Js.substring.
    assert (Js.indexOf ":" ("data:" +:+ m +:+ ";base64," +:+ d) = 4%Z) as -> by reflexivity.
    assert (Js.indexOf ";" ("data:" +:+ m +:+ ";base64," +:+ d)
            = (5 + Z.of_nat (String.length m))%Z) as ->.
    { replace ("data:" +:+ m +:+ ";base64," +:+ d)
        with (("data:" +:+ m) +:+ String ";" ("base64," +:+ d))
        by (by rewrite !append_assoc).
      unfold Js.indexOf. rewrite indexOf_from_found by (by rewrite lacks_app, Hsemi).
      rewrite length_append. cbn [String.length]. lia. }
    rewrite !length_append. cbn [String.length]. unfold Js.clamp.
    set (n := String.length m). set (k := String.length d).
    replace (Z.to_nat _) with (String.length "data:") at 1 by (cbn [String.length]; lia).
    replace (Z.to_nat _) with n by lia.
    rewrite substring_skip. apply substring_prefix.
Qed.

End DataUrl.

(** ** Running the handlers *)

Section Handlers.

Context (env : Env).

Lemma refineImage_run w inst url command :
  clientOf env w = Some inst ->
  let req := request [parsedImagePart url; textPart command] in
  refineImage (Some url) command env w =
  (match outcome (respond env (length (calls w)) req) with
   | Fulfilled response =>
       match imageUrl response with
       | Normal (Some newImageUrl) => Normal newImageUrl
       | Normal None => Throw (JsError "Failed to refine image.")
       | Throw e => Throw e
       end
   | RejectedWith e => Throw e
   end,
   logCalls [req] (keepClient inst w)).
Proof.
  intros Hc req. unfold refineImage, bind at 1. rewrite (getAi_run _ _ _ Hc).
  unfold bind at 1, generateContent at 1. fold (parsedImagePart url). fold req.
  cbn [calls keepClient]. unfold bind, await.
  destruct (outcome (respond env (length (calls w)) req)) as [response|e]; [|reflexivity].
  unfold ret, lift. by destruct (imageUrl response) as [[newImageUrl|]|e].
Qed.

Lemma refineImage_undefined w inst command :
  clientOf env w = Some inst ->
  refineImage None command env w =
  (Throw (JsError undefinedReadMessage), keepClient inst w).
Proof. intros Hc. unfold refineImage, bind. by rewrite (getAi_run _ _ _ Hc). Qed.

Lemma refineImage_unavailable w image command :
  clientOf env w = None ->
  refineImage image command env w =
  (Throw (JsError "API_KEY environment variable is not set."), w).
Proof. intros Hc. unfold refineImage, bind. by rewrite getAi_unavailable. Qed.

(** [handleRefinement] once its guard has let the call through. *)
Lemma handleRefinement_run st w resultId command resultIndex currentResult :
  list_find (fun r => id r = resultId) (results st) = Some (resultIndex, currentResult) ->
  Js.truthy (Js.trim command) = true ->
  let service :=
    refineImage (Js.at_index (imageHistory currentResult) (currentIndex currentResult))
      command env w in
  handleRefinement resultId command st env w =
  (Normal
     (setIsLoading false
        match service.1 with
        | Normal newImageUrl =>
            setResults (refineResults resultIndex newImageUrl) (setIsLoading true st)
        | Throw _ => setError (Some "Failed to refine the image.") (setIsLoading true st)
        end),
   service.2).
Proof.
  intros Hfind Hcmd service. unfold handleRefinement. rewrite Hfind, Hcmd.
  cbn [negb]. unfold bind, tryCatch. fold service.
  destruct service as [[newImageUrl|e] w']; reflexivity.
Qed.

Lemma handleRefinement_skipped st w resultId command :
  list_find (fun r => id r = resultId) (results st) = None \/
  Js.truthy (Js.trim command) = false ->
  handleRefinement resultId command st env w = (Normal st, w).
Proof.
  unfold handleRefinement. intros [->| ->]; [done|].
  by destruct (list_find _ _) as [[? ?]|].
Qed.

Lemma newResultsFrom_run index urls w :
  newResultsFrom index urls env w =
  (Normal (imap (fun k url => newResult (clock env (ticks w + k)) (index + k) url) urls),
   advance (length urls) w).
Proof.
  revert index w. induction urls as [|url urls IH]; intros index w.
  - cbn. unfold ret, advance. rewrite Nat.add_0_r. by destruct w.
  - cbn [newResultsFrom imap length]. unfold bind at 1, dateNow at 1.
    unfold bind at 1. rewrite IH. unfold ret. rewrite !Nat.add_0_r. f_equal.
    + f_equal. f_equal. apply imap_ext. intros k x _. cbn.
      f_equal; [f_equal|]; lia.
    + unfold advance, tick. cbn. f_equal. lia.
Qed.

(** [handleGenerateClick] in terms of what [generatePhotos] did. *)
Lemma handleGenerateClick_run st w product :
  productPhoto st = Some product ->
  let service := submission product st env w in
  let cleared := setResults (fun _ => []) (setError None (setIsLoading true st)) in
  handleGenerateClick st env w =
  match service.1 with
  | Throw e =>
      (Normal (setIsLoading false (setError (Some (errorMessage e)) cleared)), service.2)
  | Normal [] =>
      (Normal (setIsLoading false (setResults (fun _ => []) cleared)), service.2)
  | Normal urls =>
      let newResults := entriesAt env service.2 urls in
      (Normal (setIsLoading false
                 (setHistory
                    (fun prev =>
                       newHistoryItem (clock env (ticks service.2 + length urls)) newResults
                       :: prev)
                    (setResults (fun _ => newResults) cleared))),
       advance (S (length urls)) service.2)
  end.
Proof.
  intros Hp service cleared. unfold handleGenerateClick. rewrite Hp.
  unfold bind at 1, tryCatch, bind at 1.
  change (generatePhotos _ _ _ _ _ _ env w) with service.
  destruct service as [[urls|e] w1]; [|reflexivity]. cbn [fst snd].
  unfold bind at 1. rewrite newResultsFrom_run. rewrite length_imap.
  destruct urls as [|url urls].
  - cbn. unfold ret, advance. rewrite Nat.add_0_r. by destruct w1.
  - cbn [length Nat.ltb Nat.leb]. unfold bind, dateNow, ret.
    unfold entriesAt. cbn [Nat.add]. f_equal. unfold advance, tick; cbn. f_equal. lia.
Qed.

End Handlers.

(** ** generate and refine as the handlers drive them *)

(** C7. A submission without a product photo is refused on the spot: the
    world is left as it was, so no request has gone out and no client was
    built, the refusal is reported as the error message, and the results
    and the history are those of before. *)
Theorem generate_without_product env st w :
  productPhoto st = None ->
  let run := handleGenerateClick st env w in
  run.2 = w /\
  calls run.2 = calls w /\
  exists st',
    run.1 = Normal st' /\
    error st' = Some "Product photo is required." /\
    results st' = results st /\
    history st' = history st /\
    isLoading st' = isLoading st.
Proof.
  intros Hp run. subst run. unfold handleGenerateClick. rewrite Hp.
  cbn. repeat split. eexists. split; [reflexivity|]. done.
Qed.

Lemma generate_without_product_witness :
  let st := Sample.withResults [Sample.entry ["a"; "b"] 1 ""] in
  productPhoto st = None /\
  (handleGenerateClick st Sample.env initialWorld).2 = initialWorld /\
  results (step Sample.env ClickGenerate (st, initialWorld)).1 = results st.
Proof.
  intros st. split; [reflexivity|].
  destruct (generate_without_product Sample.env st initialWorld eq_refl)
    as (Hw & _ & st' & Hrun & _ & Hres & _).
  split; [exact Hw|].
  unfold step, after. cbn [fst snd handle].
  destruct (handleGenerateClick st Sample.env initialWorld) as [c w'].
  cbn [fst] in Hrun. subst c. exact Hres.
Defined.

(** C8. A refinement that passes the guard of [handleRefinement] issues
    exactly one request to the image model: an inline image with the
    media type and the payload parsed from the current version, the very
    payload and type of a version that is a well-formed data URL, and
    then the instruction as a text. If the answer carries an image,
    [refineImage] returns it as a data URL and the selected entry is
    rewritten. Otherwise [refineImage] fails: with ["Failed to refine
    image."] when the answer has no image, with the [TypeError] of
    [parts.find] when its content has no parts, with the rejection when
    the call is rejected. On every failure the results, hence the
    versions, pointer and pending instruction of every entry, and the
    history are those of before, and the failure is reported. *)
Theorem refine_one_call env w inst st resultId command resultIndex currentResult currentImage :
  clientOf env w = Some inst ->
  list_find (fun r => id r = resultId) (results st) = Some (resultIndex, currentResult) ->
  Js.truthy (Js.trim command) = true ->
  Js.at_index (imageHistory currentResult) (currentIndex currentResult) = Some currentImage ->
  let req :=
    {| model := "gemini-2.5-flash-image";
       contents :=
         [ {| inlineData :=
                Some {| data := Js.element (Js.split "," currentImage !! 1%nat);
                        mimeType :=
                          Js.Present
                            (Js.substring currentImage
                               (Js.indexOf ":" currentImage + 1)
                               (Js.indexOf ";" currentImage)) |};
              text := None |};
           {| inlineData := None; text := Some command |} ];
       responseModalities := [IMAGE; TEXT] |} in
  let service := refineImage (Some currentImage) command env w in
  let run := handleRefinement resultId command st env w in
  (forall mime payload,
     plainBlob {| data := Js.Present payload; mimeType := Js.Present mime |} ->
     currentImage = "data:" +:+ mime +:+ ";base64," +:+ payload ->
     contents req = [inlineImage mime payload; {| inlineData := None; text := Some command |}]) /\
  calls service.2 = calls w ++ [req] /\
  calls run.2 = calls w ++ [req] /\
  match outcome (respond env (length (calls w)) req) with
  | Fulfilled response =>
      match answerParts response, payloadOf response with
      | Some Js.Undefined, _ =>
          service.1 = Throw (JsError "Cannot read properties of undefined (reading 'find')") /\
          refinementFailed st run.1
      | Some Js.Null, _ =>
          service.1 = Throw (JsError "Cannot read properties of null (reading 'find')") /\
          refinementFailed st run.1
      | _, Some b =>
          let newImage :=
            "data:" +:+ Js.render (mimeType b) +:+ ";base64," +:+ Js.render (data b) in
          service.1 = Normal newImage /\
          exists st', run.1 = Normal st' /\
                      results st' = refineResults resultIndex newImage (results st)
      | _, None =>
          service.1 = Throw (JsError "Failed to refine image.") /\
          refinementFailed st run.1
      end
  | RejectedWith e => service.1 = Throw e /\ refinementFailed st run.1
  end.
Proof.
  intros Hc Hfind Hcmd Himg req service run. subst run.
  rewrite (handleRefinement_run env _ _ _ _ _ _ Hfind Hcmd), Himg.
  fold service. subst service. rewrite (refineImage_run env _ _ _ _ Hc).
  change (request [parsedImagePart currentImage; textPart command]) with req.
  cbn [fst snd]. split; [|split; [reflexivity|split; [reflexivity|]]].
  { intros mime payload Hplain ->.
    pose proof (parsedImagePart_dataUrl _ Hplain) as Hparsed.
    unfold dataUrl in Hparsed. cbn [mimeType data Js.render] in Hparsed.
    subst req. cbn [contents]. fold (parsedImagePart ("data:" +:+ mime +:+ ";base64," +:+ payload)).
    by rewrite Hparsed. }
  destruct (outcome (respond env (length (calls w)) req)) as [response|e].
  - destruct (partless response) eqn:Hp.
    + unfold partless in Hp. unfold imageUrl, findImagePart.
      unfold answerParts in *.
      destruct (candidates response) as [cs|]; [|done]. cbn in *.
      destruct (cs !! 0%nat) as [c|]; [|done]. cbn in *.
      destruct (content c) as [ct|]; [|done]. cbn in *.
      destruct (parts ct) as [| |ps]; [| |done];
        (split; [reflexivity|]; eexists; split; [reflexivity|]; done).
    + rewrite (imageUrl_imageOf _ Hp). unfold imageOf.
      unfold partless in Hp.
      destruct (answerParts response) as [[| |ps]|]; try done;
        (destruct (payloadOf response) as [b|]; cbn [fmap option_fmap option_map];
         [split; [reflexivity|]; eexists; split; reflexivity
         |split; [reflexivity|]; eexists; split; [reflexivity|]; done]).
  - split; [reflexivity|]. eexists. split; [reflexivity|]. done.
Qed.

Lemma refine_one_call_witness :
  let st := Sample.withResults [Sample.entry ["data:image/png;base64,QQ=="] 0 "warmer"] in
  let run := handleRefinement "result-1700000000000-0" "warmer" st Sample.barren initialWorld in
  clientOf Sample.barren initialWorld = Some Sample.client /\
  calls run.2 =
    [ {| model := "gemini-2.5-flash-image";
         contents := [inlineImage "image/png" "QQ==";
                      {| inlineData := None; text := Some "warmer" |}];
         responseModalities := [IMAGE; TEXT] |} ] /\
  refinementFailed st run.1.
Proof.
  intros st run. split; [reflexivity|]. subst run.
  destruct (refine_one_call Sample.barren initialWorld Sample.client st
              "result-1700000000000-0" "warmer" 0
              (Sample.entry ["data:image/png;base64,QQ=="] 0 "warmer")
              "data:image/png;base64,QQ==" eq_refl eq_refl eq_refl eq_refl)
    as (_ & _ & Hcalls & Hout).
  split; [by rewrite Hcalls|]. exact (proj2 Hout).
Defined.

(** ** The version stack of one entry *)

Section Versions.

Lemma slice0_take {A} (a : list A) (e : Z) :
  (0 <= e)%Z -> Js.slice0 a e = take (Z.to_nat e) a.
Proof.
  intros He. unfold Js.slice0. rewrite (proj2 (Z.ltb_ge e 0)) by done.
  destruct (Z.min_spec e (Z.of_nat (length a))) as [[_ ->]|[Hle ->]]; [done|].
  rewrite Nat2Z.id, firstn_all. symmetry. apply take_ge. lia.
Qed.

Lemma length_slice0 {A} (a : list A) (e : Z) : length (Js.slice0 a e) <= length a.
Proof. unfold Js.slice0. rewrite length_take. lia. Qed.

(** A refinement leaves a valid pointer whatever it started from. *)
Lemma refineEntry_ok newImageUrl res : entryOk (refineEntry newImageUrl res).
Proof. unfold entryOk, refineEntry. cbn. rewrite length_app. cbn. lia. Qed.

Lemma refineEntry_spec newImageUrl res :
  entryOk res ->
  imageHistory (refineEntry newImageUrl res) =
    take (S (Z.to_nat (currentIndex res))) (imageHistory res) ++ [newImageUrl] /\
  currentIndex (refineEntry newImageUrl res) = (currentIndex res + 1)%Z.
Proof.
  intros [Hlo Hhi]. unfold refineEntry. cbn [imageHistory currentIndex].
  rewrite slice0_take by lia.
  replace (Z.to_nat (currentIndex res + 1)) with (S (Z.to_nat (currentIndex res))) by lia.
  split; [done|]. rewrite length_app, length_take. cbn [length]. lia.
Qed.

Lemma undoEntry_ok res : entryOk res -> entryOk (undoEntry res).
Proof. unfold entryOk, undoEntry. cbn. lia. Qed.

Lemma redoEntry_ok res : entryOk res -> entryOk (redoEntry res).
Proof. unfold entryOk, redoEntry. cbn. lia. Qed.

Lemma promptEntry_ok prompt res : entryOk res -> entryOk (promptEntry prompt res).
Proof. done. Qed.

Lemma newResult_ok now index url : entryOk (newResult now index url).
Proof. unfold entryOk. cbn. lia. Qed.

Lemma undoEntry_at_bottom res : currentIndex res = 0%Z -> undoEntry res = res.
Proof. destruct res as [i h c p]. cbn. intros ->. reflexivity. Qed.

Lemma redoEntry_at_top res :
  currentIndex res = (Z.of_nat (length (imageHistory res)) - 1)%Z -> redoEntry res = res.
Proof.
  destruct res as [i h c p]. unfold redoEntry. cbn. intros ->.
  f_equal. lia.
Qed.

Lemma move_ok m res : entryOk res -> entryOk (move m res).
Proof. destruct m; [apply undoEntry_ok|apply redoEntry_ok]. Qed.

Lemma move_versions m res : imageHistory (move m res) = imageHistory res.
Proof. by destruct m. Qed.

Lemma walk_snoc ms m res : walk (ms ++ [m]) res = move m (walk ms res).
Proof. unfold walk. by rewrite foldl_app. Qed.

Lemma walk_ok ms res : entryOk res -> entryOk (walk ms res).
Proof.
  intros Hok. induction ms as [|m ms IH] using rev_ind; [done|].
  rewrite walk_snoc. by apply move_ok.
Qed.

Lemma walk_versions ms res : imageHistory (walk ms res) = imageHistory res.
Proof.
  induction ms as [|m ms IH] using rev_ind; [done|].
  by rewrite walk_snoc, move_versions.
Qed.

(** Going back [n] times stops at the bottom, going forward [n] times
    stops at the top. *)
Lemma undo_repeated n res :
  (0 <= currentIndex res)%Z ->
  currentIndex (walk (replicate n Back) res) =
  Z.max 0 (currentIndex res - Z.of_nat n).
Proof.
  intros Hlo. induction n as [|n IH]; [cbn; lia|].
  replace (S n) with (n + 1) by lia.
  rewrite replicate_add. change (replicate 1 Back) with [Back].
  rewrite walk_snoc. cbn [move undoEntry currentIndex].
  rewrite IH. lia.
Qed.

Lemma redo_repeated n res :
  (currentIndex res <= Z.of_nat (length (imageHistory res)) - 1)%Z ->
  currentIndex (walk (replicate n Forward) res) =
  Z.min (Z.of_nat (length (imageHistory res)) - 1) (currentIndex res + Z.of_nat n).
Proof.
  intros Hhi. induction n as [|n IH]; [cbn; lia|].
  replace (S n) with (n + 1) by lia.
  rewrite replicate_add. change (replicate 1 Forward) with [Forward].
  rewrite walk_snoc. cbn [move redoEntry currentIndex].
  rewrite IH, walk_versions. lia.
Qed.

Lemma refineResults_alter resultIndex newImageUrl prevResults :
  refineResults resultIndex newImageUrl prevResults =
  alter (refineEntry newImageUrl) resultIndex prevResults.
Proof.
  apply list_eq. intros i. unfold refineResults.
  rewrite list_lookup_imap, list_lookup_alter.
  destruct (decide (i = resultIndex)) as [->|Hne].
  - rewrite bool_decide_eq_false_2 by (by intros ?). by rewrite decide_True.
  - rewrite bool_decide_eq_true_2 by done. rewrite decide_False by done.
    by destruct (prevResults !! i).
Qed.

Lemma refineResults_insert resultIndex newImageUrl prevResults res :
  prevResults !! resultIndex = Some res ->
  refineResults resultIndex newImageUrl prevResults =
  <[resultIndex := refineEntry newImageUrl res]> prevResults.
Proof.
  intros Hres. rewrite refineResults_alter. apply list_eq. intros i.
  rewrite list_lookup_alter, list_lookup_insert.
  destruct (decide (resultIndex = i)) as [->|Hne].
  - rewrite Hres. cbn. rewrite decide_True; [done|].
    split; [done|]. by apply lookup_lt_Some in Hres.
  - by rewrite decide_False by (intros [? _]; done).
Qed.

Lemma onEntry_lookup resultId f prev k res :
  prev !! k = Some res ->
  onEntry resultId f prev !! k =
  Some (if bool_decide (id res = resultId) then f res else res).
Proof.
  intros Hk. unfold onEntry. rewrite list_lookup_fmap, Hk. cbn. f_equal.
  destruct (String.eqb_spec (id res) resultId).
  - by rewrite bool_decide_eq_true_2.
  - by rewrite bool_decide_eq_false_2.
Qed.

Lemma onEntry_ok resultId f prev :
  (forall res, entryOk res -> entryOk (f res)) ->
  Forall entryOk prev -> Forall entryOk (onEntry resultId f prev).
Proof.
  intros Hf Hprev. unfold onEntry. apply Forall_fmap.
  eapply Forall_impl; [exact Hprev|]. intros res Hok. cbn.
  destruct (String.eqb _ _); auto.
Qed.

Lemma refineResults_ok resultIndex newImageUrl prev :
  Forall entryOk prev -> Forall entryOk (refineResults resultIndex newImageUrl prev).
Proof.
  intros Hprev. apply Forall_lookup. intros i res.
  unfold refineResults. rewrite list_lookup_imap.
  destruct (prev !! i) as [x|] eqn:Hx; [|done]. cbn. intros [= <-].
  destruct (bool_decide _); [|apply refineEntry_ok].
  by eapply Forall_lookup_1 in Hprev.
Qed.

Lemma entriesAt_ok env w urls : Forall entryOk (entriesAt env w urls).
Proof.
  apply Forall_lookup. intros i res. unfold entriesAt.
  rewrite list_lookup_imap. destruct (urls !! i); [|done].
  cbn. intros [= <-]. apply newResult_ok.
Qed.

End Versions.

(** ** The bounds hold along every session *)

Section Invariant.

Context (env : Env).

Lemma appOk_frame st st' :
  results st' = results st -> history st' = history st -> appOk st -> appOk st'.
Proof. unfold appOk. by intros -> ->. Qed.

Lemma appOk_setResults f st :
  (Forall entryOk (results st) -> Forall entryOk (f (results st))) ->
  appOk st -> appOk (setResults f st).
Proof. intros Hf [Hr Hh]. split; [by apply Hf|done]. Qed.

Lemma appOk_setIsLoading b st : appOk st -> appOk (setIsLoading b st).
Proof. by apply appOk_frame. Qed.

Lemma appOk_setError e st : appOk st -> appOk (setError e st).
Proof. by apply appOk_frame. Qed.

Lemma handleGenerateClick_ok st w :
  appOk st -> appOk (after st (handleGenerateClick st env w)).1.
Proof.
  intros Hok. destruct (productPhoto st) as [product|] eqn:Hp.
  - rewrite (handleGenerateClick_run env _ _ _ Hp).
    destruct (submission product st env w).1 as [[|url urls]|e]; cbn [after fst];
      apply appOk_setIsLoading.
    + by repeat (apply appOk_setResults; [by intros _|]).
    + destruct Hok as [_ Hh]. split; [apply entriesAt_ok|].
      constructor; [apply entriesAt_ok|done].
    + apply appOk_setError. by apply appOk_setResults; [intros _|].
  - unfold handleGenerateClick. rewrite Hp. cbn. by apply appOk_setError.
Qed.

Lemma handleRefinement_ok resultId command st w :
  appOk st -> appOk (after st (handleRefinement resultId command st env w)).1.
Proof.
  intros Hok.
  destruct (list_find (fun r => id r = resultId) (results st)) as [[k cur]|] eqn:Hfind;
    [|by rewrite handleRefinement_skipped by auto].
  destruct (Js.truthy (Js.trim command)) eqn:Hcmd;
    [|by rewrite handleRefinement_skipped by auto].
  rewrite (handleRefinement_run env _ _ _ _ _ _ Hfind Hcmd). cbn [after fst].
  apply appOk_setIsLoading.
  match goal with |- context [match ?r with Normal _ => _ | Throw _ => _ end] =>
    destruct r as [newImageUrl|e] end.
  - apply appOk_setResults; [apply refineResults_ok|by apply appOk_setIsLoading].
  - by apply appOk_setError, appOk_setIsLoading.
Qed.

(** Every handler keeps every version pointer within its stack. *)
Lemma step_ok a sw : appOk sw.1 -> appOk (step env a sw).1.
Proof.
  destruct sw as [st w]. cbn [fst]. intros Hok. unfold step. cbn [fst snd].
  destruct a; cbn [handle].
  - by apply (appOk_frame st).
  - unfold handleModelPhotoChange. by destruct (Js.defined f); apply (appOk_frame st).
  - unfold handleReferencePhotoChange. by destruct (Js.defined f); apply (appOk_frame st).
  - by apply (appOk_frame st).
  - by apply (appOk_frame st).
  - by apply (appOk_frame st).
  - by apply handleGenerateClick_ok.
  - by apply handleRefinement_ok.
  - apply appOk_setResults; [|done]. apply onEntry_ok, undoEntry_ok.
  - apply appOk_setResults; [|done]. apply onEntry_ok, redoEntry_ok.
  - apply appOk_setResults; [|done]. apply onEntry_ok, promptEntry_ok.
  - destruct (history st !! n) as [item|] eqn:Hn; [|done]. cbn [after fst].
    apply appOk_setResults; [|done]. intros _.
    destruct Hok as [_ Hh]. by eapply Forall_lookup_1 in Hh.
Qed.

Lemma session_snoc acts a :
  session env (acts ++ [a]) = step env a (session env acts).
Proof. unfold session. by rewrite foldl_app. Qed.

Lemma session_ok acts : appOk (session env acts).1.
Proof.
  induction acts as [|a acts IH] using rev_ind.
  - split; constructor.
  - rewrite session_snoc. by apply step_ok.
Qed.

End Invariant.

(** C1. An entry with versions [A, B, C] and the pointer at 0 is refined
    with an answer carrying image [D]: the entry becomes versions [A, D],
    pointer 1, empty pending instruction, the other entries and the
    history are untouched, and no walk of undo and redo steps shows
    anything but [A] and [D] again. In general a refinement of an entry
    within bounds keeps the versions up to and including the pointer,
    appends the new image, points at it as the last version and clears
    the pending instruction. *)
Theorem refine_after_undo_discards_redo env w inst st resultId command resultIndex
    prompt A B C D response :
  clientOf env w = Some inst ->
  list_find (fun r => id r = resultId) (results st) =
    Some (resultIndex,
          {| id := resultId; imageHistory := [A; B; C]; currentIndex := 0;
             refinementPrompt := prompt |}) ->
  Js.truthy (Js.trim command) = true ->
  outcome (respond env (length (calls w)) (request [parsedImagePart A; textPart command]))
    = Fulfilled response ->
  imageUrl response = Normal (Some D) ->
  let refined :=
    {| id := resultId; imageHistory := [A; D]; currentIndex := 1; refinementPrompt := "" |} in
  (exists st',
     (handleRefinement resultId command st env w).1 = Normal st' /\
     results st' = <[resultIndex := refined]> (results st) /\
     history st' = history st) /\
  (forall ms, imageHistory (walk ms refined) = [A; D] /\ entryOk (walk ms refined)) /\
  (forall res newImage,
     entryOk res ->
     let res' := refineEntry newImage res in
     id res' = id res /\
     imageHistory res' =
       take (S (Z.to_nat (currentIndex res))) (imageHistory res) ++ [newImage] /\
     currentIndex res' = (Z.of_nat (length (imageHistory res')) - 1)%Z /\
     currentIndex res' = (currentIndex res + 1)%Z /\
     refinementPrompt res' = "").
Proof.
  intros Hc Hfind Hcmd Hout Himg refined. split; [|split].
  - pose proof (refine_step := handleRefinement_run env st w _ _ _ _ Hfind Hcmd).
    change (Js.at_index _ _) with (Some A) in refine_step.
    rewrite (refineImage_run env _ _ _ _ Hc), Hout, Himg in refine_step.
    rewrite refine_step. cbn [fst]. eexists. split; [reflexivity|].
    split; [|reflexivity]. cbn [results setIsLoading setResults].
    apply list_find_Some in Hfind as (Hk & _ & _).
    by rewrite (refineResults_insert _ _ _ _ Hk).
  - intros ms. rewrite walk_versions. split; [done|].
    apply walk_ok. unfold entryOk. cbn. lia.
  - intros res newImage Hok res'. subst res'.
    destruct (refineEntry_spec newImage res Hok) as [Hv Hc'].
    repeat split; done.
Qed.

Lemma refine_after_undo_discards_redo_witness :
  let st := Sample.withResults [Sample.entry ["A"; "B"; "C"] 0 "brighter"] in
  let run := handleRefinement "result-1700000000000-0" "brighter" st Sample.env initialWorld in
  clientOf Sample.env initialWorld = Some Sample.client /\
  exists st',
    run.1 = Normal st' /\
    results st' = [Sample.entry ["A"; "data:image/png;base64,0"] 1 ""].
Proof.
  intros st run. split; [reflexivity|]. subst run.
  destruct (refine_after_undo_discards_redo Sample.env initialWorld Sample.client st
              "result-1700000000000-0" "brighter" 0 "brighter" "A" "B" "C"
              "data:image/png;base64,0" (Sample.picture "0")
              eq_refl eq_refl eq_refl eq_refl eq_refl)
    as [(st' & Hrun & Hres & _) _].
  exists st'. split; [exact Hrun|exact Hres].
Defined.

(** C2. Undo moves the pointer of an entry to [max 0 (pointer - 1)] and
    redo to [min (length - 1) (pointer + 1)]; undo at 0 and redo at the
    last version change nothing; repeated undo stops at 0 and repeated
    redo at the last version, and no walk leaves the bounds. Creation,
    refinement and a change of the pending instruction yield entries
    within bounds, every handler keeps all entries on screen and in the
    history within bounds, and so they are within bounds along every
    session. *)
Theorem undo_redo_bounds env st w res :
  appOk st ->
  entryOk res ->
  let top := (Z.of_nat (length (imageHistory res)) - 1)%Z in
  currentIndex (undoEntry res) = Z.max 0 (currentIndex res - 1) /\
  currentIndex (redoEntry res) = Z.min top (currentIndex res + 1) /\
  (currentIndex res = 0%Z -> undoEntry res = res) /\
  (currentIndex res = top -> redoEntry res = res) /\
  (forall n, currentIndex (walk (replicate n Back) res)
             = Z.max 0 (currentIndex res - Z.of_nat n)) /\
  (forall n, currentIndex (walk (replicate n Forward) res)
             = Z.min top (currentIndex res + Z.of_nat n)) /\
  (forall ms, entryOk (walk ms res)) /\
  (forall now index url, entryOk (newResult now index url)) /\
  (forall newImage, entryOk (refineEntry newImage res)) /\
  (forall prompt, entryOk (promptEntry prompt res)) /\
  (forall k e, results st !! k = Some e ->
               results (handleUndo (id e) st) !! k = Some (undoEntry e) /\
               results (handleRedo (id e) st) !! k = Some (redoEntry e)) /\
  (forall a, appOk (step env a (st, w)).1) /\
  (forall acts, appOk (session env acts).1).
Proof.
  intros Hst Hres top.
  split; [reflexivity|]. split; [reflexivity|].
  split; [apply undoEntry_at_bottom|]. split; [apply redoEntry_at_top|].
  split; [intros n; apply undo_repeated, Hres|].
  split; [intros n; apply redo_repeated, Hres|].
  split; [intros ms; by apply walk_ok|].
  split; [apply newResult_ok|]. split; [intros; apply refineEntry_ok|].
  split; [intros; by apply promptEntry_ok|].
  split.
  - intros k e Hk. cbn [handleUndo handleRedo setResults results].
    rewrite !(onEntry_lookup _ _ _ _ _ Hk), bool_decide_eq_true_2 by done. done.
  - split; [intros a; by apply (step_ok env a (st, w))|apply session_ok].
Qed.

Lemma undo_redo_bounds_witness :
  let res := Sample.entry ["A"; "B"; "C"] 1 "" in
  let st := Sample.withResults [res] in
  appOk st /\ entryOk res /\
  currentIndex (walk [Back; Back; Back] res) = 0%Z /\
  currentIndex (walk [Forward; Forward; Forward] res) = 2%Z /\
  appOk (step Sample.env (ClickUndo (id res)) (st, initialWorld)).1.
Proof.
  intros res st.
  assert (Hres : entryOk res) by (unfold entryOk; cbn; lia).
  assert (Hst : appOk st)
    by (split; [apply List.Forall_cons; [exact Hres|apply List.Forall_nil]
               |apply List.Forall_nil]).
  destruct (undo_redo_bounds Sample.env st initialWorld res Hst Hres)
    as (_ & _ & _ & _ & Hback & Hforth & _ & _ & _ & _ & _ & Hstep & _).
  split; [exact Hst|]. split; [exact Hres|].
  split; [exact (Hback 3)|]. split; [exact (Hforth 3)|]. apply Hstep.
Defined.

(** ** The batch list *)

Section Batches.

Context (env : Env).

(** What a generation does to the history, by what [generatePhotos]
    returned. *)
Lemma generate_history st w product :
  productPhoto st = Some product ->
  let service := submission product st env w in
  let st' := (step env ClickGenerate (st, w)).1 in
  match service.1 with
  | Normal (url :: urls) =>
      let newResults := entriesAt env service.2 (url :: urls) in
      results st' = newResults /\
      history st' =
        newHistoryItem (clock env (ticks service.2 + length (url :: urls))) newResults
        :: history st
  | Normal [] => results st' = [] /\ history st' = history st
  | Throw e =>
      results st' = [] /\ history st' = history st /\ error st' = Some (errorMessage e)
  end.
Proof.
  intros Hp service st'. subst st'. unfold step. cbn [fst snd handle].
  rewrite (handleGenerateClick_run env _ _ _ Hp). fold service.
  destruct service.1 as [[|url urls]|e]; cbn; done.
Qed.

Lemma entriesAt_versions w urls :
  imageHistory <$> entriesAt env w urls = (fun url => [url]) <$> urls.
Proof.
  apply list_eq. intros i. unfold entriesAt.
  rewrite !list_lookup_fmap, list_lookup_imap. by destruct (urls !! i).
Qed.

Lemma entriesAt_fresh w urls res :
  res ∈ entriesAt env w urls ->
  currentIndex res = 0%Z /\ refinementPrompt res = "" /\ length (imageHistory res) = 1.
Proof.
  intros (i & Hi)%list_elem_of_lookup_1. unfold entriesAt in Hi.
  rewrite list_lookup_imap in Hi. destruct (urls !! i); [|done].
  by injection Hi as <-.
Qed.

End Batches.

(** C9 as worded fails when a generation returns no image: the handler
    records a batch only for a non-empty result. With a reference photo
    and an answer of words only the generation returns the empty
    sequence and the history stays empty. *)
Lemma generation_without_images_records_no_batch :
  ~ recordsBatch Sample.barren
      (handleReferencePhotoChange (Sample.upload Sample.style)
         (setProductPhoto (Sample.upload Sample.product) initialApp))
      initialWorld.
Proof.
  intros Hbatch.
  destruct (Hbatch _ [] _ eq_refl eq_refl) as (item & Hhist & _).
  vm_compute in Hhist. discriminate Hhist.
Qed.

(** C9, amended. A generation that returns at least one image puts at the
    front of the history one new item, holding exactly the entries now on
    screen: one per returned image, in order, each with that image as its
    only version, the pointer at 0 and no pending instruction; the older
    items follow unchanged, so the list is ordered most recent first. A
    generation that returns no image leaves the history as it was. *)
Theorem generation_records_batch env st w product urls w1 :
  productPhoto st = Some product ->
  submission product st env w = (Normal urls, w1) ->
  let st' := (step env ClickGenerate (st, w)).1 in
  (urls <> [] ->
   exists item,
     history st' = item :: history st /\
     itemResults item = results st' /\
     imageHistory <$> itemResults item = (fun url => [url]) <$> urls /\
     Forall (fun res => currentIndex res = 0%Z /\ refinementPrompt res = "")
       (itemResults item)) /\
  (urls = [] -> history st' = history st /\ results st' = []).
Proof.
  intros Hp Hrun st'. pose proof (generate_history env st w product Hp) as Hgen.
  cbv zeta in Hgen. rewrite Hrun in Hgen. cbn [fst snd] in Hgen. fold st' in Hgen.
  split.
  - intros Hne. destruct urls as [|url urls]; [done|].
    destruct Hgen as [Hres Hhist]. eexists. split; [exact Hhist|].
    cbn [itemResults newHistoryItem]. split; [done|].
    split; [apply entriesAt_versions|].
    apply Forall_forall. intros res Hin.
    by destruct (entriesAt_fresh _ _ _ _ Hin) as (? & ? & _).
  - intros ->. by destruct Hgen.
Qed.

Lemma generation_records_batch_witness :
  let st := setProductPhoto (Sample.upload Sample.product) initialApp in
  let st' := (step Sample.env ClickGenerate (st, initialWorld)).1 in
  productPhoto st = Sample.upload Sample.product /\
  exists item,
    history st' = item :: history st /\
    imageHistory <$> itemResults item =
      [["data:image/png;base64,0"]; ["data:image/png;base64,1"]; ["data:image/png;base64,3"]].
Proof.
  intros st st'. split; [reflexivity|].
  destruct (generation_records_batch Sample.env st initialWorld
              {| file := Sample.product; previewUrl := "blob:preview" |}
              ["data:image/png;base64,0"; "data:image/png;base64,1"; "data:image/png;base64,3"]
              (logCalls (replicate 4
                 (requestOf Sample.product None None "Studio" "" ""))
                 (keepClient Sample.client initialWorld))
              eq_refl eq_refl)
    as [Hsome _].
  destruct (Hsome ltac:(discriminate)) as (item & Hhist & _ & Hvers & _).
  exists item. split; [exact Hhist|exact Hvers].
Defined.

(** ** The store: cells are never overwritten *)

Section Store.

Lemma lookup_extended (s s' : Heap.Store) l c :
  s `prefix_of` s' -> s !! l = Some c -> s' !! l = Some c.
Proof. intros Hpre Hl. by eapply prefix_lookup_Some. Qed.

Lemma extended_alloc (s : Heap.Store) c : s `prefix_of` s ++ [c].
Proof. by apply prefix_app_r. Qed.

Lemma viewEntry_extended s s' l e :
  s `prefix_of` s' -> Heap.viewEntry s l = Some e -> Heap.viewEntry s' l = Some e.
Proof.
  intros Hpre. unfold Heap.viewEntry.
  destruct (s !! l) as [[| i h c p | | |]|] eqn:Hl; try done.
  destruct (s !! h) as [[a| | | |]|] eqn:Hh; try done.
  by rewrite (lookup_extended _ _ _ _ Hpre Hl), (lookup_extended _ _ _ _ Hpre Hh).
Qed.

Lemma mapM_extended {A B} (f f' : A -> option B) (a : list A) (bs : list B) :
  (forall x y, f x = Some y -> f' x = Some y) ->
  mapM f a = Some bs -> mapM f' a = Some bs.
Proof.
  intros Hf Hm. apply mapM_Some. apply mapM_Some in Hm.
  eapply Forall2_impl; [exact Hm|]. exact Hf.
Qed.

Lemma viewResults_extended s s' l rs :
  s `prefix_of` s' -> Heap.viewResults s l = Some rs -> Heap.viewResults s' l = Some rs.
Proof.
  intros Hpre. unfold Heap.viewResults.
  destruct (s !! l) as [[| | a | |]|] eqn:Hl; try done.
  rewrite (lookup_extended _ _ _ _ Hpre Hl).
  apply mapM_extended. intros x y. by apply viewEntry_extended.
Qed.

Lemma viewItem_extended s s' l item :
  s `prefix_of` s' -> Heap.viewItem s l = Some item -> Heap.viewItem s' l = Some item.
Proof.
  intros Hpre. unfold Heap.viewItem.
  destruct (s !! l) as [[| | | i r |]|] eqn:Hl; try done.
  rewrite (lookup_extended _ _ _ _ Hpre Hl).
  destruct (Heap.viewResults s r) as [rs|] eqn:Hr; [|done].
  by rewrite (viewResults_extended _ _ _ _ Hpre Hr).
Qed.

Lemma viewHistory_extended s s' l hs :
  s `prefix_of` s' -> Heap.viewHistory s l = Some hs -> Heap.viewHistory s' l = Some hs.
Proof.
  intros Hpre. unfold Heap.viewHistory.
  destruct (s !! l) as [[| | | | a]|] eqn:Hl; try done.
  rewrite (lookup_extended _ _ _ _ Hpre Hl).
  apply mapM_extended. intros x y. by apply viewItem_extended.
Qed.

Lemma lookup_fresh (s : Heap.Store) c : (s ++ [c]) !! length s = Some c.
Proof. by rewrite lookup_app_r, Nat.sub_diag. Qed.

(** A new object over an array already in the store. *)
Lemma viewEntry_alloc s i h c p a :
  s !! h = Some (Heap.StringArray a) ->
  Heap.viewEntry (s ++ [Heap.ResultObject i h c p]) (length s) =
  Some {| id := i; imageHistory := a; currentIndex := c; refinementPrompt := p |}.
Proof.
  intros Hh. unfold Heap.viewEntry. rewrite lookup_fresh.
  by rewrite (lookup_extended _ _ _ _ (extended_alloc s _) Hh).
Qed.

Lemma viewEntry_inv s l e :
  Heap.viewEntry s l = Some e ->
  exists h,
    s !! l = Some (Heap.ResultObject (id e) h (currentIndex e) (refinementPrompt e)) /\
    s !! h = Some (Heap.StringArray (imageHistory e)).
Proof.
  unfold Heap.viewEntry.
  destruct (s !! l) as [[| i h c p | | |]|] eqn:Hl; try done.
  destruct (s !! h) as [[a| | | |]|] eqn:Hh; try done.
  intros [= <-]. eauto.
Qed.

End Store.

(** ** Store operations compute the updaters of the handlers *)

Section Simulation.

Lemma undoRef_tracks resultId :
  tracks (fun _ => Heap.undoRef resultId)
         (fun _ e => if String.eqb (id e) resultId then undoEntry e else e).
Proof.
  intros _ l s e Hv. destruct (viewEntry_inv _ _ _ Hv) as (h & Hl & Hh).
  unfold Heap.undoRef, Heap.hbind, Heap.loadResult. rewrite Hl.
  destruct (String.eqb (id e) resultId).
  - eexists _, _. split; [reflexivity|]. split; [apply extended_alloc|].
    by apply viewEntry_alloc.
  - eexists _, _. by split; [reflexivity|].
Qed.

Lemma redoRef_tracks resultId :
  tracks (fun _ => Heap.redoRef resultId)
         (fun _ e => if String.eqb (id e) resultId then redoEntry e else e).
Proof.
  intros _ l s e Hv. destruct (viewEntry_inv _ _ _ Hv) as (h & Hl & Hh).
  unfold Heap.redoRef, Heap.hbind, Heap.loadResult. rewrite Hl.
  destruct (String.eqb (id e) resultId).
  - unfold Heap.loadStrings. rewrite Hh.
    eexists _, _. split; [reflexivity|]. split; [apply extended_alloc|].
    by apply viewEntry_alloc.
  - eexists _, _. by split; [reflexivity|].
Qed.

Lemma promptRef_tracks resultId prompt :
  tracks (fun _ => Heap.promptRef resultId prompt)
         (fun _ e => if String.eqb (id e) resultId then promptEntry prompt e else e).
Proof.
  intros _ l s e Hv. destruct (viewEntry_inv _ _ _ Hv) as (h & Hl & Hh).
  unfold Heap.promptRef, Heap.hbind, Heap.loadResult. rewrite Hl.
  destruct (String.eqb (id e) resultId).
  - eexists _, _. split; [reflexivity|]. split; [apply extended_alloc|].
    by apply viewEntry_alloc.
  - eexists _, _. by split; [reflexivity|].
Qed.

(** The copy made by [slice] is the array that [push] updates: the
    arrays that existed before are left alone. *)
Lemma refineRef_tracks resultIndex newImageUrl :
  tracks (Heap.refineRef resultIndex newImageUrl)
         (fun index e =>
            if bool_decide (index ≠ resultIndex) then e else refineEntry newImageUrl e).
Proof.
  intros i l s e Hv. unfold Heap.refineRef.
  destruct (bool_decide (i ≠ resultIndex)).
  { eexists _, _. by split; [reflexivity|]. }
  destruct (viewEntry_inv _ _ _ Hv) as (h & Hl & Hh).
  unfold Heap.hbind, Heap.loadResult, Heap.loadStrings, Heap.alloc, Heap.push.
  rewrite Hl, Hh, lookup_fresh.
  eexists _, _. split; [reflexivity|].
  set (copy := Js.slice0 (imageHistory e) (currentIndex e + 1)).
  assert (<[length s := Heap.StringArray (copy ++ [newImageUrl])]>
            (s ++ [Heap.StringArray copy]) = s ++ [Heap.StringArray (copy ++ [newImageUrl])])
    as ->.
  { rewrite <- (Nat.add_0_r (length s)) at 1. by rewrite insert_app_r. }
  split.
  - by do 2 apply prefix_app_r.
  - unfold Heap.viewEntry. rewrite lookup_fresh.
    rewrite lookup_app_l by (rewrite length_app; cbn; lia).
    rewrite lookup_fresh. reflexivity.
Qed.

Lemma mapFrom_tracks f g :
  tracks f g ->
  forall ls es i s,
    Forall2 (fun l e => Heap.viewEntry s l = Some e) ls es ->
    exists ls' s',
      Heap.mapFrom f i ls s = Some (ls', s') /\ s `prefix_of` s' /\
      Forall2 (fun l e => Heap.viewEntry s' l = Some e) ls' (imap (fun k => g (i + k)) es).
Proof.
  intros Hfg ls. induction ls as [|l ls IH]; intros es i s Hall.
  - apply Forall2_nil_inv_l in Hall as ->. eexists _, _.
    split; [reflexivity|]. split; [done|constructor].
  - apply Forall2_cons_inv_l in Hall as (e & es' & Hl & Hall & ->).
    destruct (Hfg i l s e Hl) as (l' & s1 & Hrun & Hpre1 & Hv1).
    assert (Hall1 : Forall2 (fun l e => Heap.viewEntry s1 l = Some e) ls es').
    { eapply Forall2_impl; [exact Hall|]. intros ? ?. by apply viewEntry_extended. }
    destruct (IH es' (S i) s1 Hall1) as (ls' & s2 & Hrest & Hpre2 & Hv2).
    exists (l' :: ls'), s2. split; [|split].
    + cbn [Heap.mapFrom]. unfold Heap.hbind. rewrite Hrun, Hrest. reflexivity.
    + by etrans.
    + rewrite imap_cons, Nat.add_0_r. constructor.
      * by apply (viewEntry_extended s1).
      * erewrite imap_ext; [exact Hv2|]. intros k x _. cbn. f_equal. lia.
Qed.

Lemma viewResults_inv s l rs :
  Heap.viewResults s l = Some rs ->
  exists a, s !! l = Some (Heap.ResultArray a) /\
            Forall2 (fun l e => Heap.viewEntry s l = Some e) a rs.
Proof.
  unfold Heap.viewResults.
  destruct (s !! l) as [[| | a | |]|]; try done.
  intros Hm%mapM_Some. eauto.
Qed.

Lemma viewResults_alloc s a rs :
  Forall2 (fun l e => Heap.viewEntry s l = Some e) a rs ->
  Heap.viewResults (s ++ [Heap.ResultArray a]) (length s) = Some rs.
Proof.
  intros Hall. unfold Heap.viewResults. rewrite lookup_fresh.
  apply mapM_Some. eapply Forall2_impl; [exact Hall|].
  intros ? ?. apply viewEntry_extended, extended_alloc.
Qed.

(** [updateEntries] builds a new array; the references it does not
    replace are shared with the old one. *)
Lemma updateEntries_tracks f g r s rs :
  tracks f g ->
  Heap.viewResults s (Heap.resultsRef r) = Some rs ->
  exists r' s',
    Heap.updateEntries f r s = Some (r', s') /\ s `prefix_of` s' /\
    Heap.viewResults s' (Heap.resultsRef r') = Some (imap g rs) /\
    Heap.historyRef r' = Heap.historyRef r /\
    length s <= Heap.resultsRef r'.
Proof.
  intros Hfg (a & Hl & Hall)%viewResults_inv.
  destruct (mapFrom_tracks f g Hfg a rs 0 s Hall) as (a' & s1 & Hrun & Hpre & Hv).
  unfold Heap.updateEntries, Heap.hbind, Heap.loadResults. rewrite Hl, Hrun.
  eexists _, _. split; [reflexivity|]. cbn [Heap.resultsRef Heap.historyRef].
  split; [by apply prefix_app_r|]. split; [|split; [done|by apply prefix_length]].
  by apply viewResults_alloc.
Qed.

End Simulation.

Section Replay.

Lemma imap_ignore {A B} (h : A -> B) (l : list A) : imap (fun _ x => h x) l = h <$> l.
Proof. exact (imap_const h l). Qed.

Lemma view_inv s r v :
  Heap.view s r = Some v ->
  Heap.viewResults s (Heap.resultsRef r) = Some v.1 /\
  Heap.viewHistory s (Heap.historyRef r) = Some v.2.
Proof.
  unfold Heap.view.
  destruct (Heap.viewResults s _) as [rs|]; [|done].
  destruct (Heap.viewHistory s _) as [hs|]; [|done].
  by intros [= <-].
Qed.

Lemma view_intro s r rs hs :
  Heap.viewResults s (Heap.resultsRef r) = Some rs ->
  Heap.viewHistory s (Heap.historyRef r) = Some hs ->
  Heap.view s r = Some (rs, hs).
Proof. unfold Heap.view. by intros -> ->. Qed.

Lemma viewHistory_inv s l hs :
  Heap.viewHistory s l = Some hs ->
  exists a, s !! l = Some (Heap.HistoryArray a) /\
            Forall2 (fun l item => Heap.viewItem s l = Some item) a hs.
Proof.
  unfold Heap.viewHistory.
  destruct (s !! l) as [[| | | | a]|]; try done.
  intros Hm%mapM_Some. eauto.
Qed.

Lemma viewItem_inv s l item :
  Heap.viewItem s l = Some item ->
  exists rs, s !! l = Some (Heap.HistoryObject (itemId item) rs) /\
             Heap.viewResults s rs = Some (itemResults item).
Proof.
  unfold Heap.viewItem.
  destruct (s !! l) as [[| | | i rs |]|]; try done.
  destruct (Heap.viewResults s rs) as [es|] eqn:Hes; [|done].
  intros [= <-]. exists rs. by split.
Qed.

(** An edit of the current results: new array, same history reference. *)
Lemma edit_replay f g r s v :
  tracks f g ->
  Heap.view s r = Some v ->
  exists r' s',
    Heap.updateEntries f r s = Some (r', s') /\ s `prefix_of` s' /\
    Heap.view s' r' = Some (imap g v.1, v.2) /\
    Heap.historyRef r' = Heap.historyRef r /\ length s <= Heap.resultsRef r'.
Proof.
  intros Hfg [Hrs Hhs]%view_inv.
  destruct (updateEntries_tracks f g r s _ Hfg Hrs) as (r' & s' & Hrun & Hpre & Hv & Hh & Hnew).
  exists r', s'. split; [done|]. split; [done|]. split; [|done].
  apply view_intro; [done|]. rewrite Hh. by apply (viewHistory_extended s).
Qed.

Lemma allocResult_run e s :
  exists l s',
    Heap.allocResult e s = Some (l, s') /\ s `prefix_of` s' /\
    Heap.viewEntry s' l = Some e.
Proof.
  unfold Heap.allocResult, Heap.hbind, Heap.alloc.
  eexists _, _. split; [reflexivity|]. split; [by do 2 apply prefix_app_r|].
  erewrite viewEntry_alloc by apply lookup_fresh. by destruct e.
Qed.

Lemma allocResults_run entries i s :
  exists objs s',
    Heap.mapFrom (fun _ => Heap.allocResult) i entries s = Some (objs, s') /\
    s `prefix_of` s' /\
    Forall2 (fun l e => Heap.viewEntry s' l = Some e) objs entries.
Proof.
  revert i s. induction entries as [|e entries IH]; intros i s.
  - eexists _, _. split; [reflexivity|]. split; [done|constructor].
  - destruct (allocResult_run e s) as (l & s1 & Hrun & Hpre1 & Hv).
    destruct (IH (S i) s1) as (objs & s2 & Hrest & Hpre2 & Hall).
    exists (l :: objs), s2. split; [|split].
    + cbn [Heap.mapFrom]. unfold Heap.hbind. by rewrite Hrun, Hrest.
    + by etrans.
    + constructor; [by apply (viewEntry_extended s1)|done].
Qed.

Lemma generated_replay entries historyId r s v :
  Heap.view s r = Some v ->
  exists r' s',
    Heap.generated entries historyId r s = Some (r', s') /\ s `prefix_of` s' /\
    Heap.view s' r' = Some (replay (Heap.Generated entries historyId) v).
Proof.
  intros [_ Hhs]%view_inv. destruct (viewHistory_inv _ _ _ Hhs) as (items & Hl & Hitems).
  unfold Heap.generated, Heap.hbind at 1, Heap.cleared, Heap.hbind at 1, Heap.alloc at 1.
  unfold Heap.hret at 1. unfold Heap.hbind at 1.
  set (s0 := s ++ [Heap.ResultArray []]).
  assert (Hpre0 : s `prefix_of` s0) by apply extended_alloc.
  destruct (allocResults_run entries 0 s0) as (objs & s1 & -> & Hpre1 & Hall).
  unfold Heap.hbind at 1, Heap.alloc at 1.
  set (s2 := s1 ++ [Heap.ResultArray objs]).
  assert (Hpre2 : s `prefix_of` s2) by (etrans; [|apply extended_alloc]; by etrans).
  assert (Hnew : Heap.viewResults s2 (length s1) = Some entries)
    by (by apply viewResults_alloc).
  rewrite (Forall2_length _ _ _ Hall). cbn [replay].
  destruct (0 <? length entries)%nat.
  - unfold Heap.hbind at 1, Heap.alloc at 1, Heap.hbind at 1, Heap.loadItems.
    cbn [Heap.historyRef].
    set (s3 := s2 ++ [Heap.HistoryObject historyId (length s1)]).
    assert (Hpre3 : s `prefix_of` s3) by (etrans; [exact Hpre2|apply extended_alloc]).
    rewrite (lookup_extended _ _ _ _ Hpre3 Hl).
    unfold Heap.hbind, Heap.alloc, Heap.hret.
    eexists _, _. split; [reflexivity|].
    split; [etrans; [exact Hpre3|apply extended_alloc]|].
    assert (Hpre4 : s3 `prefix_of` s3 ++ [Heap.HistoryArray (length s2 :: items)])
      by apply extended_alloc.
    apply view_intro; cbn [Heap.resultsRef Heap.historyRef].
    + apply (viewResults_extended s2); [|done].
      etrans; [apply extended_alloc|exact Hpre4].
    + unfold Heap.viewHistory. rewrite lookup_fresh. apply mapM_Some. constructor.
      * apply (viewItem_extended s3); [done|].
        unfold Heap.viewItem. subst s3. rewrite lookup_fresh.
        by rewrite (viewResults_extended s2 _ _ _ (extended_alloc _ _) Hnew).
      * eapply Forall2_impl; [exact Hitems|]. intros ? ?.
        apply viewItem_extended. by etrans.
  - unfold Heap.hret. eexists _, _. split; [reflexivity|]. split; [done|].
    apply view_intro; cbn [Heap.resultsRef Heap.historyRef]; [done|].
    by apply (viewHistory_extended s).
Qed.

Lemma cleared_replay r s v :
  Heap.view s r = Some v ->
  exists r' s',
    Heap.cleared r s = Some (r', s') /\ s `prefix_of` s' /\
    Heap.view s' r' = Some (replay Heap.GenerationFailed v).
Proof.
  intros [_ Hhs]%view_inv. unfold Heap.cleared, Heap.hbind, Heap.alloc, Heap.hret.
  eexists _, _. split; [reflexivity|]. split; [apply extended_alloc|].
  apply view_intro; cbn [Heap.resultsRef Heap.historyRef].
  - by apply viewResults_alloc.
  - apply (viewHistory_extended s); [apply extended_alloc|done].
Qed.

(** A click on a history card hands the stored array itself to
    [setResults]: nothing is allocated. *)
Lemma selected_replay n r s v :
  Heap.view s r = Some v ->
  exists r',
    Heap.selected n r s = Some (r', s) /\
    Heap.view s r' = Some (replay (Heap.Selected n) v).
Proof.
  intros Hview. destruct (view_inv _ _ _ Hview) as [Hrs Hhs].
  destruct (viewHistory_inv _ _ _ Hhs) as (items & Hl & Hitems).
  unfold Heap.selected, Heap.hbind at 1, Heap.loadItems. rewrite Hl. cbn [replay].
  destruct (items !! n) as [l|] eqn:Hn.
  - destruct (Forall2_lookup_l _ _ _ _ _ Hitems Hn) as (item & -> & Hitem).
    destruct (viewItem_inv _ _ _ Hitem) as (rs & Hobj & Hres).
    unfold Heap.hbind, Heap.loadItem. rewrite Hobj. unfold Heap.hret.
    eexists. split; [reflexivity|]. by apply view_intro.
  - assert (v.2 !! n = None) as ->.
    { apply lookup_ge_None. rewrite <- (Forall2_length _ _ _ Hitems).
      by apply lookup_ge_None. }
    exists r. split; [reflexivity|]. by destruct v.
Qed.

(** Every store operation succeeds on a store that reads back, leaves
    every cell in place and shows what the updaters compute. *)
Lemma exec_replay o r s v :
  Heap.view s r = Some v ->
  exists r' s',
    Heap.exec o r s = Some (r', s') /\ s `prefix_of` s' /\
    Heap.view s' r' = Some (replay o v) /\
    (editsResults o = true ->
     Heap.historyRef r' = Heap.historyRef r /\ length s <= Heap.resultsRef r').
Proof.
  intros Hview. destruct o as [rid|rid|rid p|k u|es hid| |n]; cbn [Heap.exec replay editsResults].
  - destruct (edit_replay _ _ r s v (undoRef_tracks rid) Hview)
      as (r' & s' & ? & ? & Hv & ? & ?).
    rewrite imap_ignore in Hv. by exists r', s'.
  - destruct (edit_replay _ _ r s v (redoRef_tracks rid) Hview)
      as (r' & s' & ? & ? & Hv & ? & ?).
    rewrite imap_ignore in Hv. by exists r', s'.
  - destruct (edit_replay _ _ r s v (promptRef_tracks rid p) Hview)
      as (r' & s' & ? & ? & Hv & ? & ?).
    rewrite imap_ignore in Hv. by exists r', s'.
  - destruct (edit_replay _ _ r s v (refineRef_tracks k u) Hview)
      as (r' & s' & ? & ? & Hv & ? & ?).
    by exists r', s'.
  - destruct (generated_replay es hid r s v Hview) as (r' & s' & ? & ? & ?).
    by exists r', s'.
  - destruct (cleared_replay r s v Hview) as (r' & s' & ? & ? & ?).
    by exists r', s'.
  - destruct (selected_replay n r s v Hview) as (r' & ? & ?).
    by exists r', s.
Qed.

Lemma execAll_replay os r s v :
  Heap.view s r = Some v ->
  exists r' s',
    Heap.execAll os r s = Some (r', s') /\ s `prefix_of` s' /\
    Heap.view s' r' = Some (replayAll os v).
Proof.
  revert r s v. induction os as [|o os IH]; intros r s v Hview.
  - by exists r, s.
  - destruct (exec_replay o r s v Hview) as (r1 & s1 & Hrun & Hpre1 & Hv1 & _).
    destruct (IH r1 s1 _ Hv1) as (r2 & s2 & Hrest & Hpre2 & Hv2).
    exists r2, s2. split; [|split; [by etrans|done]].
    cbn [Heap.execAll]. unfold Heap.hbind. by rewrite Hrun.
Qed.

End Replay.

(** ** The handlers are the store operations *)

Section Screen.

Context (env : Env).

(** What an action does to the results and the history is what its store
    operations do. *)
Lemma step_screen a st w :
  screen (step env a (st, w)).1 = replayAll (opsOf env a st w) (screen st).
Proof.
  unfold step. cbn [fst snd].
  destruct a as [f|f|f|theme|v|v| |resultId command|resultId|resultId|resultId prompt|n];
    cbn [handle opsOf]; try reflexivity.
  - unfold handleModelPhotoChange. by destruct (Js.defined f).
  - unfold handleReferencePhotoChange. by destruct (Js.defined f).
  - destruct (productPhoto st) as [product|] eqn:Hp.
    + rewrite (handleGenerateClick_run env _ _ _ Hp).
      destruct (submission product st env w) as [[[|url urls]|e] w1]; reflexivity.
    + unfold handleGenerateClick. by rewrite Hp.
  - destruct (list_find (fun r => id r = resultId) (results st)) as [[k cur]|] eqn:Hfind;
      [|by rewrite handleRefinement_skipped by auto].
    destruct (Js.truthy (Js.trim command)) eqn:Hcmd;
      [|by rewrite handleRefinement_skipped by auto].
    rewrite (handleRefinement_run env _ _ _ _ _ _ Hfind Hcmd).
    by destruct (refineImage _ command env w).1.
  - unfold replayAll, screen. cbn. by destruct (history st !! n).
Qed.

(** The store follows the application, action by action. *)
Lemma step_in_store a st w r s :
  Heap.view s r = Some (screen st) ->
  exists r' s',
    Heap.execAll (opsOf env a st w) r s = Some (r', s') /\ s `prefix_of` s' /\
    Heap.view s' r' = Some (screen (step env a (st, w)).1).
Proof.
  intros Hview. rewrite step_screen. by apply execAll_replay.
Qed.

Lemma session_in_store acts :
  exists r s, Heap.view s r = Some (screen (session env acts).1).
Proof.
  induction acts as [|a acts (r & s & IH)] using rev_ind.
  - by exists Heap.initialRefs, Heap.initialStore.
  - rewrite session_snoc. destruct (session env acts) as [st w].
    destruct (step_in_store a st w r s IH) as (r' & s' & _ & _ & Hview). eauto.
Qed.

Lemma edits_of_action a st w :
  match a with
  | ClickRefine _ _ | ClickUndo _ | ClickRedo _ | TypeRefinementPrompt _ _ =>
      Forall (fun o => editsResults o = true) (opsOf env a st w)
  | _ => True
  end.
Proof.
  destruct a as [| | | | | | |resultId command| | | |]; try done;
    cbn [opsOf]; try by repeat constructor.
  destruct (list_find _ _) as [[k cur]|]; [|constructor].
  destruct (Js.truthy _); [|constructor].
  destruct (refineImage _ _ _ _).1; by repeat constructor.
Qed.

End Screen.

Section Snapshot.

Lemma replay_edit_history o v : editsResults o = true -> (replay o v).2 = v.2.
Proof. by destruct o. Qed.

Lemma execAll_edits os r s r' s' :
  Forall (fun o => editsResults o = true) os ->
  (exists v, Heap.view s r = Some v) ->
  Heap.execAll os r s = Some (r', s') ->
  Heap.historyRef r' = Heap.historyRef r /\
  (os <> [] -> length s <= Heap.resultsRef r').
Proof.
  intros Hos. revert r s. induction Hos as [|o os Ho _ IH]; intros r s [v Hview] Hrun.
  - injection Hrun as <- <-. done.
  - destruct (exec_replay o r s v Hview) as (r1 & s1 & Hrun1 & Hpre1 & Hv1 & Hedit).
    cbn [Heap.execAll] in Hrun. unfold Heap.hbind in Hrun. rewrite Hrun1 in Hrun.
    destruct (Hedit Ho) as [Hh1 Hnew1].
    destruct (IH r1 s1 (ex_intro _ _ Hv1) Hrun) as [Hh2 Hnew2].
    split; [congruence|]. intros _.
    destruct os as [|o' os'].
    + injection Hrun as <- <-. done.
    + specialize (Hnew2 ltac:(done)). apply prefix_length in Hpre1. lia.
Qed.

End Snapshot.

(** C10. Once a history item is in the store, what it holds is never
    changed by later operations: any sequence of store operations
    succeeds, leaves every cell that existed in place, and the item reads
    back as before, with the versions, pointer and pending instruction of
    each of its entries. Refinement, undo, redo and a change of the
    pending instruction, which are the store operations of the four
    handlers, build a new array of current results, and new objects for
    the entries they change, in cells that did not exist before, and keep
    the reference to the history: the history shown is the same list. So
    the items are independent snapshots although the array of a new item
    is the very array first shown as the current results. *)
Theorem recorded_batch_is_immutable s r v b item os :
  Heap.view s r = Some v ->
  Heap.viewItem s b = Some item ->
  exists r' s',
    Heap.execAll os r s = Some (r', s') /\
    s `prefix_of` s' /\
    Heap.viewItem s' b = Some item /\
    Heap.view s' r' = Some (replayAll os v) /\
    (Forall (fun o => editsResults o = true) os ->
     Heap.historyRef r' = Heap.historyRef r /\
     (replayAll os v).2 = v.2 /\
     (os <> [] -> length s <= Heap.resultsRef r')) /\
    (forall env a st w,
       screen st = v ->
       replayAll (opsOf env a st w) v = screen (step env a (st, w)).1 /\
       match a with
       | ClickRefine _ _ | ClickUndo _ | ClickRedo _ | TypeRefinementPrompt _ _ =>
           Forall (fun o => editsResults o = true) (opsOf env a st w)
       | _ => True
       end).
Proof.
  intros Hview Hitem.
  destruct (execAll_replay os r s v Hview) as (r' & s' & Hrun & Hpre & Hv').
  exists r', s'. split; [done|]. split; [done|].
  split; [by apply (viewItem_extended s)|]. split; [done|]. split.
  - intros Hos. destruct (execAll_edits os r s r' s' Hos (ex_intro _ _ Hview) Hrun) as [Hh Hnew].
    split; [done|]. split; [|done].
    clear -Hos. revert v. induction Hos as [|o os Ho _ IH]; intros v; [done|].
    unfold replayAll in *. cbn [foldl]. rewrite IH. by apply replay_edit_history.
  - intros env a st w <-. split; [by rewrite step_screen|apply edits_of_action].
Qed.

Lemma recorded_batch_is_immutable_witness :
  let entries := [newResult 1700000000000 0 "A"; newResult 1700000000000 1 "B"] in
  let batch := {| itemId := "history-1700000000001"; itemResults := entries |} in
  let s :=
    [ Heap.ResultArray []; Heap.HistoryArray []; Heap.ResultArray [];
      Heap.StringArray ["A"]; Heap.ResultObject "result-1700000000000-0" 3 0 "";
      Heap.StringArray ["B"]; Heap.ResultObject "result-1700000000000-1" 5 0 "";
      Heap.ResultArray [4; 6]; Heap.HistoryObject "history-1700000000001" 7;
      Heap.HistoryArray [8] ] in
  let r := {| Heap.resultsRef := 7; Heap.historyRef := 9 |} in
  let os := [Heap.Refined 0 "D"; Heap.Undo "result-1700000000000-0";
             Heap.Prompt "result-1700000000000-1" "warmer"; Heap.Redo "result-1700000000000-0"] in
  Heap.execAll [Heap.Generated entries "history-1700000000001"]
    Heap.initialRefs Heap.initialStore = Some (r, s) /\
  Heap.view s r = Some (entries, [batch]) /\
  Heap.viewItem s 8 = Some batch /\
  exists r' s',
    Heap.execAll os r s = Some (r', s') /\
    Heap.viewItem s' 8 = Some batch /\
    Heap.view s' r' =
      Some ([ {| id := "result-1700000000000-0"; imageHistory := ["A"; "D"];
                 currentIndex := 1; refinementPrompt := "" |};
              {| id := "result-1700000000000-1"; imageHistory := ["B"];
                 currentIndex := 0; refinementPrompt := "warmer" |} ],
            [batch]).
Proof.
  intros entries batch s r os.
  split; [reflexivity|]. split; [reflexivity|]. split; [reflexivity|].
  destruct (recorded_batch_is_immutable s r (entries, [batch]) 8 batch os eq_refl eq_refl)
    as (r' & s' & Hrun & _ & Hitem & Hview & _).
  exists r', s'. split; [exact Hrun|]. split; [exact Hitem|exact Hview].
Defined.

(** ** The embedding on concrete inputs *)

Example reference_wins_over_model :
  (generatePhotos Sample.product (Some Sample.person) (Some Sample.style)
     "None" "" "soft light" Sample.env initialWorld).1
  = Normal ["data:image/png;base64,0"].
Proof. reflexivity. Qed.

Example reference_instruction :
  withClauses referencePrompt (finalThemeOf "None" "Neon") "soft light"
  = "Generate 1 product photo that matches the style of the reference photo. The logo, text, shape, and product color must not be altered. The theme should be: Neon. Additional instructions: soft light.".
Proof. reflexivity. Qed.

Example no_theme_no_extra :
  withClauses productPrompt (finalThemeOf "None" "") "" = productPrompt.
Proof. reflexivity. Qed.

Example one_rejection_loses_the_batch :
  let run := generatePhotos Sample.product None None "Studio" "" "" Sample.offline initialWorld in
  run.1 = Throw (JsError "fetch failed") /\ length (calls run.2) = 4.
Proof. split; reflexivity. Qed.

Example missing_key_stops_before_any_call :
  let env := {| API_KEY := None; respond := respond Sample.env; clock := clock Sample.env |} in
  generatePhotos Sample.product None None "Studio" "" "" env initialWorld
  = (Throw (JsError "API_KEY environment variable is not set."), initialWorld).
Proof. reflexivity. Qed.

Example blank_instruction_is_not_sent :
  let st := Sample.withResults [Sample.entry ["A"] 0 "   "] in
  handleRefinement "result-1700000000000-0" "   " st Sample.env initialWorld
  = (Normal st, initialWorld).
Proof. reflexivity. Qed.

Example no_break_space_is_not_sent :
  let st := Sample.withResults [Sample.entry ["A"] 0 ""] in
  Js.trim Sample.noBreakSpace = "" /\
  handleRefinement "result-1700000000000-0" Sample.noBreakSpace st Sample.env initialWorld
  = (Normal st, initialWorld).
Proof. split; reflexivity. Qed.

Example trim_strips_both_ends :
  Js.trim (Sample.spaces +:+ "warmer  light" +:+ Sample.spaces) = "warmer  light".
Proof. reflexivity. Qed.

(** U+0085 and U+00E9 are no white space. *)
Example trim_keeps_other_characters :
  Js.trim (String "194" (String "133" EmptyString)) = String "194" (String "133" EmptyString) /\
  Js.trim (" caf" +:+ String "195" (String "169" EmptyString) +:+ " ")
  = "caf" +:+ String "195" (String "169" EmptyString).
Proof. split; reflexivity. Qed.

Example refined_image_goes_back_as_sent :
  parsedImagePart "data:image/png;base64,UFJPRA=="
  = {| inlineData :=
         Some {| data := Js.Present "UFJPRA=="; mimeType := Js.Present "image/png" |};
       text := None |}.
Proof. reflexivity. Qed.

(** After a generation the array of the new history item is the array
    of the current results, one and the same cell. *)
Example new_item_shares_the_results_array :
  exists r s item,
    Heap.generated [newResult 1700000000000 0 "A"] "history-1700000000001"
      Heap.initialRefs Heap.initialStore = Some (r, s) /\
    s !! Heap.historyRef r = Some (Heap.HistoryArray [item]) /\
    s !! item = Some (Heap.HistoryObject "history-1700000000001" (Heap.resultsRef r)).
Proof. eexists _, _, _. split; [reflexivity|]. split; reflexivity. Qed.

(** ** What one action does to the world *)

Section World.

Context (env : Env).

Lemma advance_0 w : advance 0 w = w.
Proof. destruct w as [a c t]. unfold advance. cbn. f_equal. lia. Qed.

Lemma logCalls_nil w : logCalls [] w = w.
Proof. destruct w as [a c t]. unfold logCalls. cbn. by rewrite app_nil_r. Qed.

Lemma submission_run product st w :
  submission product st env w =
  match clientOf env w with
  | None => (Throw (JsError "API_KEY environment variable is not set."), w)
  | Some inst =>
      let req :=
        requestOf (file product) (file <$> modelPhoto st) (file <$> referencePhoto st)
          (activeTheme st) (customTheme st) (additionalCommands st) in
      let n := callCount (file <$> referencePhoto st) in
      (match firstRejection (promisesOf env w n req) with
       | Some (_, e) => Throw e
       | None => collect (omap fulfilledValue (promisesOf env w n req))
       end,
       logCalls (replicate n req) (keepClient inst w))
  end.
Proof.
  unfold submission. destruct (clientOf env w) as [inst|] eqn:Hc.
  - by rewrite (generatePhotos_run env _ _ _ _ _ _ _ _ Hc).
  - by apply generatePhotos_unavailable.
Qed.

Lemma refineImage_cases image command w :
  refineImage image command env w =
  match clientOf env w, image with
  | None, _ => (Throw (JsError "API_KEY environment variable is not set."), w)
  | Some inst, None => (Throw (JsError undefinedReadMessage), keepClient inst w)
  | Some inst, Some url =>
      let req := request [parsedImagePart url; textPart command] in
      (match outcome (respond env (length (calls w)) req) with
       | Fulfilled response =>
           match imageUrl response with
           | Normal (Some newImageUrl) => Normal newImageUrl
           | Normal None => Throw (JsError "Failed to refine image.")
           | Throw e => Throw e
           end
       | RejectedWith e => Throw e
       end,
       logCalls [req] (keepClient inst w))
  end.
Proof.
  destruct (clientOf env w) as [inst|] eqn:Hc.
  - destruct image as [url|].
    + by apply refineImage_run.
    + by apply refineImage_undefined.
  - by apply refineImage_unavailable.
Qed.

Lemma element_not_null {A} (o : option A) : Js.element o <> Js.Null.
Proof. by destruct o. Qed.

Lemma fileToGenerativePart_imageOnly f : imageOnly (fileToGenerativePart f).
Proof.
  eexists _, _. split; [reflexivity|]. split; [reflexivity|]. apply element_not_null.
Qed.

Lemma parsedImagePart_imageOnly url : imageOnly (parsedImagePart url).
Proof.
  eexists _, _. split; [reflexivity|]. split; [reflexivity|]. apply element_not_null.
Qed.

Lemma requestOf_ok productPhoto modelPhoto referencePhoto theme customTheme additionalCommands :
  requestOk (requestOf productPhoto modelPhoto referencePhoto theme customTheme additionalCommands).
Proof.
  unfold requestOk, requestOf. split; [done|]. split; [done|].
  destruct referencePhoto as [r|]; [|destruct modelPhoto as [m|]].
  - exists [fileToGenerativePart productPhoto; fileToGenerativePart r]. eexists.
    split; [reflexivity|]. split; [cbn; lia|].
    repeat constructor; apply fileToGenerativePart_imageOnly.
  - exists [fileToGenerativePart productPhoto; fileToGenerativePart m]. eexists.
    split; [reflexivity|]. split; [cbn; lia|].
    repeat constructor; apply fileToGenerativePart_imageOnly.
  - exists [fileToGenerativePart productPhoto]. eexists.
    split; [reflexivity|]. split; [cbn; lia|].
    repeat constructor; apply fileToGenerativePart_imageOnly.
Qed.

Lemma refineRequest_ok url command :
  requestOk (request [parsedImagePart url; textPart command]).
Proof.
  split; [done|]. split; [done|]. exists [parsedImagePart url], command.
  split; [reflexivity|]. split; [cbn; lia|].
  repeat constructor. apply parsedImagePart_imageOnly.
Qed.

(** The world after an action: the client that was needed is kept, some
    well-formed requests are logged, the clock has been read. *)
Lemma step_world a st w :
  exists reqs k w0,
    (step env a (st, w)).2 = advance k (logCalls reqs w0) /\
    (w0 = w \/ exists inst, clientOf env w = Some inst /\ w0 = keepClient inst w) /\
    Forall requestOk reqs /\
    (length reqs = 0 \/ length reqs = 1 \/ length reqs = 4) /\
    (callsService a = false -> reqs = [] /\ k = 0 /\ w0 = w).
Proof.
  assert (Hsame : exists reqs k w0,
             w = advance k (logCalls reqs w0) /\
             (w0 = w \/ exists inst, clientOf env w = Some inst /\ w0 = keepClient inst w) /\
             Forall requestOk reqs /\
             (length reqs = 0 \/ length reqs = 1 \/ length reqs = 4) /\
             (callsService a = false -> reqs = [] /\ k = 0 /\ w0 = w)).
  { exists [], 0, w. rewrite logCalls_nil, advance_0.
    split; [done|]. split; [by left|]. split; [constructor|]. split; [by left|done]. }
  unfold step. cbn [fst snd].
  destruct a as [f|f|f|theme|v|v| |resultId command|resultId|resultId|resultId prompt|n];
    cbn [handle]; try exact Hsame.
  - destruct (productPhoto st) as [product|] eqn:Hp;
      [|unfold handleGenerateClick; rewrite Hp; exact Hsame].
    rewrite (handleGenerateClick_run env _ _ _ Hp), submission_run.
    destruct (clientOf env w) as [inst|] eqn:Hc; [|exact Hsame].
    cbv zeta. cbn [fst snd].
    set (req := requestOf _ _ _ _ _ _).
    set (n := callCount _).
    assert (Hn : n = 1 \/ n = 4).
    { subst n. unfold callCount. destruct (Js.defined _); auto. }
    assert (Hshape : forall k, exists reqs k' w0,
               advance k (logCalls (replicate n req) (keepClient inst w))
                 = advance k' (logCalls reqs w0) /\
               (w0 = w \/ exists inst', Some inst = Some inst' /\ w0 = keepClient inst' w) /\
               Forall requestOk reqs /\
               (length reqs = 0 \/ length reqs = 1 \/ length reqs = 4) /\
               (callsService ClickGenerate = false -> reqs = [] /\ k' = 0 /\ w0 = w)).
    { intros k. exists (replicate n req), k, (keepClient inst w).
      split; [done|]. split; [right; eauto|].
      split; [apply Forall_replicate, requestOf_ok|].
      rewrite length_replicate. split; [lia|done]. }
    destruct (firstRejection _) as [[t e]|].
    + cbn [after snd]. rewrite <- (advance_0 (logCalls _ _)). apply Hshape.
    + destruct (collect _) as [[|url urls]|e]; cbn [after snd].
      * rewrite <- (advance_0 (logCalls _ _)). apply Hshape.
      * apply Hshape.
      * rewrite <- (advance_0 (logCalls _ _)). apply Hshape.
  - destruct (list_find (fun r => id r = resultId) (results st)) as [[i cur]|] eqn:Hfind;
      [|rewrite handleRefinement_skipped by auto; exact Hsame].
    destruct (Js.truthy (Js.trim command)) eqn:Hcmd;
      [|rewrite handleRefinement_skipped by auto; exact Hsame].
    rewrite (handleRefinement_run env _ _ _ _ _ _ Hfind Hcmd), refineImage_cases.
    cbn [after snd].
    destruct (clientOf env w) as [inst|] eqn:Hc; [|exact Hsame].
    destruct (Js.at_index _ _) as [url|]; cbv zeta; cbn [snd].
    + eexists [_], 0, (keepClient inst w). rewrite advance_0.
      split; [reflexivity|]. split; [right; eauto|].
      split; [repeat constructor; apply refineRequest_ok|]. split; [cbn; lia|done].
    + exists [], 0, (keepClient inst w). rewrite advance_0, logCalls_nil.
      split; [reflexivity|]. split; [right; eauto|].
      split; [constructor|]. split; [by left|done].
  - destruct (history st !! n); exact Hsame.
Qed.

Lemma fileToGenerativePart_reads f payload :
  reads f payload -> fileToGenerativePart f = inlineImage (type f) payload.
Proof.
  intros (header & Hurl & Hheader & Hpayload).
  unfold fileToGenerativePart, inlineImage. rewrite Hurl.
  change (header +:+ "," +:+ payload) with (header +:+ String "," payload).
  by rewrite split_found, split_lacks.
Qed.

(** The requests of a generation that gets its client. *)
Lemma generate_calls product st w inst :
  productPhoto st = Some product ->
  clientOf env w = Some inst ->
  calls (step env ClickGenerate (st, w)).2 =
  calls w ++
    replicate (callCount (file <$> referencePhoto st))
      (requestOf (file product) (file <$> modelPhoto st) (file <$> referencePhoto st)
         (activeTheme st) (customTheme st) (additionalCommands st)).
Proof.
  intros Hp Hc. unfold step. cbn [fst snd handle].
  rewrite (handleGenerateClick_run env _ _ _ Hp), submission_run, Hc.
  cbv zeta. cbn [fst snd].
  destruct (firstRejection _) as [[t e]|]; [done|].
  by destruct (collect _) as [[|url urls]|e].
Qed.



End World.

(** ** The calls of a generation and what comes back *)

(** X17. With a reference photo, whatever the model photo, a generation
    that has its client sends exactly one request to the image model:
    the payload and type of the product photo, those of the reference
    photo, and the reference instruction with its clauses as a text. A
    rejected call rejects the generation with the same reason. An answer
    whose content has no parts makes it throw the [TypeError] of
    [parts.find]. Any other answer gives the empty result when it
    carries no image and otherwise the one data URL of its first inline
    payload. *)
Theorem generate_reference_mode env w inst productPhoto modelPhoto referencePhoto
    theme customTheme additionalCommands productData referenceData :
  clientOf env w = Some inst ->
  reads productPhoto productData ->
  reads referencePhoto referenceData ->
  let req :=
    {| model := "gemini-2.5-flash-image";
       contents :=
         [inlineImage (type productPhoto) productData;
          inlineImage (type referencePhoto) referenceData;
          {| inlineData := None;
             text :=
               Some (withClauses
                       "Generate 1 product photo that matches the style of the reference photo. The logo, text, shape, and product color must not be altered."
                       (finalThemeOf theme customTheme) additionalCommands) |}];
       responseModalities := [IMAGE; TEXT] |} in
  let run :=
    generatePhotos productPhoto modelPhoto (Some referencePhoto)
      theme customTheme additionalCommands env w in
  calls run.2 = calls w ++ [req] /\
  match outcome (respond env (length (calls w)) req) with
  | RejectedWith e => run.1 = Throw e
  | Fulfilled response =>
      match answerParts response, payloadOf response with
      | Some Js.Undefined, _ =>
          run.1 = Throw (JsError "Cannot read properties of undefined (reading 'find')")
      | Some Js.Null, _ =>
          run.1 = Throw (JsError "Cannot read properties of null (reading 'find')")
      | _, Some b =>
          run.1 =
          Normal ["data:" +:+ Js.render (mimeType b) +:+ ";base64," +:+ Js.render (data b)]
      | _, None => run.1 = Normal []
      end
  end.
Proof.
  intros Hc Hproduct Hreference req run. subst run.
  rewrite (generatePhotos_run env _ _ _ _ _ _ _ _ Hc).
  assert (requestOf productPhoto modelPhoto (Some referencePhoto)
            theme customTheme additionalCommands = req) as ->.
  { unfold requestOf, instructionText.
    by rewrite (fileToGenerativePart_reads _ _ Hproduct),
      (fileToGenerativePart_reads _ _ Hreference). }
  split; [reflexivity|].
  cbn [callCount Js.defined fst]. unfold promisesOf.
  cbn [seq fmap list_fmap firstRejection omap list_omap]. rewrite Nat.add_0_r.
  unfold fulfilledValue.
  destruct (outcome (respond env (length (calls w)) req)) as [response|e]; [|reflexivity].
  cbn [omap list_omap].
  destruct (partless response) eqn:Hp.
  - unfold collect. cbn [mapThrowing]. unfold imageUrl, findImagePart.
    unfold partless, answerParts in *.
    destruct (candidates response) as [cs|]; [|done]. cbn in *.
    destruct (cs !! 0%nat) as [c|]; [|done]. cbn in *.
    destruct (content c) as [ct|]; [|done]. cbn in *.
    by destruct (parts ct) as [| |ps].
  - rewrite collect_images by (by repeat constructor).
    cbn [omap list_omap]. unfold imageOf, partless in *.
    destruct (answerParts response) as [[| |ps]|]; try done;
      by destruct (payloadOf response) as [b|].
Qed.

Lemma generate_reference_mode_witness :
  let run :=
    generatePhotos Sample.product (Some Sample.person) (Some Sample.style)
      "Luxury" "" "" Sample.env initialWorld in
  clientOf Sample.env initialWorld = Some Sample.client /\
  reads Sample.product "UFJPRA==" /\
  reads Sample.style "U1RZTEU=" /\
  calls run.2 =
    [ {| model := "gemini-2.5-flash-image";
         contents :=
           [inlineImage "image/png" "UFJPRA=="; inlineImage "image/webp" "U1RZTEU=";
            {| inlineData := None;
               text := Some "Generate 1 product photo that matches the style of the reference photo. The logo, text, shape, and product color must not be altered. The theme should be: Luxury." |}];
         responseModalities := [IMAGE; TEXT] |} ] /\
  run.1 = Normal ["data:image/png;base64,0"].
Proof.
  assert (Hproduct : reads Sample.product "UFJPRA==")
    by (exists "data:image/png;base64"; repeat split; reflexivity).
  assert (Hstyle : reads Sample.style "U1RZTEU=")
    by (exists "data:image/webp;base64"; repeat split; reflexivity).
  split; [reflexivity|]. split; [exact Hproduct|]. split; [exact Hstyle|].
  destruct (generate_reference_mode Sample.env initialWorld Sample.client
              Sample.product (Some Sample.person) Sample.style "Luxury" "" ""
              "UFJPRA==" "U1RZTEU=" eq_refl Hproduct Hstyle)
    as [Hcalls Hres].
  split; [exact Hcalls|exact Hres].
Defined.

(** X18. Without a reference photo, a generation that has its client
    sends exactly four requests to the image model, all of them the
    same: the payload and type of the product photo, those of the model
    photo when one is given, and one text, which is the model
    instruction or the product instruction with its clauses. When a
    call is rejected the generation is rejected with the reason of the
    rejection that settles first. When the four calls are answered and
    every answer has its parts, the result is the images of the
    answers, at most four; when some content has no parts the
    generation throws the [TypeError] of [parts.find], for the first
    such answer in the order of the calls. *)
Theorem generate_four_calls env w inst productPhoto modelPhoto
    theme customTheme additionalCommands productData modelData :
  clientOf env w = Some inst ->
  reads productPhoto productData ->
  (forall m, modelPhoto = Some m -> reads m modelData) ->
  let instruction :=
    withClauses
      (if Js.defined modelPhoto
       then "Generate a professional photo of the provided model holding or wearing the product. Add supporting props to make the photo more appealing. It is absolutely crucial that the model's face remains consistent and unchanged from the source photo. Do not alter the facial features. Create a unique variation with a different body pose, facial expression, lighting, composition, or camera angle."
       else "Generate a professional variation of the product in the image with different lighting, composition, and camera angles. Add supporting props to make the product photo more appealing.")
      (finalThemeOf theme customTheme) additionalCommands in
  let req :=
    {| model := "gemini-2.5-flash-image";
       contents :=
         inlineImage (type productPhoto) productData
         :: match modelPhoto with
            | Some m => [inlineImage (type m) modelData]
            | None => []
            end
         ++ [{| inlineData := None; text := Some instruction |}];
       responseModalities := [IMAGE; TEXT] |} in
  let run :=
    generatePhotos productPhoto modelPhoto None theme customTheme additionalCommands env w in
  let promises := (fun i => respond env (length (calls w) + i) req) <$> [0; 1; 2; 3] in
  calls run.2 = calls w ++ [req; req; req; req] /\
  (forall p e,
     p ∈ promises -> outcome p = RejectedWith e ->
     exists q e',
       q ∈ promises /\ outcome q = RejectedWith e' /\ run.1 = Throw e' /\
       forall q' e'', q' ∈ promises -> outcome q' = RejectedWith e'' ->
                      settledAt q <= settledAt q') /\
  (forall responses,
     Forall2 (fun p r => outcome p = Fulfilled r) promises responses ->
     (Forall (fun r => partless r = false) responses ->
      run.1 = Normal (omap imageOf responses) /\ length (omap imageOf responses) <= 4) /\
     (forall pre r post,
        responses = pre ++ r :: post ->
        Forall (fun r => partless r = false) pre ->
        partless r = true ->
        exists what,
          (what = "undefined" \/ what = "null") /\
          run.1 =
          Throw (JsError ("Cannot read properties of " +:+ what +:+ " (reading 'find')")))).
Proof.
  intros Hc Hproduct Hmodel instruction req run promises. subst run.
  rewrite (generatePhotos_run env _ _ _ _ _ _ _ _ Hc).
  assert (requestOf productPhoto modelPhoto None theme customTheme additionalCommands = req)
    as ->.
  { unfold requestOf, instructionText. subst req instruction.
    rewrite (fileToGenerativePart_reads _ _ Hproduct).
    destruct modelPhoto as [m|]; [|reflexivity].
    by rewrite (fileToGenerativePart_reads _ _ (Hmodel m eq_refl)). }
  change (promisesOf env w (callCount None) req) with promises.
  split; [reflexivity|]. cbn [fst]. split.
  - intros p e Hp He.
    destruct (firstRejection_some_rejected _ _ _ Hp He) as (t & e' & Hfirst).
    rewrite Hfirst.
    destruct (firstRejection_earliest _ _ _ Hfirst) as [(q & Hq & Hout & <-) Hmin].
    exists q, e'. eauto.
  - intros responses Hall.
    destruct (firstRejection_all_fulfilled _ _ Hall) as [-> ->]. split.
    + intros Hparts. rewrite (collect_images _ Hparts). split; [reflexivity|].
      etrans; [apply omap_length_le|].
      apply Forall2_length in Hall. by rewrite <- Hall.
    + intros pre r post -> Hpre Hr.
      destruct (collect_partless _ _ post Hpre Hr) as (e & He & ->).
      destruct (imageUrl_partless _ Hr) as [Hu|Hu]; rewrite Hu in He;
        injection He as <-; eexists; (split; [|reflexivity]); auto.
Qed.

Lemma generate_four_calls_witness :
  let run :=
    generatePhotos Sample.product (Some Sample.person) None "Studio" "" ""
      Sample.env initialWorld in
  clientOf Sample.env initialWorld = Some Sample.client /\
  reads Sample.product "UFJPRA==" /\
  reads Sample.person "TU9ERUw=" /\
  length (calls run.2) = 4 /\
  run.1 = Normal ["data:image/png;base64,0"; "data:image/png;base64,1";
                  "data:image/png;base64,3"].
Proof.
  assert (Hproduct : reads Sample.product "UFJPRA==")
    by (exists "data:image/png;base64"; repeat split; reflexivity).
  assert (Hperson : reads Sample.person "TU9ERUw=")
    by (exists "data:image/jpeg;base64"; repeat split; reflexivity).
  split; [reflexivity|]. split; [exact Hproduct|]. split; [exact Hperson|].
  destruct (generate_four_calls Sample.env initialWorld Sample.client
              Sample.product (Some Sample.person) "Studio" "" "" "UFJPRA==" "TU9ERUw="
              eq_refl Hproduct)
    as (Hcalls & _ & Hres).
  { by intros m [= <-]. }
  split; [by rewrite Hcalls|].
  destruct (Hres [Sample.picture "0"; Sample.picture "1"; Sample.wordsOnly; Sample.picture "3"])
    as [Himages _]; [repeat constructor|].
  destruct Himages as [-> _]; [by repeat constructor|reflexivity].
Defined.



(** ** Requests, client and clock along a session *)

(** X1. Every request a session ever issues is well formed: it names the
    image model, asks for both modalities and carries one or two inline
    images followed by exactly one text. *)
Theorem every_request_well_formed env acts :
  Forall requestOk (calls (session env acts).2).
Proof.
  induction acts as [|a acts IH] using rev_ind; [constructor|].
  rewrite session_snoc. destruct (session env acts) as [st w]. cbn [snd] in IH.
  destruct (step_world env a st w) as (reqs & k & w0 & -> & Hw0 & Hreqs & _).
  cbn [advance logCalls calls]. apply Forall_app. split; [|done].
  by destruct Hw0 as [->|(inst & _ & ->)].
Qed.

(** X2. Selecting photos, choosing or typing a theme, typing commands,
    undo, redo, typing a refinement and opening a history card leave the
    world untouched: no request, no client built, no clock reading. An
    action issues none, one or four requests, appended to the log. *)
Theorem only_generate_and_refine_call env a st w :
  (callsService a = false -> (step env a (st, w)).2 = w) /\
  exists reqs,
    calls (step env a (st, w)).2 = calls w ++ reqs /\
    (length reqs = 0 \/ length reqs = 1 \/ length reqs = 4).
Proof.
  destruct (step_world env a st w) as (reqs & k & w0 & Hw & Hw0 & _ & Hlen & Hquiet).
  split.
  - intros Ha. destruct (Hquiet Ha) as (-> & -> & ->).
    by rewrite Hw, logCalls_nil, advance_0.
  - exists reqs. split; [|done]. rewrite Hw. cbn [advance logCalls calls].
    by destruct Hw0 as [->|(inst & _ & ->)].
Qed.

Lemma only_generate_and_refine_call_witness :
  let st := Sample.withResults [Sample.entry ["A"; "B"] 1 ""] in
  (step Sample.env (ClickUndo "result-1700000000000-0") (st, initialWorld)).2 = initialWorld.
Proof.
  intros st.
  exact (proj1 (only_generate_and_refine_call Sample.env
                  (ClickUndo "result-1700000000000-0") st initialWorld) eq_refl).
Defined.


(** ** The uploads and the theme along a session *)

Section Inputs.

Context (env : Env).

(** Generation, refinement, undo, redo, prompts and history clicks do not
    touch the uploads, the theme or the commands. *)
Lemma step_keeps_inputs a st w :
  match a with
  | SelectProductPhoto _ | SelectModelPhoto _ | SelectReferencePhoto _
  | ClickTheme _ | TypeCustomTheme _ | TypeAdditionalCommands _ => True
  | _ =>
      let st' := (step env a (st, w)).1 in
      productPhoto st' = productPhoto st /\
      modelPhoto st' = modelPhoto st /\
      referencePhoto st' = referencePhoto st /\
      activeTheme st' = activeTheme st /\
      customTheme st' = customTheme st /\
      additionalCommands st' = additionalCommands st
  end.
Proof.
  unfold step. cbn [fst snd].
  destruct a as [f|f|f|theme|v|v| |resultId command|resultId|resultId|resultId prompt|n];
    cbn [handle]; try done.
  - destruct (productPhoto st) as [product|] eqn:Hp.
    + rewrite (handleGenerateClick_run env _ _ _ Hp).
      destruct (submission product st env w).1 as [[|url urls]|e]; done.
    + unfold handleGenerateClick. by rewrite Hp.
  - destruct (list_find (fun r => id r = resultId) (results st)) as [[i cur]|] eqn:Hfind;
      [|by rewrite handleRefinement_skipped by auto].
    destruct (Js.truthy (Js.trim command)) eqn:Hcmd;
      [|by rewrite handleRefinement_skipped by auto].
    rewrite (handleRefinement_run env _ _ _ _ _ _ Hfind Hcmd).
    by destruct (refineImage _ command env w).1.
  - by destruct (history st !! n).
Qed.

Lemma handleModelPhotoChange_exclusive f st : exclusive (handleModelPhotoChange f st).
Proof. unfold exclusive, handleModelPhotoChange. destruct f; cbn; auto. Qed.

Lemma handleReferencePhotoChange_exclusive f st :
  exclusive (handleReferencePhotoChange f st).
Proof. unfold exclusive, handleReferencePhotoChange. destruct f; cbn; auto. Qed.

Lemma step_exclusive a st w : exclusive st -> exclusive (step env a (st, w)).1.
Proof.
  intros Hex. pose proof (step_keeps_inputs a st w) as Hkeep.
  destruct a; try (destruct Hkeep as (_ & Hm & Hr & _); unfold exclusive; by rewrite Hm, Hr).
  - exact Hex.
  - apply handleModelPhotoChange_exclusive.
  - apply handleReferencePhotoChange_exclusive.
  - exact Hex.
  - exact Hex.
  - exact Hex.
Qed.


End Inputs.

(** X4. A model photo and a reference photo are never held together:
    each of the two upload handlers clears the other photo when it sets
    its own, from any state, so along every session at most one is set.
    A model photo on the form is therefore always the one used: a click
    on Generate then sends, after the requests sent before, four times
    the same request to the image model, carrying the payload and type
    of the product photo, those of the model photo and one text. *)
Theorem photos_exclusive env acts :
  (forall st f,
     exclusive (handleModelPhotoChange f st) /\
     exclusive (handleReferencePhotoChange f st)) /\
  exclusive (session env acts).1 /\
  (forall product m inst productData modelData,
     let sw := session env acts in
     productPhoto sw.1 = Some product ->
     modelPhoto sw.1 = Some m ->
     clientOf env sw.2 = Some inst ->
     reads (file product) productData ->
     reads (file m) modelData ->
     exists t,
       calls (step env ClickGenerate sw).2 =
       calls sw.2 ++
         replicate 4
           {| model := "gemini-2.5-flash-image";
              contents :=
                [inlineImage (type (file product)) productData;
                 inlineImage (type (file m)) modelData;
                 {| inlineData := None; text := Some t |}];
              responseModalities := [IMAGE; TEXT] |}).
Proof.
  assert (Hsession : exclusive (session env acts).1).
  { induction acts as [|a acts IH] using rev_ind; [by left|].
    rewrite session_snoc. destruct (session env acts) as [st w].
    by apply step_exclusive. }
  split; [|split; [done|]].
  - intros st f. split;
      [apply handleModelPhotoChange_exclusive|apply handleReferencePhotoChange_exclusive].
  - intros product m inst productData modelData sw Hp Hm Hc Hpd Hmd. subst sw.
    destruct (session env acts) as [st w]. cbn [fst snd] in *.
    rewrite (generate_calls env _ _ _ _ Hp Hc).
    destruct Hsession as [Hnone|Hnone]; [congruence|].
    rewrite Hnone, Hm. cbn [fmap option_fmap option_map callCount Js.defined].
    unfold requestOf, request, textPart, flashImage, numberOfImages.
    rewrite (fileToGenerativePart_reads _ _ Hpd), (fileToGenerativePart_reads _ _ Hmd).
    eexists. reflexivity.
Qed.


Lemma photos_exclusive_witness :
  let acts := [SelectProductPhoto (Sample.upload Sample.product);
               SelectReferencePhoto (Sample.upload Sample.style);
               SelectModelPhoto (Sample.upload Sample.person)] in
  let sw := session Sample.env acts in
  modelPhoto sw.1 = Sample.upload Sample.person /\
  referencePhoto sw.1 = None /\
  reads Sample.product "UFJPRA==" /\
  reads Sample.person "TU9ERUw=" /\
  exists t,
    calls (step Sample.env ClickGenerate sw).2 =
    replicate 4
      {| model := "gemini-2.5-flash-image";
         contents := [inlineImage "image/png" "UFJPRA=="; inlineImage "image/jpeg" "TU9ERUw=";
                      {| inlineData := None; text := Some t |}];
         responseModalities := [IMAGE; TEXT] |}.
Proof.
  intros acts sw.
  assert (Hproduct : reads Sample.product "UFJPRA==")
    by (exists "data:image/png;base64"; repeat split; reflexivity).
  assert (Hperson : reads Sample.person "TU9ERUw=")
    by (exists "data:image/jpeg;base64"; repeat split; reflexivity).
  split; [reflexivity|]. split; [reflexivity|]. split; [exact Hproduct|].
  split; [exact Hperson|].
  destruct (photos_exclusive Sample.env acts) as (_ & _ & Hmode).
  exact (Hmode {| file := Sample.product; previewUrl := "blob:preview" |}
           {| file := Sample.person; previewUrl := "blob:preview" |}
           Sample.client "UFJPRA==" "TU9ERUw=" eq_refl eq_refl eq_refl Hproduct Hperson).
Defined.

(** ** Failures of the service as the handlers report them *)

(** X6. Without an API key and without a client already built, nothing
    reaches the network. A generation reports ["API_KEY environment
    variable is not set."], empties the results and keeps the history; a
    refinement that passes its guard reports ["Failed to refine the
    image."] and keeps results and history; the loading flag is lowered
    in both cases. *)
Theorem missing_key_blocks_service env st w :
  clientOf env w = None ->
  (forall product,
     productPhoto st = Some product ->
     let r := step env ClickGenerate (st, w) in
     r.2 = w /\ results r.1 = [] /\ history r.1 = history st /\
     isLoading r.1 = false /\
     error r.1 = Some "API_KEY environment variable is not set.") /\
  (forall resultId command resultIndex currentResult,
     list_find (fun r => id r = resultId) (results st) = Some (resultIndex, currentResult) ->
     Js.truthy (Js.trim command) = true ->
     let r := step env (ClickRefine resultId command) (st, w) in
     r.2 = w /\ results r.1 = results st /\ history r.1 = history st /\
     isLoading r.1 = false /\
     error r.1 = Some "Failed to refine the image.").
Proof.
  intros Hc. split.
  - intros product Hp r. subst r. unfold step. cbn [fst snd handle].
    rewrite (handleGenerateClick_run env _ _ _ Hp), submission_run, Hc. done.
  - intros resultId command resultIndex currentResult Hfind Hcmd r. subst r.
    unfold step. cbn [fst snd handle].
    rewrite (handleRefinement_run env _ _ _ _ _ _ Hfind Hcmd), refineImage_cases, Hc. done.
Qed.

Lemma missing_key_blocks_service_witness :
  let env := {| API_KEY := Some ""; respond := respond Sample.env; clock := clock Sample.env |} in
  let st := setProductPhoto (Sample.upload Sample.product)
              (Sample.withResults [Sample.entry ["A"] 0 ""]) in
  clientOf env initialWorld = None /\
  (step env ClickGenerate (st, initialWorld)).2 = initialWorld /\
  error (step env ClickGenerate (st, initialWorld)).1
    = Some "API_KEY environment variable is not set.".
Proof.
  intros env st. split; [reflexivity|].
  destruct (missing_key_blocks_service env st initialWorld eq_refl) as [Hgen _].
  destruct (Hgen {| file := Sample.product; previewUrl := "blob:preview" |} eq_refl)
    as (Hw & _ & _ & _ & Herr).
  split; [exact Hw|exact Herr].
Defined.

(** X7. A generation fails exactly when no client can be had, at least
    one of its calls is rejected, or at least one of them is answered
    with a content that has no parts; an answer that has its parts and no
    image among them never fails it. A failed generation leaves the results empty, whatever was on
    screen before, keeps the history and shows the message of the
    exception; a generation that returns clears the error and shows one
    entry per returned image. The loading flag is lowered either way. *)
Theorem generation_outcome env st w product :
  productPhoto st = Some product ->
  let service := submission product st env w in
  let r := step env ClickGenerate (st, w) in
  let promises :=
    promisesOf env w (callCount (file <$> referencePhoto st))
      (requestOf (file product) (file <$> modelPhoto st) (file <$> referencePhoto st)
         (activeTheme st) (customTheme st) (additionalCommands st)) in
  isLoading r.1 = false /\
  match service.1 with
  | Throw e =>
      results r.1 = [] /\ history r.1 = history st /\
      error r.1 = Some (errorMessage e) /\ r.2 = service.2
  | Normal urls =>
      error r.1 = None /\ imageHistory <$> results r.1 = (fun url => [url]) <$> urls
  end /\
  ((exists e, service.1 = Throw e) <->
   clientOf env w = None \/
   (exists p e, p ∈ promises /\ outcome p = RejectedWith e) \/
   (exists p response ct,
      p ∈ promises /\ outcome p = Fulfilled response /\
      (exists cs c, candidates response = Some cs /\ cs !! 0%nat = Some c /\
                    content c = Some ct) /\
      (parts ct = Js.Undefined \/ parts ct = Js.Null))).
Proof.
  intros Hp service r promises. subst r. unfold step. cbn [fst snd handle].
  rewrite (handleGenerateClick_run env _ _ _ Hp). fold service.
  split; [by destruct service.1 as [[|url urls]|e]|]. split.
  - destruct service.1 as [[|url urls]|e] eqn:Hs; cbn [after fst snd]; try done.
    split; [done|]. cbn [results setIsLoading setHistory setResults].
    apply entriesAt_versions.
  - subst service promises. rewrite submission_run. cbv zeta.
    set (promises := promisesOf _ _ _ _).
    destruct (clientOf env w) as [inst|]; cbn [fst].
    + destruct (firstRejection promises) as [[t e]|] eqn:Hf.
      * split; [|eauto]. intros _. right. left.
        destruct (firstRejection_earliest _ _ _ Hf) as [(p & Hin & Hout & _) _]. eauto.
      * split.
        -- intros [e (r & Hin & Hr & _)%collect_throws]. right. right.
           apply list_elem_of_omap in Hin as (p & Hin & Hval).
           unfold fulfilledValue in Hval.
           destruct (outcome p) as [r'|] eqn:Hout; [|done]. injection Hval as ->.
           apply partless_parts in Hr as (cs & c & ct & Hcs & Hc & Hct & Hparts).
           exists p, r, ct. eauto 10.
        -- intros [?|[(p & e & Hin & Hout)|(p & r & ct & Hin & Hout & Hct & Hparts)]];
             [done| |].
           ++ destruct (firstRejection_some_rejected _ _ _ Hin Hout) as (t & e' & ?).
              congruence.
           ++ destruct Hct as (cs & c & Hcs & Hc & Hct).
              assert (Hr : partless r = true)
                by (apply partless_parts; eauto 10).
              assert (Hin' : r ∈ omap fulfilledValue promises).
              { apply list_elem_of_omap. exists p. split; [done|].
                unfold fulfilledValue. by rewrite Hout. }
              destruct (collect_cases (omap fulfilledValue promises))
                as [(urls & _ & Hall)|[e He]]; [|eauto].
              rewrite Forall_forall in Hall. specialize (Hall _ Hin'). congruence.
    + split; eauto.
Qed.

Lemma generation_outcome_witness :
  let st := setProductPhoto (Sample.upload Sample.product)
              (Sample.withResults [Sample.entry ["A"; "B"] 1 "warmer"]) in
  let r := step Sample.offline ClickGenerate (st, initialWorld) in
  productPhoto st = Sample.upload Sample.product /\
  results r.1 = [] /\ error r.1 = Some "fetch failed" /\ isLoading r.1 = false.
Proof.
  intros st r. split; [reflexivity|]. subst r.
  destruct (generation_outcome Sample.offline st initialWorld
              {| file := Sample.product; previewUrl := "blob:preview" |} eq_refl)
    as (Hload & Hout & _).
  change (submission _ st Sample.offline initialWorld).1
    with (@Throw (list string) (JsError "fetch failed")) in Hout.
  destruct Hout as (Hres & _ & Herr & _).
  split; [exact Hres|]. split; [exact Herr|exact Hload].
Defined.

(** ** Data URLs, blank instructions *)

Section Blank.

Lemma code_inv a n : Js.code a = n -> a = ascii_of_N n.
Proof. intros <-. unfold Js.code. by rewrite ascii_N_embedding. Qed.

Lemma isSpace1_space1 a : bool_decide (a ∈ space1) = Js.isSpace1 a.
Proof.
  destruct (Js.isSpace1 a) eqn:Ha.
  - apply bool_decide_eq_true. unfold Js.isSpace1 in Ha.
    apply orb_true_iff in Ha as [[Hlo Hhi]%andb_true_iff|Heq].
    + apply N.leb_le in Hlo, Hhi.
      assert (Js.code a = 9 \/ Js.code a = 10 \/ Js.code a = 11 \/ Js.code a = 12 \/
              Js.code a = 13)%N as Hcases by lia.
      repeat destruct Hcases as [Hcases|Hcases];
        apply code_inv in Hcases; subst a; apply (bool_decide_unpack _); by vm_compute.
    + apply N.eqb_eq, code_inv in Heq. subst a. apply (bool_decide_unpack _). by vm_compute.
  - apply bool_decide_eq_false. unfold space1. rewrite !elem_of_cons, elem_of_nil.
    intros Hin. repeat destruct Hin as [Hin|Hin]; try done; by subst a.
Qed.

Lemma isSpace2_space2 a b : bool_decide ((a, b) ∈ space2) = Js.isSpace2 a b.
Proof.
  destruct (Js.isSpace2 a b) eqn:Hab.
  - apply bool_decide_eq_true. unfold Js.isSpace2 in Hab.
    apply andb_true_iff in Hab as [Ha%N.eqb_eq%code_inv Hb%N.eqb_eq%code_inv].
    subst a b. apply (bool_decide_unpack _). by vm_compute.
  - apply bool_decide_eq_false. unfold space2. rewrite !elem_of_cons, elem_of_nil.
    intros Hin. repeat destruct Hin as [Hin|Hin]; try done.
    injection Hin as -> ->. done.
Qed.

Lemma isSpace3_space3 a b c : bool_decide ((a, b, c) ∈ space3) = Js.isSpace3 a b c.
Proof.
  destruct (Js.isSpace3 a b c) eqn:Habc.
  - apply bool_decide_eq_true. unfold Js.isSpace3 in Habc. cbv zeta in Habc.
    repeat (apply orb_true_iff in Habc as [Habc|Habc]);
      repeat (apply andb_true_iff in Habc as [Habc ?]);
      repeat match goal with
             | H : (_ =? _)%N = true |- _ => apply N.eqb_eq, code_inv in H
             end;
      subst; try (apply (bool_decide_unpack _); by vm_compute).
    match goal with
    | H : _ || _ || _ || _ = true |- _ =>
        repeat (apply orb_true_iff in H as [H|H]);
        try (apply N.eqb_eq, code_inv in H; subst; apply (bool_decide_unpack _); by vm_compute);
        apply andb_true_iff in H as [Hlo%N.leb_le Hhi%N.leb_le]
    end.
    assert (Js.code c = 128 \/ Js.code c = 129 \/ Js.code c = 130 \/ Js.code c = 131 \/
            Js.code c = 132 \/ Js.code c = 133 \/ Js.code c = 134 \/ Js.code c = 135 \/
            Js.code c = 136 \/ Js.code c = 137 \/ Js.code c = 138)%N as Hcases by lia.
    repeat destruct Hcases as [Hcases|Hcases];
      apply code_inv in Hcases; subst c; apply (bool_decide_unpack _); by vm_compute.
  - apply bool_decide_eq_false. unfold space3. rewrite !elem_of_cons, elem_of_nil.
    intros Hin. repeat destruct Hin as [Hin|Hin]; try done;
      injection Hin as -> -> ->; done.
Qed.

Lemma width_cases a :
  (Js.width a = 1 /\ (Js.code a < 192)%N) \/
  (Js.width a = 2 /\ (192 <= Js.code a < 224)%N) \/
  (Js.width a = 3 /\ (224 <= Js.code a < 240)%N) \/
  (Js.width a = 4 /\ (240 <= Js.code a)%N).
Proof.
  unfold Js.width. cbv zeta.
  destruct (N.ltb_spec (Js.code a) 192); [lia|].
  destruct (N.ltb_spec (Js.code a) 224); [lia|].
  destruct (N.ltb_spec (Js.code a) 240); lia.
Qed.

Lemma isSpace1_code a : Js.isSpace1 a = true -> (Js.code a < 192)%N.
Proof.
  unfold Js.isSpace1. cbv zeta.
  intros [[_ ?%N.leb_le]%andb_true_iff|?%N.eqb_eq]%orb_true_iff; lia.
Qed.

Lemma isSpace2_code a b : Js.isSpace2 a b = true -> (Js.code a = 194)%N.
Proof. unfold Js.isSpace2. by intros [?%N.eqb_eq _]%andb_true_iff. Qed.

Lemma isSpace3_code a b c : Js.isSpace3 a b c = true -> (224 <= Js.code a < 240)%N.
Proof.
  unfold Js.isSpace3. cbv zeta. intros H.
  repeat (apply orb_true_iff in H as [H|H]);
    apply andb_true_iff in H as [[?%N.eqb_eq _]%andb_true_iff _]; lia.
Qed.

(** Reading a string character by character, [blank] and the white
    space of [trim] agree. *)
Lemma blank_chars s : blank s = forallb Js.isWhiteSpace (Js.chars s).
Proof.
  remember (String.length s) as n eqn:Hn.
  assert (Hle : String.length s <= n) by lia. clear Hn.
  revert s Hle. induction n as [|n IH]; intros s Hle.
  { destruct s; [done|cbn in Hle; lia]. }
  destruct s as [|a r]; [done|]. cbn [String.length] in Hle.
  cbn [blank Js.chars]. rewrite isSpace1_space1.
  pose proof (isSpace1_code a) as H1.
  destruct (width_cases a) as [[-> Hw]|[[-> Hw]|[[-> Hw]|[-> Hw]]]].
  - cbn [forallb Js.isWhiteSpace].
    destruct (Js.isSpace1 a); cbn [andb]; [apply IH; lia|].
    destruct r as [|b r']; [done|]. rewrite isSpace2_space2.
    pose proof (isSpace2_code a b) as H2.
    destruct (Js.isSpace2 a b); [lia|].
    destruct r' as [|c r'']; [done|]. rewrite isSpace3_space3.
    pose proof (isSpace3_code a b c) as H3.
    destruct (Js.isSpace3 a b c); [lia|done].
  - destruct (Js.isSpace1 a) eqn:Ha; [lia|].
    destruct r as [|b r']; [cbn; by rewrite Ha|].
    cbn [forallb Js.isWhiteSpace]. rewrite isSpace2_space2.
    destruct (Js.isSpace2 a b); cbn [andb]; [cbn [String.length] in Hle; apply IH; lia|].
    destruct r' as [|c r'']; [done|]. rewrite isSpace3_space3.
    pose proof (isSpace3_code a b c) as H3.
    destruct (Js.isSpace3 a b c); [lia|done].
  - destruct (Js.isSpace1 a) eqn:Ha; [lia|].
    destruct r as [|b r']; [cbn; by rewrite Ha|]. rewrite isSpace2_space2.
    pose proof (isSpace2_code a b) as H2.
    destruct (Js.isSpace2 a b); [lia|].
    destruct r' as [|c r'']; [cbn; by rewrite Ha|].
    cbn [forallb Js.isWhiteSpace]. rewrite isSpace3_space3.
    destruct (Js.isSpace3 a b c); cbn [andb]; [|done].
    cbn [String.length] in Hle. apply IH. lia.
  - destruct (Js.isSpace1 a) eqn:Ha; [lia|].
    destruct r as [|b r']; [cbn; by rewrite Ha|]. rewrite isSpace2_space2.
    pose proof (isSpace2_code a b) as H2.
    destruct (Js.isSpace2 a b); [lia|].
    destruct r' as [|c r'']; [cbn; by rewrite Ha|]. rewrite isSpace3_space3.
    pose proof (isSpace3_code a b c) as H3.
    destruct (Js.isSpace3 a b c); [lia|].
    destruct r'' as [|d r3]; [cbn; by rewrite Ha|done].
Qed.

Lemma chars_cons a r :
  exists ch r', Js.chars (String a r) = ch :: Js.chars r' /\ ch <> "" /\
                String.length r' <= String.length r.
Proof.
  cbn [Js.chars].
  destruct (Js.width a) as [|[|[|[|[|?]]]]]; destruct r as [|b [|c [|d r]]];
    eexists _, _; (split; [reflexivity|]); (split; [done|]); cbn [String.length]; lia.
Qed.

Lemma chars_nonempty s : Forall (fun ch => ch <> "") (Js.chars s).
Proof.
  remember (String.length s) as n eqn:Hn.
  assert (Hle : String.length s <= n) by lia. clear Hn.
  revert s Hle. induction n as [|n IH]; intros s Hle.
  { destruct s; [constructor|cbn in Hle; lia]. }
  destruct s as [|a r]; [constructor|]. cbn [String.length] in Hle.
  destruct (chars_cons a r) as (ch & r' & -> & Hch & Hlen).
  constructor; [done|]. apply IH. lia.
Qed.

Lemma unchars_empty l : Forall (fun ch => ch <> "") l -> Js.unchars l = "" <-> l = [].
Proof.
  destruct 1 as [|ch l Hch _]; [done|]. cbn [Js.unchars foldr].
  split; [|done]. by destruct ch.
Qed.

Lemma dropWhile_Forall {A} (f : A -> bool) (P : A -> Prop) l :
  Forall P l -> Forall P (Js.dropWhile f l).
Proof.
  induction 1 as [|x l Hx Hl IH]; [constructor|]. cbn [Js.dropWhile].
  destruct (f x); [done|by constructor].
Qed.

Lemma dropWhile_nil {A} (f : A -> bool) l : Js.dropWhile f l = [] <-> forallb f l = true.
Proof.
  induction l as [|x l IH]; [done|]. cbn [Js.dropWhile forallb].
  destruct (f x); [done|]. split; discriminate.
Qed.

Lemma forallb_dropWhile {A} (f : A -> bool) l :
  forallb f (Js.dropWhile f l) = forallb f l.
Proof.
  induction l as [|x l IH]; [done|]. cbn [Js.dropWhile forallb].
  destruct (f x) eqn:Hx; [done|]. cbn [forallb]. by rewrite Hx.
Qed.

Lemma forallb_rev {A} (f : A -> bool) l : forallb f (rev l) = forallb f l.
Proof.
  induction l as [|x l IH]; [done|]. cbn [rev forallb].
  rewrite forallb_app, IH. cbn [forallb]. rewrite andb_true_r. apply andb_comm.
Qed.

Lemma rev_nil_iff {A} (l : list A) : rev l = [] <-> l = [].
Proof.
  split; [|by intros ->]. intros Hl. apply (f_equal (@rev A)) in Hl.
  by rewrite rev_involutive in Hl.
Qed.

(** [trim] leaves nothing exactly of the strings that are white space
    throughout. *)
Lemma trim_empty s : Js.trim s = "" <-> blank s = true.
Proof.
  unfold Js.trim. rewrite unchars_empty.
  - rewrite rev_nil_iff, dropWhile_nil, forallb_rev, forallb_dropWhile.
    by rewrite blank_chars.
  - apply Forall_rev, dropWhile_Forall, Forall_rev, dropWhile_Forall, chars_nonempty.
Qed.

Lemma truthy_trim s : Js.truthy (Js.trim s) = negb (blank s).
Proof.
  destruct (blank s) eqn:Hb.
  - apply trim_empty in Hb. by rewrite Hb.
  - destruct (Js.trim s) eqn:Ht; [|done].
    apply trim_empty in Ht. congruence.
Qed.

End Blank.

(** X8. What the service formats it parses back: for a media type
    without [:], [;] and [,] and content without [,], the data URL of an
    image parses to that very image, in [refineImage] as in
    [fileToGenerativePart], so a refinement sends the image the earlier
    answer carried. A URL without any comma parses to an image part whose
    data is undefined. *)
Theorem data_url_round_trip m d :
  lacks ":" m = true -> lacks ";" m = true -> lacks "," m = true -> lacks "," d = true ->
  let b := {| data := Js.Present d; mimeType := Js.Present m |} in
  let image := {| inlineData := Some b; text := None |} in
  parsedImagePart (dataUrl b) = image /\
  fileToGenerativePart {| type := m; readAsDataURL := dataUrl b |} = image /\
  (forall env w inst command,
     clientOf env w = Some inst ->
     calls (refineImage (Some (dataUrl b)) command env w).2
     = calls w ++ [request [image; textPart command]]) /\
  (forall url,
     lacks "," url = true ->
     data <$> inlineData (parsedImagePart url) = Some Js.Undefined).
Proof.
  intros Hcolon Hsemi Hcomma Hd b image.
  assert (Hparse : parsedImagePart (dataUrl b) = image).
  { apply parsedImagePart_dataUrl. exists m, d. done. }
  split; [done|]. split; [|split].
  - assert (Hsplit : Js.split "," (dataUrl b) !! 1%nat = Some d).
    { subst b. unfold dataUrl, Js.render. cbn [mimeType data].
      replace ("data:" +:+ m +:+ ";base64," +:+ d)
        with (("data:" +:+ m +:+ ";base64") +:+ String "," d)
        by (by rewrite !append_assoc).
      rewrite split_found, split_lacks by (rewrite ?lacks_app, ?Hcomma; done).
      reflexivity. }
    unfold fileToGenerativePart. cbn [readAsDataURL type]. by rewrite Hsplit.
  - intros env w inst command Hc. rewrite (refineImage_run env _ _ _ _ Hc).
    cbn [snd logCalls calls keepClient]. by rewrite Hparse.
  - intros url Hurl. cbn [parsedImagePart inlineData fmap option_fmap option_map data].
    by rewrite (split_lacks _ _ Hurl).
Qed.

Lemma data_url_round_trip_witness :
  parsedImagePart "data:image/webp;base64,U1RZTEU="
  = {| inlineData :=
         Some {| data := Js.Present "U1RZTEU="; mimeType := Js.Present "image/webp" |};
       text := None |}.
Proof.
  exact (proj1 (data_url_round_trip "image/webp" "U1RZTEU=" eq_refl eq_refl eq_refl eq_refl)).
Defined.

(** X9. An instruction made of white space only, be it ASCII white space
    or the no-break space and the other spaces and separators of Unicode
    that [trim] strips, or none at all, is never sent, and neither is
    one for an id that is not on screen: the handler returns with the
    state and the world as they were. Any other instruction for a card
    on screen is handed to [refineImage] with the image the card
    displays. *)
Theorem blank_instruction_never_sent env st w resultId command :
  Js.truthy (Js.trim command) = negb (blank command) /\
  (list_find (fun r => id r = resultId) (results st) = None \/ blank command = true ->
   handleRefinement resultId command st env w = (Normal st, w)) /\
  (forall resultIndex currentResult,
     list_find (fun r => id r = resultId) (results st) = Some (resultIndex, currentResult) ->
     blank command = false ->
     (handleRefinement resultId command st env w).2
     = (refineImage (shown currentResult) command env w).2).
Proof.
  split; [apply truthy_trim|]. split.
  - intros [Hnone|Hblank]; apply handleRefinement_skipped; [by left|right].
    by rewrite truthy_trim, Hblank.
  - intros resultIndex currentResult Hfind Hblank.
    rewrite (handleRefinement_run env _ _ _ _ _ _ Hfind); [done|].
    by rewrite truthy_trim, Hblank.
Qed.

Lemma blank_instruction_never_sent_witness :
  let st := Sample.withResults [Sample.entry ["A"] 0 ""] in
  blank Sample.spaces = true /\
  handleRefinement "result-1700000000000-0" Sample.spaces st Sample.env initialWorld
  = (Normal st, initialWorld).
Proof.
  intros st. split; [reflexivity|].
  destruct (blank_instruction_never_sent Sample.env st initialWorld
              "result-1700000000000-0" Sample.spaces) as (_ & Hskip & _).
  apply Hskip. right. reflexivity.
Defined.

(** X10. Undo and redo undo each other: redo after undo gives back the
    entry unless it was at its first version, undo after redo unless it
    was at its last. After a refinement the card shows the new image,
    one undo shows the image that was refined, and a redo shows the new
    image again. *)
Theorem undo_redo_inverse res newImage :
  entryOk res ->
  ((0 < currentIndex res)%Z -> redoEntry (undoEntry res) = res) /\
  ((currentIndex res < Z.of_nat (length (imageHistory res)) - 1)%Z ->
   undoEntry (redoEntry res) = res) /\
  shown (refineEntry newImage res) = Some newImage /\
  shown (undoEntry (refineEntry newImage res)) = shown res /\
  shown (redoEntry (undoEntry (refineEntry newImage res))) = Some newImage.
Proof.
  intros [Hlo Hhi].
  destruct (refineEntry_spec newImage res (conj Hlo Hhi)) as [Hv Hc].
  assert (Hlen : length (take (S (Z.to_nat (currentIndex res))) (imageHistory res))
                 = S (Z.to_nat (currentIndex res))) by (rewrite length_take; lia).
  split; [|split; [|split; [|split]]].
  - intros Hpos. destruct res as [i h c p]. unfold redoEntry, undoEntry. cbn in *.
    f_equal. lia.
  - intros Htop. destruct res as [i h c p]. unfold redoEntry, undoEntry. cbn in *.
    f_equal. lia.
  - unfold shown, Js.at_index. rewrite Hc, Hv.
    rewrite (proj2 (Z.ltb_ge _ 0)) by lia.
    replace (Z.to_nat (currentIndex res + 1)) with (S (Z.to_nat (currentIndex res))) by lia.
    rewrite lookup_app_r by lia. by rewrite Hlen, Nat.sub_diag.
  - unfold shown, Js.at_index. cbn [undoEntry imageHistory currentIndex].
    rewrite Hc, Hv.
    replace (Z.max 0 (currentIndex res + 1 - 1)) with (currentIndex res) by lia.
    rewrite (proj2 (Z.ltb_ge _ 0)) by lia.
    rewrite lookup_app_l by lia. rewrite lookup_take_lt by lia. done.
  - unfold shown, Js.at_index. cbn [redoEntry undoEntry imageHistory currentIndex].
    rewrite Hc, Hv, length_app, Hlen. cbn [length].
    replace (Z.min _ _) with (currentIndex res + 1)%Z by lia.
    rewrite (proj2 (Z.ltb_ge _ 0)) by lia.
    replace (Z.to_nat (currentIndex res + 1)) with (S (Z.to_nat (currentIndex res))) by lia.
    rewrite lookup_app_r by lia. by rewrite Hlen, Nat.sub_diag.
Qed.

Lemma undo_redo_inverse_witness :
  let res := Sample.entry ["A"; "B"; "C"] 1 "" in
  entryOk res /\ redoEntry (undoEntry res) = res /\
  shown (undoEntry (refineEntry "D" res)) = Some "B".
Proof.
  intros res. assert (Hres : entryOk res) by (unfold entryOk; cbn; lia).
  split; [exact Hres|].
  destruct (undo_redo_inverse res "D" Hres) as (Hback & _ & _ & Hundo & _).
  split; [apply Hback; cbn; lia|exact Hundo].
Defined.

(** ** The ids of the cards *)

Section Ids.

Lemma pretty_N_char_digit y : Ascii.eqb (pretty_N_char y) "-" = false.
Proof. unfold pretty_N_char. by repeat case_match. Qed.

Lemma pretty_N_go_lacks x s :
  lacks "-" s = true -> lacks "-" (pretty_N_go x s) = true.
Proof.
  revert s. induction (N.lt_wf_0 x) as [x _ IH]; intros s Hs.
  assert (x = 0 \/ 0 < x)%N as [->|Hpos] by lia.
  - by rewrite pretty_N_go_0.
  - rewrite pretty_N_go_step by done. apply IH.
    + by apply N.div_lt.
    + cbn [lacks]. by rewrite pretty_N_char_digit, Hs.
Qed.

(** The decimal form of an index has no dash. *)
Lemma pretty_nat_lacks (k : nat) : lacks "-" (pretty k) = true.
Proof.
  unfold pretty, pretty_nat, pretty, pretty_N.
  case_decide; [done|]. by apply pretty_N_go_lacks.
Qed.

Lemma lacks_sep c a b : lacks c (a +:+ String c b) = false.
Proof.
  rewrite lacks_app. cbn [lacks]. rewrite Ascii.eqb_refl. cbn.
  by rewrite andb_false_r.
Qed.

(** The text after the last separator determines the text before it. *)
Lemma sep_inj c s1 s2 d1 d2 :
  lacks c d1 = true -> lacks c d2 = true ->
  s1 +:+ String c d1 = s2 +:+ String c d2 -> s1 = s2 /\ d1 = d2.
Proof.
  intros Hd1 Hd2. revert s2. induction s1 as [|a s1 IH]; intros [|a' s2] Heq.
  - by injection Heq as ->.
  - change ("" +:+ String c d1) with (String c d1) in Heq.
    rewrite append_cons in Heq. injection Heq as -> ->.
    by rewrite lacks_sep in Hd1.
  - change ("" +:+ String c d2) with (String c d2) in Heq.
    rewrite append_cons in Heq. injection Heq as -> <-.
    by rewrite lacks_sep in Hd2.
  - rewrite !append_cons in Heq. injection Heq as -> Heq.
    by destruct (IH _ Heq) as [-> ->].
Qed.

(** Two entries of one generation have different ids: the index is part
    of the id. *)
Lemma newResult_id_inj now1 now2 k1 k2 url1 url2 :
  id (newResult now1 k1 url1) = id (newResult now2 k2 url2) -> k1 = k2.
Proof.
  cbn [id newResult]. intros Heq.
  apply (inj (String.append "result-")) in Heq.
  change ("-" +:+ pretty k1) with (String "-" (pretty k1)) in Heq.
  change ("-" +:+ pretty k2) with (String "-" (pretty k2)) in Heq.
  apply sep_inj in Heq as [_ Hk]; [|apply pretty_nat_lacks..].
  by apply (inj pretty) in Hk.
Qed.

Lemma entriesAt_distinct env w urls : distinctIds (entriesAt env w urls).
Proof.
  unfold distinctIds, entriesAt. apply NoDup_alt. intros i j x Hi Hj.
  rewrite list_lookup_fmap, list_lookup_imap in Hi, Hj.
  destruct (urls !! i) as [u1|]; [|done]. destruct (urls !! j) as [u2|]; [|done].
  cbn [fmap option_fmap option_map] in Hi, Hj.
  injection Hi as Hi. injection Hj as Hj. rewrite <- Hj in Hi.
  by apply newResult_id_inj in Hi.
Qed.

Lemma onEntry_ids resultId f prev :
  (forall res, id (f res) = id res) -> id <$> onEntry resultId f prev = id <$> prev.
Proof.
  intros Hf. unfold onEntry. rewrite <- list_fmap_compose.
  apply list_fmap_ext. intros _ res _. cbn. by destruct (String.eqb _ _).
Qed.

Lemma refineResults_ids resultIndex newImageUrl prev :
  id <$> refineResults resultIndex newImageUrl prev = id <$> prev.
Proof.
  apply list_eq. intros i. unfold refineResults.
  rewrite !list_lookup_fmap, list_lookup_imap.
  destruct (prev !! i); [|done]. cbn. by destruct (bool_decide _).
Qed.

Lemma step_idsUnique env a st w : idsUnique st -> idsUnique (step env a (st, w)).1.
Proof.
  intros [Hr Hh]. unfold step. cbn [fst snd].
  destruct a as [f|f|f|theme|v|v| |resultId command|resultId|resultId|resultId prompt|n];
    cbn [handle]; try by split.
  - unfold handleModelPhotoChange. by destruct (Js.defined f).
  - unfold handleReferencePhotoChange. by destruct (Js.defined f).
  - destruct (productPhoto st) as [product|] eqn:Hp.
    + rewrite (handleGenerateClick_run env _ _ _ Hp).
      destruct (submission product st env w) as [[[|url urls]|e] w1]; cbn [after fst snd].
      * split; [apply NoDup_nil_2|done].
      * split; [apply entriesAt_distinct|].
        constructor; [apply entriesAt_distinct|done].
      * split; [apply NoDup_nil_2|done].
    + unfold handleGenerateClick. rewrite Hp. by split.
  - destruct (list_find (fun r => id r = resultId) (results st)) as [[i cur]|] eqn:Hfind;
      [|by rewrite handleRefinement_skipped by auto].
    destruct (Js.truthy (Js.trim command)) eqn:Hcmd;
      [|by rewrite handleRefinement_skipped by auto].
    rewrite (handleRefinement_run env _ _ _ _ _ _ Hfind Hcmd). cbn [after fst].
    destruct (refineImage _ command env w).1; [|by split].
    split; [|done]. unfold distinctIds. cbn [results setIsLoading setResults].
    by rewrite refineResults_ids.
  - split; [|done].
    change (NoDup (id <$> onEntry resultId undoEntry (results st))).
    by rewrite onEntry_ids.
  - split; [|done].
    change (NoDup (id <$> onEntry resultId redoEntry (results st))).
    by rewrite onEntry_ids.
  - split; [|done].
    change (NoDup (id <$> onEntry resultId (promptEntry prompt) (results st))).
    by rewrite onEntry_ids.
  - destruct (history st !! n) as [item|] eqn:Hn; [|by split].
    split; [|done]. change (distinctIds (itemResults item)).
    by eapply Forall_lookup_1 in Hh.
Qed.

(** With distinct ids an update by id changes one card. *)
Lemma onEntry_insert f rs k e :
  distinctIds rs -> rs !! k = Some e ->
  onEntry (id e) f rs = <[k := f e]> rs.
Proof.
  intros Hnd Hk. apply list_eq. intros i. unfold onEntry.
  rewrite list_lookup_fmap, list_lookup_insert.
  destruct (decide (k = i)) as [<-|Hne].
  - rewrite Hk. cbn. rewrite String.eqb_refl, decide_True; [done|].
    split; [done|]. by apply lookup_lt_Some in Hk.
  - rewrite decide_False by (by intros [? _]).
    destruct (rs !! i) as [x|] eqn:Hi; [|done]. cbn.
    destruct (String.eqb_spec (id x) (id e)) as [Heq|]; [|done].
    destruct Hne. apply (NoDup_lookup _ _ _ (id e) Hnd); rewrite list_lookup_fmap.
    + by rewrite Hk.
    + by rewrite Hi, <- Heq.
Qed.

Lemma list_find_distinct rs k e :
  distinctIds rs -> rs !! k = Some e ->
  list_find (fun r => id r = id e) rs = Some (k, e).
Proof.
  intros Hnd Hk. apply list_find_Some. split; [done|]. split; [done|].
  intros j y Hj Hlt Heq.
  assert (j = k); [|lia].
  apply (NoDup_lookup _ _ _ (id e) Hnd); rewrite list_lookup_fmap.
  - by rewrite Hj, <- Heq.
  - by rewrite Hk.
Qed.

End Ids.

(** X11. Along every session the cards on screen, and the entries of
    every history item, have pairwise distinct ids. An undo, a redo or a
    change of the pending instruction therefore changes the one card it
    is aimed at and leaves the others as they are, and a refinement is
    applied to the card whose button was pressed. *)
Theorem cards_have_unique_ids env acts :
  let st := (session env acts).1 in
  idsUnique st /\
  forall k e,
    results st !! k = Some e ->
    list_find (fun r => id r = id e) (results st) = Some (k, e) /\
    results (handleUndo (id e) st) = <[k := undoEntry e]> (results st) /\
    results (handleRedo (id e) st) = <[k := redoEntry e]> (results st) /\
    (forall prompt,
       results (handleRefinementPromptChange (id e) prompt st)
       = <[k := promptEntry prompt e]> (results st)).
Proof.
  intros st. assert (Hok : idsUnique st).
  { subst st. induction acts as [|a acts IH] using rev_ind.
    - split; [apply NoDup_nil_2|constructor].
    - rewrite session_snoc. destruct (session env acts) as [st w].
      by apply step_idsUnique. }
  split; [done|]. intros k e Hk. destruct Hok as [Hnd _].
  split; [by apply list_find_distinct|].
  cbn [handleUndo handleRedo handleRefinementPromptChange results setResults].
  split; [by apply onEntry_insert|]. split; [by apply onEntry_insert|].
  intros prompt. by apply onEntry_insert.
Qed.

Lemma cards_have_unique_ids_witness :
  let acts := [SelectProductPhoto (Sample.upload Sample.product); ClickGenerate] in
  let st := (session Sample.env acts).1 in
  id <$> results st
    = ["result-1700000000000-0"; "result-1700000000001-1"; "result-1700000000002-2"] /\
  list_find (fun r => id r = "result-1700000000001-1") (results st)
    = Some (1, newResult 1700000000001 1 "data:image/png;base64,1").
Proof.
  intros acts st. split; [reflexivity|].
  destruct (cards_have_unique_ids Sample.env acts) as [_ Hcards].
  exact (proj1 (Hcards 1 (newResult 1700000000001 1 "data:image/png;base64,1") eq_refl)).
Defined.

(** ** The history along a session *)

Section History.

Context (env : Env).

Lemma submission_length product st w urls w1 :
  submission product st env w = (Normal urls, w1) -> length urls <= numberOfImages.
Proof.
  rewrite submission_run. destruct (clientOf env w) as [inst|]; [|done].
  cbv zeta. destruct (firstRejection _) as [[t e]|]; [done|].
  intros [= Hurls%collect_length _]. etrans; [exact Hurls|].
  etrans; [apply omap_length_le|].
  rewrite length_promisesOf. unfold callCount, numberOfImages.
  destruct (Js.defined _); lia.
Qed.

Lemma entriesAt_pristine w urls : Forall pristine (entriesAt env w urls).
Proof. apply Forall_forall. intros res Hin. by apply (entriesAt_fresh env w urls). Qed.

Lemma length_entriesAt w urls : length (entriesAt env w urls) = length urls.
Proof. unfold entriesAt. by rewrite length_imap. Qed.

Lemma length_onEntry resultId f prev : length (onEntry resultId f prev) = length prev.
Proof. unfold onEntry. by rewrite length_fmap. Qed.

Lemma length_refineResults k u prev : length (refineResults k u prev) = length prev.
Proof. unfold refineResults. by rewrite length_imap. Qed.

(** No handler removes, reorders or rewrites a history item. *)
Lemma step_history_suffix a st w :
  history st `suffix_of` history (step env a (st, w)).1.
Proof.
  unfold step. cbn [fst snd].
  destruct a as [f|f|f|theme|v|v| |resultId command|resultId|resultId|resultId prompt|n];
    cbn [handle]; try done.
  - unfold handleModelPhotoChange. by destruct (Js.defined f).
  - unfold handleReferencePhotoChange. by destruct (Js.defined f).
  - destruct (productPhoto st) as [product|] eqn:Hp.
    + rewrite (handleGenerateClick_run env _ _ _ Hp).
      destruct (submission product st env w).1 as [[|url urls]|e]; cbn [after fst]; try done.
      by apply suffix_cons_r.
    + unfold handleGenerateClick. by rewrite Hp.
  - destruct (list_find (fun r => id r = resultId) (results st)) as [[i cur]|] eqn:Hfind;
      [|by rewrite handleRefinement_skipped by auto].
    destruct (Js.truthy (Js.trim command)) eqn:Hcmd;
      [|by rewrite handleRefinement_skipped by auto].
    rewrite (handleRefinement_run env _ _ _ _ _ _ Hfind Hcmd).
    by destruct (refineImage _ command env w).1.
  - by destruct (history st !! n).
Qed.

Lemma step_historyOk a st w :
  historyOk st /\ length (results st) <= numberOfImages ->
  historyOk (step env a (st, w)).1 /\
  length (results (step env a (st, w)).1) <= numberOfImages.
Proof.
  intros [Hh Hr]. unfold step. cbn [fst snd].
  destruct a as [f|f|f|theme|v|v| |resultId command|resultId|resultId|resultId prompt|n];
    cbn [handle]; try by split.
  - unfold handleModelPhotoChange. by destruct (Js.defined f).
  - unfold handleReferencePhotoChange. by destruct (Js.defined f).
  - destruct (productPhoto st) as [product|] eqn:Hp.
    + rewrite (handleGenerateClick_run env _ _ _ Hp).
      destruct (submission product st env w) as [[[|url urls]|e] w1] eqn:Hs;
        cbn [after fst snd].
      * split; [done|cbn; lia].
      * apply submission_length in Hs.
        split; [|change (length (entriesAt env w1 (url :: urls)) <= numberOfImages);
                 by rewrite length_entriesAt].
        constructor; [|done]. cbn [newHistoryItem itemResults].
        split; [apply entriesAt_pristine|]. rewrite length_entriesAt. cbn [length] in *. lia.
      * split; [done|cbn; lia].
    + unfold handleGenerateClick. rewrite Hp. by split.
  - destruct (list_find (fun r => id r = resultId) (results st)) as [[i cur]|] eqn:Hfind;
      [|by rewrite handleRefinement_skipped by auto].
    destruct (Js.truthy (Js.trim command)) eqn:Hcmd;
      [|by rewrite handleRefinement_skipped by auto].
    rewrite (handleRefinement_run env _ _ _ _ _ _ Hfind Hcmd). cbn [after fst].
    destruct (refineImage _ command env w).1; [|by split].
    split; [done|]. change (length (refineResults i a (results st)) <= numberOfImages).
    by rewrite length_refineResults.
  - split; [done|].
    change (length (onEntry resultId undoEntry (results st)) <= numberOfImages).
    by rewrite length_onEntry.
  - split; [done|].
    change (length (onEntry resultId redoEntry (results st)) <= numberOfImages).
    by rewrite length_onEntry.
  - split; [done|].
    change (length (onEntry resultId (promptEntry prompt) (results st)) <= numberOfImages).
    by rewrite length_onEntry.
  - destruct (history st !! n) as [item|] eqn:Hn; [|by split].
    split; [done|]. change (length (itemResults item) <= numberOfImages).
    eapply Forall_lookup_1 in Hh; [|exact Hn]. cbn in Hh. lia.
Qed.

Lemma session_historyOk acts :
  historyOk (session env acts).1 /\ length (results (session env acts).1) <= numberOfImages.
Proof.
  induction acts as [|a acts IH] using rev_ind.
  - split; [constructor|cbn; lia].
  - rewrite session_snoc. destruct (session env acts) as [st w].
    by apply step_historyOk.
Qed.

End History.

(** X12. The history only grows at its front and keeps what it holds: no
    action removes, reorders or rewrites an item. Along every session
    each item holds between one and four entries, each with a single
    version, the pointer at 0 and no pending instruction, and at most
    four cards are on screen. Opening a history card therefore shows the
    batch as it was generated: refinements made on screen are not part
    of it. *)
Theorem history_keeps_pristine_batches env acts :
  let st := (session env acts).1 in
  (forall a st0 w0, history st0 `suffix_of` history (step env a (st0, w0)).1) /\
  historyOk st /\
  length (results st) <= 4 /\
  (forall n item w,
     history st !! n = Some item ->
     results (step env (ClickHistory n) (st, w)).1 = itemResults item /\
     Forall pristine (itemResults item)).
Proof.
  intros st. destruct (session_historyOk env acts) as [Hh Hr]. fold st in Hh, Hr.
  split; [intros; apply step_history_suffix|]. split; [done|]. split; [done|].
  intros n item w Hn. unfold step. cbn [fst snd handle]. rewrite Hn.
  split; [reflexivity|]. eapply Forall_lookup_1 in Hh; [|exact Hn]. by destruct Hh.
Qed.

Lemma history_keeps_pristine_batches_witness :
  let acts := [SelectProductPhoto (Sample.upload Sample.product); ClickGenerate;
               ClickRefine "result-1700000000000-0" "warmer"] in
  let st := (session Sample.env acts).1 in
  length (imageHistory <$> results st) = 3 /\
  (imageHistory <$> results st) !! 0 = Some ["data:image/png;base64,0"; "data:image/png;base64,4"] /\
  imageHistory <$> results (step Sample.env (ClickHistory 0) (st, initialWorld)).1
    = [["data:image/png;base64,0"]; ["data:image/png;base64,1"]; ["data:image/png;base64,3"]].
Proof.
  intros acts st. split; [reflexivity|]. split; [reflexivity|].
  destruct (history_keeps_pristine_batches Sample.env acts) as (_ & _ & _ & Hopen).
  destruct (Hopen 0 _ initialWorld eq_refl) as [Hres _].
  subst st. rewrite Hres. reflexivity.
Defined.

(** X13. Every card always has an image to display: along every session
    the pointer of each entry on screen and in the history designates one
    of its versions, so the image source is never undefined and a
    refinement never hands [refineImage] an undefined image. *)
Theorem displayed_image_defined env acts :
  let st := (session env acts).1 in
  Forall (fun res => exists img, shown res = Some img /\ img ∈ imageHistory res) (results st) /\
  Forall (fun item =>
            Forall (fun res => exists img, shown res = Some img /\ img ∈ imageHistory res)
              (itemResults item))
    (history st).
Proof.
  intros st.
  assert (Hshown : forall res, entryOk res ->
                     exists img, shown res = Some img /\ img ∈ imageHistory res).
  { intros res [Hlo Hhi]. unfold shown, Js.at_index.
    rewrite (proj2 (Z.ltb_ge _ 0)) by done.
    destruct (lookup_lt_is_Some_2 (imageHistory res) (Z.to_nat (currentIndex res)))
      as [img Himg]; [lia|].
    exists img. split; [done|]. by eapply list_elem_of_lookup_2. }
  destruct (session_ok env acts) as [Hr Hh]. fold st in Hr, Hh. split.
  - eapply Forall_impl; [exact Hr|]. exact Hshown.
  - eapply Forall_impl; [exact Hh|]. intros item Hitem.
    eapply Forall_impl; [exact Hitem|]. exact Hshown.
Qed.

(** ** The buttons *)

(** X14. While nothing is loading, the undo button of a card within
    bounds is enabled exactly when an undo changes the card, and then the
    pointer goes down by one; likewise the redo button, the pointer going
    up by one. The refine button is enabled exactly when the pending
    instruction is not blank, so a click on it, for a card on screen,
    passes the guard of the handler; the generate button is enabled
    exactly when a product photo is set. With at most one optional photo
    set, the two optional uploaders are never both disabled. *)
Theorem enabled_buttons_act res st :
  entryOk res ->
  isLoading st = false ->
  (Ui.undoDisabled res st = false <-> undoEntry res <> res) /\
  (Ui.undoDisabled res st = false ->
   currentIndex (undoEntry res) = (currentIndex res - 1)%Z) /\
  (Ui.redoDisabled res st = false <-> redoEntry res <> res) /\
  (Ui.redoDisabled res st = false ->
   currentIndex (redoEntry res) = (currentIndex res + 1)%Z) /\
  (Ui.refineDisabled res st = false <-> blank (refinementPrompt res) = false) /\
  (Ui.refineDisabled res st = false -> res ∈ results st ->
   exists k cur,
     list_find (fun r => id r = id res) (results st) = Some (k, cur) /\
     Js.truthy (Js.trim (refinementPrompt res)) = true) /\
  (Ui.generateDisabled st = false <-> is_Some (productPhoto st)) /\
  (exclusive st -> Ui.modelUploaderDisabled st && Ui.styleUploaderDisabled st = false).
Proof.
  intros [Hlo Hhi] Hload.
  unfold Ui.undoDisabled, Ui.redoDisabled, Ui.refineDisabled, Ui.generateDisabled.
  rewrite Hload, !orb_false_r.
  split; [|split; [|split; [|split; [|split; [|split; [|split]]]]]].
  - rewrite Z.eqb_neq. split.
    + intros Hne Heq. apply (f_equal currentIndex) in Heq. cbn in Heq. lia.
    + intros Hne Hz. by apply Hne, undoEntry_at_bottom.
  - rewrite Z.eqb_neq. cbn. lia.
  - rewrite Z.eqb_neq. split.
    + intros Hne Heq. apply (f_equal currentIndex) in Heq. cbn in Heq. lia.
    + intros Hne Hz. by apply Hne, redoEntry_at_top.
  - rewrite Z.eqb_neq. cbn. lia.
  - rewrite truthy_trim, negb_involutive. done.
  - intros Hen Hin. apply negb_false_iff in Hen.
    destruct (list_find (fun r => id r = id res) (results st)) as [[k cur]|] eqn:Hfind.
    + eauto.
    + apply list_find_None in Hfind. rewrite Forall_forall in Hfind.
      by destruct (Hfind res Hin).
  - rewrite negb_false_iff. destruct (productPhoto st) as [product|]; cbn; split.
    + eauto.
    + done.
    + done.
    + by intros [? ?].
  - unfold Ui.modelUploaderDisabled, Ui.styleUploaderDisabled.
    intros [-> | ->]; cbn; [apply andb_false_r|done].
Qed.

Lemma enabled_buttons_act_witness :
  let res := Sample.entry ["A"; "B"] 1 Sample.noBreakSpace in
  let st := Sample.withResults [res] in
  entryOk res /\ isLoading st = false /\
  Ui.undoDisabled res st = false /\ Ui.redoDisabled res st = true /\
  currentIndex (undoEntry res) = 0%Z /\
  Ui.refineDisabled res st <> false.
Proof.
  intros res st. assert (Hres : entryOk res) by (unfold entryOk; cbn; lia).
  split; [exact Hres|]. split; [reflexivity|]. split; [reflexivity|]. split; [reflexivity|].
  destruct (enabled_buttons_act res st Hres eq_refl) as (_ & Hundo & _ & _ & Hrefine & _).
  split; [exact (Hundo eq_refl)|].
  intros Hen. apply Hrefine in Hen. discriminate Hen.
Defined.

(** X15. A refinement never clears an earlier error message: after one
    that succeeds the message on screen is the one from before and the
    loading flag is down, while the results are rewritten at the index
    found; a generation with a product photo resets the message before
    it calls the service. *)
Theorem refinement_keeps_error env st w resultId command resultIndex currentResult newImage :
  list_find (fun r => id r = resultId) (results st) = Some (resultIndex, currentResult) ->
  Js.truthy (Js.trim command) = true ->
  (refineImage (shown currentResult) command env w).1 = Normal newImage ->
  let r := step env (ClickRefine resultId command) (st, w) in
  error r.1 = error st /\
  isLoading r.1 = false /\
  history r.1 = history st /\
  results r.1 = refineResults resultIndex newImage (results st) /\
  length (results r.1) = length (results st).
Proof.
  intros Hfind Hcmd Hrun r. subst r. unfold step. cbn [fst snd handle].
  rewrite (handleRefinement_run env _ _ _ _ _ _ Hfind Hcmd).
  fold (shown currentResult). rewrite Hrun. cbn [after fst].
  repeat split. cbn [results setIsLoading setResults].
  by rewrite length_refineResults.
Qed.

Lemma refinement_keeps_error_witness :
  let st := setError (Some "fetch failed") (Sample.withResults [Sample.entry ["A"] 0 "warmer"]) in
  let r := step Sample.env (ClickRefine "result-1700000000000-0" "warmer") (st, initialWorld) in
  error r.1 = Some "fetch failed" /\
  imageHistory <$> results r.1 = [["A"; "data:image/png;base64,0"]].
Proof.
  intros st r. subst r.
  destruct (refinement_keeps_error Sample.env st initialWorld
              "result-1700000000000-0" "warmer" 0 (Sample.entry ["A"] 0 "warmer")
              "data:image/png;base64,0" eq_refl eq_refl eq_refl)
    as (Herr & _ & _ & Hres & _).
  split; [exact Herr|]. rewrite Hres. reflexivity.
Defined.

(** ** The store along a session *)

Lemma execAll_app os1 os2 r s :
  Heap.execAll (os1 ++ os2) r s =
  match Heap.execAll os1 r s with
  | Some (r', s') => Heap.execAll os2 r' s'
  | None => None
  end.
Proof.
  revert r s. induction os1 as [|o os1 IH]; intros r s; [done|].
  cbn [app Heap.execAll]. unfold Heap.hbind.
  destruct (Heap.exec o r s) as [[r1 s1]|]; [apply IH|done].
Qed.

Lemma opsFrom_in_store env acts : forall sw r s,
  Heap.view s r = Some (screen sw.1) ->
  exists r' s',
    Heap.execAll (opsFrom env acts sw) r s = Some (r', s') /\ s `prefix_of` s' /\
    Heap.view s' r' = Some (screen (foldl (fun sw a => step env a sw) sw acts).1).
Proof.
  induction acts as [|a acts IH]; intros [st w] r s Hview; cbn [fst] in Hview.
  - by exists r, s.
  - destruct (step_in_store env a st w r s Hview) as (r1 & s1 & Hrun1 & Hpre1 & Hview1).
    destruct (IH _ _ _ Hview1) as (r2 & s2 & Hrun2 & Hpre2 & Hview2).
    exists r2, s2. cbn [opsFrom foldl fst snd].
    split; [by rewrite execAll_app, Hrun1|]. split; [by etrans|done].
Qed.

Lemma length_opsOf env a st w : length (opsOf env a st w) <= 1.
Proof.
  destruct a; cbn [opsOf length]; try lia.
  - destruct (productPhoto st) as [product|]; [|cbn; lia].
    by destruct (submission product st env w) as [[urls|e] w1].
  - destruct (list_find _ _) as [[k cur]|]; [|cbn; lia].
    destruct (Js.truthy _); [|cbn; lia].
    destruct (refineImage _ _ _ _).1; cbn; lia.
Qed.

(** X16. The store follows every session: the store operations that the
    actions of the session amount to, at most one for each action and
    taken in the order of the actions, when replayed from the two empty
    arrays of the initial state never read through a dangling or
    ill-typed reference, keep the initial cells and end in a store that
    reads back as exactly the results and the history of the
    application. *)
Theorem store_follows_session env acts :
  length (sessionOps env acts) <= length acts /\
  (forall a,
     sessionOps env (acts ++ [a]) =
     sessionOps env acts ++ opsOf env a (session env acts).1 (session env acts).2) /\
  exists r s,
    Heap.execAll (sessionOps env acts) Heap.initialRefs Heap.initialStore = Some (r, s) /\
    Heap.initialStore `prefix_of` s /\
    Heap.view s r = Some (screen (session env acts).1).
Proof.
  split; [|split].
  - unfold sessionOps. generalize (initialApp, initialWorld).
    induction acts as [|a acts IH]; intros sw; cbn [opsFrom length]; [lia|].
    rewrite length_app. specialize (IH (step env a sw)).
    pose proof (length_opsOf env a sw.1 sw.2). lia.
  - intros a. unfold sessionOps, session. generalize (initialApp, initialWorld).
    induction acts as [|b acts IH]; intros sw; cbn [app opsFrom foldl].
    + by rewrite app_nil_r.
    + by rewrite IH, app_assoc.
  - by apply (opsFrom_in_store env acts (initialApp, initialWorld)).
Qed.

Example session_operations :
  sessionOps Sample.env
    [SelectProductPhoto (Sample.upload Sample.product);
     SelectReferencePhoto (Sample.upload Sample.style);
     ClickGenerate;
     ClickUndo "result-1700000000000-0";
     ClickRefine "result-1700000000000-0" "warmer";
     ClickRefine "result-1700000000000-0" "  ";
     ClickHistory 0]
  = [Heap.Generated [newResult 1700000000000 0 "data:image/png;base64,0"]
       "history-1700000000001";
     Heap.Undo "result-1700000000000-0";
     Heap.Refined 0 "data:image/png;base64,1";
     Heap.Selected 0].
Proof. reflexivity. Qed.
